(** * donut-cli: a shallow embedding of [donut.c] and its properties

    The program renders a rotating torus as coloured ASCII art.  This file
    embeds the pieces of [donut.c] that the specification talks about:

    - the C arithmetic ([float] = IEEE-754 binary32, [double] = binary64,
      [int] = 32-bit two's complement) on top of [SpecFloat];
    - [setColorPalette] and the command-line handling at the top of [main];
    - the renderer: the body of the two sampling loops, the depth test and
      the two buffers [z] and [b];
    - the frame driver: input poll, frame emission, angle update and sleep.

    [sin] and [cos] come from the C library and are parameters of the
    development. *)

From Stdlib Require Import ZArith Lia Bool Ascii String SpecFloat Reals Lra Psatz.
From stdpp Require Import base list list_numbers.

Local Open Scope Z_scope.

(** ** Errors

    Code paths whose behaviour the C standard leaves undefined are made
    explicit: the embedding stops with a [fault] there. *)

Inductive fault : Type :=
  | ConvRange   (* float -> integer conversion of a NaN, an infinity or an
                   out-of-range value *)
  | BufIndex    (* z[o] or b[o] with o outside 0..1759 *)
  | RampIndex.  (* the glyph literal indexed past its terminator *)

Inductive result (A : Type) : Type :=
  | Ok (a : A)
  | Fault (f : fault).
Arguments Ok {A} a.
Arguments Fault {A} f.

Definition rbind {A B} (r : result A) (k : A -> result B) : result B :=
  match r with
  | Ok a => k a
  | Fault f => Fault f
  end.

Notation "'try' x <- r ; k" := (rbind r (fun x => k))
  (at level 10, x name, r at level 100, k at level 200).

(** ** C integers *)

Definition INT_MIN : Z := - 2 ^ 31.
Definition INT_MAX : Z := 2 ^ 31 - 1.
Definition UINT_MAX : Z := 2 ^ 32 - 1.

Definition in_int (v : Z) : Prop := INT_MIN <= v <= INT_MAX.

(** [int] arithmetic, with the wrap-around of the usual targets. *)
Definition wrap_int (v : Z) : Z := (v + 2 ^ 31) mod 2 ^ 32 - 2 ^ 31.

(** ** C floating point

    A [float] or [double] is a [spec_float]: [float] is IEEE-754 binary32
    and [double] binary64.  Every operation rounds to nearest-even in the
    format of its C type ([FLT_EVAL_METHOD] 0, no contraction into fused
    operations). *)

Module F32.
Definition prec : Z := 24.
Definition emax : Z := 128.
Definition add := SFadd prec emax.
Definition sub := SFsub prec emax.
Definition mul := SFmul prec emax.
Definition div := SFdiv prec emax.
Definition valid := valid_binary prec emax.
(** [(float) n] for an integer [n]. *)
Definition of_int (n : Z) : spec_float := binary_normalize prec emax n 0 false.
(** [(float) x] for a [double] [x]. *)
Definition of_double (x : spec_float) : spec_float :=
  match x with
  | S754_finite s m e => binary_round prec emax s m e
  | _ => x
  end.
End F32.

Module F64.
Definition prec : Z := 53.
Definition emax : Z := 1024.
Definition add := SFadd prec emax.
Definition div := SFdiv prec emax.
Definition valid := valid_binary prec emax.
Definition of_int (n : Z) : spec_float := binary_normalize prec emax n 0 false.
(** [(double) x] for a [float] [x]: exact, the mantissa is only re-aligned. *)
Definition of_float (x : spec_float) : spec_float :=
  match x with
  | S754_finite s m e => binary_round prec emax s m e
  | _ => x
  end.
(** The [double] nearest to the decimal literal [n / 10^k]. *)
Definition literal (n : Z) (k : Z) : spec_float := div (of_int n) (of_int (10 ^ k)).
End F64.

Definition fzero : spec_float := S754_zero false.

(** Comparisons as C writes them; each is false when an operand is a NaN. *)
Definition fgt (x y : spec_float) : bool := SFltb y x.
Definition fle (x y : spec_float) : bool := SFleb x y.

Definition is_nan (x : spec_float) : bool :=
  match x with S754_nan => true | _ => false end.

(** Truncation toward zero, the value of a float -> integer conversion. *)
Definition trunc (x : spec_float) : option Z :=
  match x with
  | S754_zero _ => Some 0
  | S754_finite s m e =>
      Some (cond_Zopp s (Z.shiftl (Zpos m) e))
  | S754_infinity _ | S754_nan => None
  end.

(** [(int) x] *)
Definition to_int (x : spec_float) : result Z :=
  match trunc x with
  | Some v => if (INT_MIN <=? v) && (v <=? INT_MAX) then Ok v else Fault ConvRange
  | None => Fault ConvRange
  end.

(** [(useconds_t) x], [useconds_t] being [unsigned int]. *)
Definition to_useconds (x : spec_float) : result Z :=
  match trunc x with
  | Some v => if (0 <=? v) && (v <=? UINT_MAX) then Ok v else Fault ConvRange
  | None => Fault ConvRange
  end.

Declare Scope f32_scope.
Delimit Scope f32_scope with f32.
Notation "x + y" := (F32.add x y) : f32_scope.
Notation "x - y" := (F32.sub x y) : f32_scope.
Notation "x * y" := (F32.mul x y) : f32_scope.
Notation "x / y" := (F32.div x y) : f32_scope.
(** [# n] is the [int] constant [n] converted to [float]. *)
Notation "# n" := (F32.of_int n) (at level 5, n at level 0, format "# n") : f32_scope.

(** ** Strings and characters *)

Local Open Scope string_scope.
Local Open Scope Z_scope.

Definition NUL : ascii := "000"%char.
Definition LF : ascii := "010"%char.
Definition ESC : ascii := "027"%char.
Definition SPACE : ascii := " "%char.

(** [\x1b] followed by [s]. *)
Definition esc (s : string) : string := String ESC s.

(** [strcmp(a, b) == 0] *)
Definition streq (a b : string) : bool := String.eqb a b.

(** [strchr(s, ch) != NULL]: the terminating NUL of [s] is part of the
    searched string, so the NUL character is always found. *)
Fixpoint strchr (s : string) (ch : ascii) : bool :=
  match s with
  | EmptyString => Ascii.eqb ch NUL
  | String c r => Ascii.eqb ch c || strchr r ch
  end.

(** ** [setColorPalette] *)

(** [const char *palette[3]] *)
Record palette : Type := Palette { pal0 : string; pal1 : string; pal2 : string }.

Definition red_palette : palette :=
  Palette (esc "[38;2;100;0;0m") (esc "[38;2;180;0;0m") (esc "[38;2;255;100;100m").
Definition blue_palette : palette :=
  Palette (esc "[38;2;0;0;100m") (esc "[38;2;0;0;180m") (esc "[38;2;100;100;255m").
Definition cyan_palette : palette :=
  Palette (esc "[38;2;0;100;100m") (esc "[38;2;0;180;180m") (esc "[38;2;100;255;255m").
Definition magenta_palette : palette :=
  Palette (esc "[38;2;100;0;100m") (esc "[38;2;180;0;180m") (esc "[38;2;255;100;255m").
Definition yellow_palette : palette :=
  Palette (esc "[38;2;100;100;0m") (esc "[38;2;180;180;0m") (esc "[38;2;255;255;100m").
Definition white_palette : palette :=
  Palette (esc "[38;2;100;100;100m") (esc "[38;2;180;180;180m") (esc "[38;2;255;255;255m").
Definition green_palette : palette :=
  Palette (esc "[38;2;0;100;0m") (esc "[38;2;0;180;0m") (esc "[38;2;100;255;100m").

Definition unknown_color_warning (colorName : string) : string :=
  "Warning: Unknown color '" ++ colorName ++ "'. Using default 'green'."
  ++ String LF "Available: green, red, blue, cyan, magenta, yellow, white"
  ++ String LF "".

(** [setColorPalette colorName] is the palette the function stores through
    its second argument, with what it prints on [stderr].  The function
    returns normally in every case. *)
Definition setColorPalette (colorName : string) : palette * list string :=
  if streq colorName "rot" || streq colorName "red" then (red_palette, [])
  else if streq colorName "blau" || streq colorName "blue" then (blue_palette, [])
  else if streq colorName "cyan" then (cyan_palette, [])
  else if streq colorName "magenta" then (magenta_palette, [])
  else if streq colorName "gelb" || streq colorName "yellow" then (yellow_palette, [])
  else if streq colorName "weiss" || streq colorName "white" then (white_palette, [])
  else
    (green_palette,
     if negb (streq colorName "gruen") && negb (streq colorName "green")
     then [unknown_color_warning colorName]
     else []).

(** The colours of the program, with the names [setColorPalette] compares
    against.  The help text lists the English names; the default
    [colorName] is the German [gruen]. *)
Inductive color : Type := Red | Blue | Cyan | Magenta | Yellow | White | Green.


Definition english_name (c : color) : string :=
  match c with
  | Red => "red" | Blue => "blue" | Cyan => "cyan" | Magenta => "magenta"
  | Yellow => "yellow" | White => "white" | Green => "green"
  end.

(** Cyan and Magenta are spelled alike in both languages. *)
Definition german_name (c : color) : string :=
  match c with
  | Red => "rot" | Blue => "blau" | Cyan => "cyan" | Magenta => "magenta"
  | Yellow => "gelb" | White => "weiss" | Green => "gruen"
  end.

Definition recognized (name : string) : Prop :=
  exists c, name = english_name c \/ name = german_name c.







(** ** The two buffers of a frame *)

Definition CELLS : nat := 1760.

(** [float z[1760]; char b[1760];] *)
Record frame : Type := Frame { z : list spec_float; b : list ascii }.

(** [memset(b, 32, 1760); memset(z, 0, sizeof(z));] *)
Definition clear : frame :=
  Frame (replicate CELLS fzero) (replicate CELLS SPACE).

(** [l[o]] as a read, for an [int] index. *)
Definition load {T} (l : list T) (o : Z) : result T :=
  if o <? 0 then Fault BufIndex
  else match l !! Z.to_nat o with
       | Some v => Ok v
       | None => Fault BufIndex
       end.

(** [l[o] = v] *)
Definition store {T} (l : list T) (o : Z) (v : T) : result (list T) :=
  if (0 <=? o) && (o <? Z.of_nat (length l)) then Ok (<[Z.to_nat o := v]> l)
  else Fault BufIndex.

(** A string literal indexed as an array: the characters, then the
    terminating NUL, then nothing. *)
Definition literal_at (s : string) (k : Z) : result ascii :=
  if k <? 0 then Fault RampIndex
  else match String.get (Z.to_nat k) s with
       | Some c => Ok c
       | None => if k =? Z.of_nat (String.length s) then Ok NUL else Fault RampIndex
       end.

Definition ramp : string := ".,-~:;=!*#$@".

(** The index expression [N > 0 ? N : 0]. *)
Definition ramp_index (N : Z) : Z := if N >? 0 then N else 0.

(** [".,-~:;=!*#$@"[N > 0 ? N : 0]] *)
Definition glyph (N : Z) : result ascii := literal_at ramp (ramp_index N).

(** ** One surface sample *)

(** The values the loop body computes for one pair [(i, j)]: the screen
    coordinates, the inverse depth and the luminance. *)
Record sample : Type := Sample { s_x : Z; s_y : Z; s_D : spec_float; s_N : Z }.

(** [o = x + 80 * y] *)
Definition offset (x y : Z) : Z := wrap_int (x + wrap_int (80 * y)).

(** [22 > y && y > 0 && x > 0 && 80 > x] *)
Definition on_screen (x y : Z) : bool :=
  (22 >? y) && (y >? 0) && (x >? 0) && (80 >? x).

(** The depth test and the drawing (the [if] that ends the loop body). *)
Definition plot (s : sample) (st : frame) : result frame :=
  let o := offset (s_x s) (s_y s) in
  if on_screen (s_x s) (s_y s) then
    try zo <- load (z st) o;
    if fgt (s_D s) zo then
      try z' <- store (z st) o (s_D s);
      try ch <- glyph (s_N s);
      try b' <- store (b st) o ch;
      Ok (Frame z' b')
    else Ok st
  else Ok st.

(** A left fold that stops at the first fault. *)
Fixpoint foldM {T S} (f : T -> S -> result S) (l : list T) (st : S) : result S :=
  match l with
  | [] => Ok st
  | t :: r => try st' <- f t st; foldM f r st'
  end.

(** The results of [f] along a list, up to the first fault. *)
Fixpoint collect {T U} (f : T -> result U) (l : list T) : result (list U) :=
  match l with
  | [] => Ok []
  | t :: r => try u <- f t; try us <- collect f r; Ok (u :: us)
  end.

(** The samples of a list drawn in order. *)
Definition run (ss : list sample) (st : frame) : result frame := foldM plot ss st.

(** ** Loops over a [float] variable *)

(** [v += step] for a [float] [v] and a [double] constant [step]. *)
Definition incr (step v : spec_float) : spec_float :=
  F32.of_double (F64.add (F64.of_float v) step).

(** The values [v] takes in [for (v = v0; limit > v; v += step)], for at
    most [fuel] iterations. *)
Fixpoint loop_values (fuel : nat) (limit step v : spec_float) : list spec_float :=
  match fuel with
  | O => []
  | S k =>
      if fgt limit (F64.of_float v) then v :: loop_values k limit step (incr step v)
      else []
  end.

Definition LOOP_FUEL : nat := 1000.

(** [for (j = 0; 6.28 > j; j += 0.07)] *)
Definition j_values : list spec_float :=
  loop_values LOOP_FUEL (F64.literal 628 2) (F64.literal 7 2) fzero.

(** [for (i = 0; 6.28 > i; i += 0.02)] *)
Definition i_values : list spec_float :=
  loop_values LOOP_FUEL (F64.literal 628 2) (F64.literal 2 2) fzero.

(** ** Frame emission *)

Definition low_glyphs : string := ".,-".
Definition medium_glyphs : string := "~:;=".
Definition high_glyphs : string := "!*#$@".

(** The [color_code] chosen for a character. *)
Definition tier (colorPalette : palette) (ch : ascii) : string :=
  if strchr low_glyphs ch then pal0 colorPalette
  else if strchr medium_glyphs ch then pal1 colorPalette
  else if strchr high_glyphs ch then pal2 colorPalette
  else "".

(** [printf("%s%c\x1b[0m", color_code, ch)] *)
Definition colorized (colorPalette : palette) (ch : ascii) : string :=
  (tier colorPalette ch ++ String ch (esc "[0m"))%string.

(** What the emission loop prints at position [k]. *)
Definition emit_position (colorPalette : palette) (b : list ascii) (k : Z)
  : result string :=
  if k mod 80 =? 0 then Ok (String LF "")
  else
    try ch <- (if k <? 1760 then load b k else Ok SPACE);
    Ok (colorized colorPalette ch).

(** [for (int k = 0; 1761 > k; k++)] *)
Definition positions : list Z := seqZ 0 1761.

Fixpoint emit_all (colorPalette : palette) (b : list ascii) (ks : list Z)
  : result (list string) :=
  match ks with
  | [] => Ok []
  | k :: r =>
      try s <- emit_position colorPalette b k;
      try rest <- emit_all colorPalette b r;
      Ok (s :: rest)
  end.

(** Everything written to [stdout] for one frame, one string per [printf]
    or [putchar]. *)
Definition emit_frame (colorPalette : palette) (b : list ascii) : result (list string) :=
  try cells <- emit_all colorPalette b positions;
  Ok (esc "[H" :: cells).

(** ** The program over its C library *)

Section Donut.

(** [sin] and [cos] of [math.h], on [double]. *)
Variables sin cos : spec_float -> spec_float.

(** [strtof]: the value, and the text [endptr] is left pointing at. *)
Variable strtof : string -> spec_float * string.

(** The two [errno] values of [errno.h] the input poll tolerates. *)
Variables EAGAIN EWOULDBLOCK : Z.

(** [float c = sin(v)] for a [float] [v]. *)
Definition fsin (v : spec_float) : spec_float := F32.of_double (sin (F64.of_float v)).
Definition fcos (v : spec_float) : spec_float := F32.of_double (cos (F64.of_float v)).

(** The perspective denominator [c * h * e + f * g + 5]. *)
Definition denominator (c h e f g : spec_float) : spec_float :=
  (c * h * e + f * g + #5)%f32.

(** The declarations at the head of the loop body, up to [N]. *)
Definition project (A B i j : spec_float) : result sample :=
  let c := fsin i in
  let d := fcos j in
  let e := fsin A in
  let f := fsin j in
  let g := fcos A in
  let h := (d + #2)%f32 in
  let D := (#1 / denominator c h e f g)%f32 in
  let l := fcos i in
  let m := fcos B in
  let n := fsin B in
  let t := (c * h * g - f * e)%f32 in
  try x <- to_int (#40 + #30 * D * (l * h * m - t * n))%f32;
  try y <- to_int (#12 + #15 * D * (l * h * n + t * m))%f32;
  try N <- to_int (#8 * ((f * e - c * d * g) * m - c * d * e - f * g - l * d * n))%f32;
  Ok (Sample x y D N).

(** The loop body for one [(i, j)]. *)
Definition body (A B j i : spec_float) (st : frame) : result frame :=
  try s <- project A B i j;
  plot s st.

(** One frame: both buffers cleared, then the two nested loops. *)
Definition render (A B : spec_float) : result frame :=
  foldM (fun j st => foldM (body A B j) i_values st) j_values clear.

(** The [(j, i)] pairs in the order the loops visit them. *)
Definition grid : list (spec_float * spec_float) :=
  j ← j_values; (fun i => (j, i)) <$> i_values.

(** The samples of a frame in that order, when every conversion to [int]
    is defined. *)
Definition samples (A B : spec_float) : result (list sample) :=
  collect (fun ji => project A B (snd ji) (fst ji)) grid.

(** ** Command line *)

Definition deref (s : string) : ascii :=
  match s with
  | EmptyString => NUL
  | String c _ => c
  end.

Definition help_text (argv0 : string) : list string :=
  [ ("Usage: " ++ argv0 ++ " [color] [speed]" ++ String LF "")%string;
    ("Press 'q' or ESC to quit." ++ String LF (String LF ""))%string;
    ("Arguments:" ++ String LF "")%string;
    ("  color          Color name (optional, default: green)." ++ String LF "")%string;
    ("                 Available: green, red, blue, cyan, magenta, yellow, white"
     ++ String LF "")%string;
    ("  speed          Positive speed factor (optional, default: 1.0)." ++ String LF "")%string;
    ("                 > 1.0: faster, < 1.0: slower." ++ String LF "")%string ].

Definition speed_warning (arg : string) : string :=
  ("Warning: Invalid speed factor '" ++ arg
   ++ "'. Must be a positive number. Using default 1.0." ++ String LF "")%string.

Definition arity_warning (argv0 : string) : string :=
  ("Warning: Too many arguments. Use '" ++ argv0 ++ " --help' for help."
   ++ String LF "")%string.

(** The block under [if (argc > 2)]: the speed factor kept and the
    warning printed. *)
Definition parse_speed (arg : string) : spec_float * list string :=
  let '(speedFactor, endptr) := strtof arg in
  if negb (Ascii.eqb (deref endptr) NUL) || fle speedFactor (#0)%f32
  then ((#1)%f32, [speed_warning arg])
  else (speedFactor, []).

Record settings : Type :=
  Settings { colorName : string; speedFactor : spec_float }.

Inductive startup : Type :=
  | ShowHelp (out : list string)
  | Configured (cfg : settings) (warnings : list string).

Definition arg (argv : list string) (k : nat) : string := default "" (argv !! k).

(** [main] up to the call of [setColorPalette]. *)
Definition parse_args (argv : list string) : startup :=
  let argc := length argv in
  if (1 <? argc)%nat && (streq (arg argv 1) "-h" || streq (arg argv 1) "--help")
  then ShowHelp (help_text (arg argv 0))
  else
    let colorName := if (1 <? argc)%nat then arg argv 1 else "gruen" in
    let '(speedFactor, w2) :=
      if (2 <? argc)%nat then parse_speed (arg argv 2) else ((#1)%f32, []) in
    let w3 := if (3 <? argc)%nat then [arity_warning (arg argv 0)] else [] in
    Configured (Settings colorName speedFactor) (w2 ++ w3)%list.

(** ** The frame driver *)

Definition baseSleep : Z := 33333.

(** [baseSleep / speedFactor], a [float] division. *)
Definition sleep_quotient (speedFactor : spec_float) : spec_float :=
  (#baseSleep / speedFactor)%f32.

(** The argument of [usleep]. *)
Definition sleep_us (speedFactor : spec_float) : result Z :=
  to_useconds (sleep_quotient speedFactor).

(** [A += 0.04; B += 0.02;] *)
Definition next_A (A : spec_float) : spec_float := incr (F64.literal 4 2) A.
Definition next_B (B : spec_float) : spec_float := incr (F64.literal 2 2) B.

(** What one call [read(STDIN_FILENO, &input_char, 1)] returns. *)
Inductive read_result : Type :=
  | ReadByte (input_char : ascii)   (* 1 *)
  | ReadNone                        (* 0 *)
  | ReadError (errno : Z).          (* -1 *)

Inductive verdict : Type := Proceed | QuitKey | QuitError.

(** The input check at the head of the loop. *)
Definition poll (r : read_result) : verdict :=
  match r with
  | ReadByte input_char =>
      if Ascii.eqb input_char "q" || Ascii.eqb input_char "Q" || Ascii.eqb input_char ESC
      then QuitKey else Proceed
  | ReadNone => Proceed
  | ReadError errno =>
      if negb (errno =? EAGAIN) && negb (errno =? EWOULDBLOCK) then QuitError else Proceed
  end.

(** What the process does to the outside. *)
Inductive event : Type :=
  | Stdout (s : list string)
  | Stderr (s : list string)
  | Perror (s : string)
  | Usleep (us : Z)
  | RestoreTerminal.

Inductive outcome : Type :=
  | Exit (status : Z) (trace : list event)
  | Undefined (f : fault) (trace : list event)
  | Running (A B : spec_float) (trace : list event).

(** [disableRawMode], run at exit once registered. *)
Definition disableRawMode : list event := [RestoreTerminal; Stdout [esc "[?25h"]].

(** The part of an iteration after the input check: what it does to the
    outside, and the angles of the next iteration. *)
Definition advance (cfg : settings) (colorPalette : palette) (A B : spec_float)
  : list event * result (spec_float * spec_float) :=
  match render A B with
  | Fault f => ([], Fault f)
  | Ok fr =>
      match emit_frame colorPalette (b fr) with
      | Fault f => ([], Fault f)
      | Ok out =>
          let A' := next_A A in
          let B' := next_B B in
          match sleep_us (speedFactor cfg) with
          | Fault f => ([Stdout out], Fault f)
          | Ok us => ([Stdout out; Usleep us], Ok (A', B'))
          end
      end
  end.

(** [while (!quit)] over the results of the successive [read] calls,
    followed by [return 0] and the exit handler. *)
Fixpoint main_loop (cfg : settings) (colorPalette : palette)
    (reads : list read_result) (A B : spec_float) (trace : list event) : outcome :=
  match reads with
  | [] => Running A B trace
  | r :: reads' =>
      match poll r with
      | QuitKey => Exit 0 (trace ++ disableRawMode)
      | QuitError => Exit 0 (trace ++ Perror "read stdin failed" :: disableRawMode)
      | Proceed =>
          match advance cfg colorPalette A B with
          | (evs, Fault f) => Undefined f (trace ++ evs)
          | (evs, Ok (A', B')) => main_loop cfg colorPalette reads' A' B' (trace ++ evs)
          end
      end
  end.

(** The results of [tcgetattr] and [tcsetattr] in [enableRawMode]. *)
Record terminal : Type := Terminal { tcgetattr_ok : bool; tcsetattr_ok : bool }.

(** [enableRawMode]: either the process exits with the given status, or
    the terminal is in raw mode and the cursor hidden. *)
Definition enableRawMode (t : terminal) : list event * option Z :=
  if negb (tcgetattr_ok t) then ([Perror "tcgetattr failed"], Some 1)
  else if negb (tcsetattr_ok t) then (Perror "tcsetattr failed" :: disableRawMode, Some 1)
  else ([Stdout [esc "[?25l"]], None).

Definition main (argv : list string) (t : terminal) (reads : list read_result) : outcome :=
  match parse_args argv with
  | ShowHelp out => Exit 0 [Stdout out]
  | Configured cfg warnings =>
      let '(colorPalette, w) := setColorPalette (colorName cfg) in
      let trace0 := [Stderr (warnings ++ w)] in
      match enableRawMode t with
      | (evs, Some status) => Exit status (trace0 ++ evs)
      | (evs, None) =>
          main_loop cfg colorPalette reads fzero fzero
            (trace0 ++ evs ++ [Stdout [esc "[2J"]])
      end
  end.

End Donut.

(** ** Vocabulary of the properties *)

(** Both buffers have their 1760 cells. *)
Definition well_sized (st : frame) : Prop :=
  length (z st) = CELLS /\ length (b st) = CELLS.

(** The twelve glyphs of the ramp. *)
Definition ramp_glyphs : list ascii := list_ascii_of_string ramp.

(** What the emission loop prints at position [k] of a full buffer. *)
Definition shown (colorPalette : palette) (b : list ascii) (k : Z) : string :=
  if k mod 80 =? 0 then String LF ""
  else colorized colorPalette (default SPACE (b !! Z.to_nat k)).

(** The positions at which the loop prints a line break. *)
Definition break_positions : list Z := filter (fun k => k mod 80 = 0) positions.

(** [v > 0] *)
Definition above_zero (v : spec_float) : Prop := fgt v fzero = true.

(** The cell a sample is drawn into, and whether it is drawn into cell [o]
    at all. *)
Definition cell_of (s : sample) : nat := Z.to_nat (offset (s_x s) (s_y s)).

Definition lands (o : nat) (s : sample) : bool :=
  on_screen (s_x s) (s_y s) && Nat.eqb (cell_of s) o.

(** The luminance selects a character of the literal. *)
Definition drawable (s : sample) : Prop := s_N s <= 12.

Definition glyph_of (s : sample) : ascii :=
  match glyph (s_N s) with
  | Ok ch => ch
  | Fault _ => NUL
  end.

(** [s] is a sample of [ss] that lands in cell [o] with a positive inverse
    depth that no sample landing there exceeds. *)
Definition nearest (ss : list sample) (o : nat) (s : sample) : Prop :=
  s ∈ ss /\ lands o s = true /\ above_zero (s_D s) /\
  forall s', s' ∈ ss -> lands o s' = true -> fgt (s_D s') (s_D s) = false.

(** The content of cell [o] after the samples [ss]: untouched when no
    sample with a positive inverse depth lands there, otherwise depth and
    glyph of a nearest sample. *)
Definition cell_spec (ss : list sample) (o : nat) (d : spec_float) (g : ascii) : Prop :=
  (d = fzero /\ g = SPACE /\
   forall s, s ∈ ss -> lands o s = true -> fgt (s_D s) fzero = false) \/
  (exists s, nearest ss o s /\ d = s_D s /\ g = glyph_of s).


(** The depth test on one cell. *)
Definition cell_step (s : sample) (c : spec_float * ascii) : spec_float * ascii :=
  if fgt (s_D s) (fst c) then (s_D s, glyph_of s) else c.

Definition cell_fold (o : nat) (ss : list sample) (c : spec_float * ascii)
  : spec_float * ascii :=
  fold_left (fun c s => if lands o s then cell_step s c else c) ss c.

(** ** Vocabulary of the floating-point properties *)

Definition F2R (m e : Z) : R := (IZR m * powerRZ 2 e)%R.

Definition B2R (x : spec_float) : R :=
  match x with
  | S754_finite s m e => F2R (cond_Zopp s (Zpos m)) e
  | _ => 0%R
  end.

Definition is_finite (x : spec_float) : bool :=
  match x with
  | S754_zero _ | S754_finite _ _ _ => true
  | _ => false
  end.

(** A finite value that is valid in the format. *)
Definition finite_in (prec emax : Z) (x : spec_float) : Prop :=
  valid_binary prec emax x = true /\ is_finite x = true.

(** A real that some finite value of the format has. *)
Definition representable (prec emax : Z) (r : R) : Prop :=
  exists f, finite_in prec emax f /\ B2R f = r.

(** The relation a comparison result asserts. *)
Definition cmp_spec (c : comparison) (a b : R) : Prop :=
  match c with
  | Lt => (a < b)%R
  | Eq => a = b
  | Gt => (b < a)%R
  end.

(** [y] is [x] shifted right by [n] bits: the mantissa is divided, and an
    exact shift of an exact value is exact. *)
Definition shr_inv (n : Z) (x y : shr_record) : Prop :=
  shr_m y = shr_m x / 2 ^ n /\
  (shr_r x = false -> shr_s x = false -> shr_m x mod 2 ^ n = 0 ->
   shr_r y = false /\ shr_s y = false).

(** [v] is an ordinary [float]: a valid binary32 value that is neither a
    NaN nor an infinity. *)
Definition finite32 (v : spec_float) : bool := F32.valid v && is_finite v.

(** [x] is a finite [float] with [lo <= x <= hi]. *)
Definition within (lo hi x : spec_float) : bool :=
  F32.valid x && is_finite x && fle lo x && fle x hi.

(** The same in terms of values. *)
Definition in_range (lo hi : R) (x : spec_float) : Prop :=
  finite_in F32.prec F32.emax x /\ (lo <= B2R x <= hi)%R.

(** The spacing of the [float]s used to bracket values below 16 in
    magnitude: [2^-20]. *)
Definition eta : R := (/ 1048576)%R.

(** The sine and the cosine the C library returns for one angle are the
    coordinates of a point that is at most [1 + 1/1024] from the origin,
    squared. *)
Definition near_unit_circle (s c : spec_float) : Prop :=
  (B2R s * B2R s + B2R c * B2R c <= 1 + / 1024)%R.

(** ** Raw mode

    The settings [enableRawMode] derives from the ones it has read. *)

(** [struct termios]: the four flag words ([tcflag_t], an unsigned 32-bit
    integer) and the control characters. *)
Record termios : Type :=
  Termios { c_iflag : Z; c_oflag : Z; c_cflag : Z; c_lflag : Z; c_cc : list Z }.

(** The conversion of an [int] to [tcflag_t]. *)
Definition to_tcflag (v : Z) : Z := v mod 2 ^ 32.

(** [flags &= ~(mask)] for a [tcflag_t] [flags] and an [int] [mask]. *)
Definition clear_flags (flags mask : Z) : Z := Z.land flags (to_tcflag (Z.lnot mask)).

(** [cc[k] = v]; nothing when [k] is outside the array. *)
Definition set_cc (cc : list Z) (k : nat) (v : Z) : option (list Z) :=
  if (k <? length cc)%nat then Some (<[k := v]> cc) else None.

Section RawMode.

(** The masks and the indices of [termios.h]. *)
Variables ECHO ICANON ISIG IXON : Z.
Variables VMIN VTIME : nat.

(** The local [raw] of [enableRawMode] as handed to [tcsetattr]. *)
Definition raw (orig_termios : termios) : option termios :=
  let lflag := clear_flags (c_lflag orig_termios) (Z.lor (Z.lor ECHO ICANON) ISIG) in
  let iflag := clear_flags (c_iflag orig_termios) IXON in
  cc1 ← set_cc (c_cc orig_termios) VMIN 0;
  cc2 ← set_cc cc1 VTIME 0;
  Some (Termios iflag (c_oflag orig_termios) (c_cflag orig_termios) lflag cc2).

End RawMode.

(** A [tcflag_t] value. *)
Definition is_tcflag (v : Z) : Prop := 0 <= v < 2 ^ 32.

(** ** Vocabulary of the run *)

(** A read that lets the loop go on. *)
Definition proceeds (EAGAIN EWOULDBLOCK : Z) (r : read_result) : Prop :=
  poll EAGAIN EWOULDBLOCK r = Proceed.

(** What [n] frames with output [outs] and a sleep of [us] microseconds
    each add to the trace. *)
Definition frames_trace (outs : list (list string)) (us : Z) : list event :=
  outs ≫= (fun out => [Stdout out; Usleep us]).

(** The colour tier of the glyph at index [k] of the ramp. *)
Definition tier_of_index (colorPalette : palette) (k : nat) : string :=
  if (k <? 3)%nat then pal0 colorPalette
  else if (k <? 7)%nat then pal1 colorPalette
  else pal2 colorPalette.

(** Every value of the list is greater than the one before it. *)
Fixpoint ascending (l : list spec_float) : bool :=
  match l with
  | v :: (w :: _) as r => fgt w v && ascending r
  | _ => true
  end.

(** A value the loop [for (v = 0; 6.28 > v; v += step)] can take. *)
Definition loop_value (v : spec_float) : bool :=
  finite32 v && fle fzero v && fgt (F64.literal 628 2) (F64.of_float v).

(** * Properties *)

(** ** Screen guard and buffer bounds *)

Lemma on_screen_spec x y :
  on_screen x y = true <-> (0 < x < 80 /\ 0 < y < 22).
Proof. unfold on_screen. rewrite !andb_true_iff, !Z.gtb_lt. lia. Qed.

Lemma wrap_int_small v : in_int v -> wrap_int v = v.
Proof.
  unfold in_int, INT_MIN, INT_MAX, wrap_int. intros H.
  rewrite Z.mod_small; lia.
Qed.

Lemma offset_on_screen x y :
  on_screen x y = true -> offset x y = x + 80 * y /\ 81 <= offset x y <= 1759.
Proof.
  intros H%on_screen_spec. unfold offset.
  rewrite (wrap_int_small (80 * y)) by (unfold in_int, INT_MIN, INT_MAX; lia).
  rewrite wrap_int_small by (unfold in_int, INT_MIN, INT_MAX; lia). lia.
Qed.

Lemma load_in_range {T} (l : list T) o :
  0 <= o < Z.of_nat (length l) -> exists v, load l o = Ok v /\ l !! Z.to_nat o = Some v.
Proof.
  intros H. unfold load.
  destruct (Z.ltb_spec o 0); [lia|].
  destruct (lookup_lt_is_Some_2 l (Z.to_nat o)) as [v Hv]; [lia|].
  rewrite Hv. eauto.
Qed.

Lemma store_in_range {T} (l : list T) o v :
  0 <= o < Z.of_nat (length l) -> store l o v = Ok (<[Z.to_nat o := v]> l).
Proof.
  intros H. unfold store.
  destruct (Z.leb_spec 0 o); [|lia]. destruct (Z.ltb_spec o (Z.of_nat (length l))); [|lia].
  reflexivity.
Qed.

Lemma plot_off_screen s st : on_screen (s_x s) (s_y s) = false -> plot s st = Ok st.
Proof. unfold plot. intros ->. reflexivity. Qed.

(** C2: a sample is drawn only under the guard [0 < x < 80], [0 < y < 22];
    any other sample leaves both buffers as they are; under the guard the
    offset [o = x + 80 * y] is within [0, 1760), so no access to [z] or [b]
    is out of bounds. *)
Theorem C2_guard_keeps_offset_in_bounds (s : sample) (st : frame) :
  well_sized st ->
  (on_screen (s_x s) (s_y s) = true <-> 0 < s_x s < 80 /\ 0 < s_y s < 22) /\
  (on_screen (s_x s) (s_y s) = false -> plot s st = Ok st) /\
  (on_screen (s_x s) (s_y s) = true ->
     offset (s_x s) (s_y s) = s_x s + 80 * s_y s /\
     0 <= offset (s_x s) (s_y s) < 1760) /\
  plot s st <> Fault BufIndex /\
  (forall st', plot s st = Ok st' ->
     well_sized st' /\ (st' <> st -> 0 < s_x s < 80 /\ 0 < s_y s < 22)).
Proof.
  intros [Hz Hb]. split; [apply on_screen_spec|]. split; [apply plot_off_screen|].
  split; [intros H; destruct (offset_on_screen _ _ H); lia|].
  unfold plot.
  destruct (on_screen (s_x s) (s_y s)) eqn:Hon.
  - destruct (offset_on_screen _ _ Hon) as [_ Ho].
    destruct (load_in_range (z st) (offset (s_x s) (s_y s))) as (zo & -> & _);
      [rewrite Hz; unfold CELLS; lia|]. cbn [rbind].
    destruct (fgt (s_D s) zo).
    + rewrite !store_in_range by (rewrite ?Hz, ?Hb; unfold CELLS; lia). cbn [rbind].
      destruct (glyph (s_N s)) as [ch|f] eqn:Hg; cbn [rbind].
      * rewrite store_in_range by (rewrite ?Hz, ?Hb; unfold CELLS; lia). cbn [rbind].
        split; [discriminate|]. intros st' [= <-]. split.
        -- split; cbn; rewrite length_insert; assumption.
        -- intros _. apply on_screen_spec, Hon.
      * unfold glyph, literal_at in Hg.
        split; [|discriminate].
        destruct (ramp_index (s_N s) <? 0); [congruence|].
        destruct (String.get _ _); [congruence|].
        destruct (_ =? _); congruence.
    + split; [discriminate|]. intros st' [= <-]. split; [split; assumption|congruence].
  - split; [discriminate|]. intros st' [= <-]. split; [split; assumption|congruence].
Qed.

(** ** The order of [float] comparisons *)

Lemma SFltb_irrefl x : SFltb x x = false.
Proof.
  unfold SFltb, SFcompare. destruct x as [[]|[]| |[] m e]; try reflexivity;
    rewrite Z.compare_refl, Pos.compare_cont_refl; reflexivity.
Qed.

Ltac compare_cases :=
  repeat match goal with
    | H : context [Z.compare ?a ?b] |- _ => destruct (Z.compare_spec a b)
    | |- context [Z.compare ?a ?b] => destruct (Z.compare_spec a b)
    | H : context [Pos.compare_cont Eq ?a ?b] |- _ =>
        change (Pos.compare_cont Eq a b) with (Pos.compare a b) in H
    | |- context [Pos.compare_cont Eq ?a ?b] =>
        change (Pos.compare_cont Eq a b) with (Pos.compare a b)
    | H : context [Pos.compare ?a ?b] |- _ => destruct (Pos.compare_spec a b)
    | |- context [Pos.compare ?a ?b] => destruct (Pos.compare_spec a b)
    end.

Lemma SFltb_trans x y w : SFltb x y = true -> SFltb y w = true -> SFltb x w = true.
Proof.
  unfold SFltb, SFcompare.
  destruct x as [[]|[]| |[] m1 e1], y as [[]|[]| |[] m2 e2], w as [[]|[]| |[] m3 e3];
    try reflexivity; try discriminate; cbn; intros; compare_cases;
    subst; cbn in *; try reflexivity; try discriminate; lia.
Qed.

Lemma SFltb_asym x y : SFltb x y = true -> SFltb y x = false.
Proof.
  intros H. destruct (SFltb y x) eqn:E; [|reflexivity].
  pose proof (SFltb_trans _ _ _ H E) as T. rewrite SFltb_irrefl in T. discriminate.
Qed.


(** ** Floating-point values as reals *)







Lemma digits2_pos_bounds m :
  2 ^ (Zpos (digits2_pos m) - 1) <= Zpos m < 2 ^ Zpos (digits2_pos m).
Proof.
  induction m as [m IH|m IH|]; cbn [digits2_pos].
  - rewrite Pos2Z.inj_succ. replace (Z.succ (Zpos (digits2_pos m)) - 1) with (Z.succ (Zpos (digits2_pos m) - 1)) by lia.
    rewrite !Z.pow_succ_r by lia. lia.
  - rewrite Pos2Z.inj_succ. replace (Z.succ (Zpos (digits2_pos m)) - 1) with (Z.succ (Zpos (digits2_pos m) - 1)) by lia.
    rewrite !Z.pow_succ_r by lia. lia.
  - cbn. lia.
Qed.

Lemma Zdigits2_bounds m : 0 < m -> 2 ^ (Zdigits2 m - 1) <= m < 2 ^ Zdigits2 m.
Proof. destruct m; try lia. intros _. apply digits2_pos_bounds. Qed.

Lemma Zdigits2_pos m : 0 < m -> 0 < Zdigits2 m.
Proof. destruct m; cbn; lia. Qed.

Lemma Zdigits2_unique m d : 2 ^ (d - 1) <= m < 2 ^ d -> 0 < d -> Zdigits2 m = d.
Proof.
  intros [H1 H2] Hd.
  assert (0 < m) by (pose proof (Z.pow_pos_nonneg 2 (d - 1)); lia).
  pose proof (Zdigits2_bounds m H) as [H3 H4]. pose proof (Zdigits2_pos m H).
  assert (Zdigits2 m - 1 < d) by (apply (Z.pow_lt_mono_r_iff 2); lia).
  assert (d - 1 < Zdigits2 m) by (apply (Z.pow_lt_mono_r_iff 2); lia).
  lia.
Qed.

Lemma IZR_pow2 k : 0 <= k -> IZR (2 ^ k) = powerRZ 2 k.
Proof.
  intros H. rewrite <- (Z2Nat.id k H). rewrite <- pow_IZR, <- pow_powerRZ. reflexivity.
Qed.

Lemma powerRZ_2_pos e : (0 < powerRZ 2 e)%R.
Proof. apply powerRZ_lt. lra. Qed.

Lemma F2R_shift m e k : k <= e -> F2R m e = F2R (m * 2 ^ (e - k)) k.
Proof.
  intros H. unfold F2R. rewrite mult_IZR, IZR_pow2 by lia.
  rewrite Rmult_assoc, <- powerRZ_add by lra. f_equal. f_equal. lia.
Qed.

Lemma F2R_le_iff m1 e1 m2 e2 k : k <= e1 -> k <= e2 ->
  (F2R m1 e1 <= F2R m2 e2)%R <-> m1 * 2 ^ (e1 - k) <= m2 * 2 ^ (e2 - k).
Proof.
  intros H1 H2. rewrite (F2R_shift m1 e1 k H1), (F2R_shift m2 e2 k H2). unfold F2R.
  pose proof (powerRZ_2_pos k). split.
  - intros H0. apply le_IZR. nra.
  - intros H0. apply IZR_le in H0. nra.
Qed.

Lemma F2R_lt_iff m1 e1 m2 e2 k : k <= e1 -> k <= e2 ->
  (F2R m1 e1 < F2R m2 e2)%R <-> m1 * 2 ^ (e1 - k) < m2 * 2 ^ (e2 - k).
Proof.
  intros H1 H2. rewrite (F2R_shift m1 e1 k H1), (F2R_shift m2 e2 k H2). unfold F2R.
  pose proof (powerRZ_2_pos k). split.
  - intros H0. apply lt_IZR. nra.
  - intros H0. apply IZR_lt in H0. nra.
Qed.

Lemma powerRZ_2_le a c : a <= c -> (powerRZ 2 a <= powerRZ 2 c)%R.
Proof.
  intros H. replace c with (a + (c - a)) by lia. rewrite powerRZ_add by lra.
  rewrite <- (IZR_pow2 (c - a)) by lia.
  assert (1 <= 2 ^ (c - a)) by (pose proof (Z.pow_pos_nonneg 2 (c - a)); lia).
  apply IZR_le in H0. pose proof (powerRZ_2_pos a). nra.
Qed.

Lemma powerRZ_2_lt_inv a c : (powerRZ 2 a < powerRZ 2 c)%R -> a < c.
Proof.
  intros H. destruct (Z.lt_ge_cases a c) as [|Hge]; [assumption|].
  apply powerRZ_2_le in Hge. lra.
Qed.

Lemma F2R_pos m e : 0 < m -> (0 < F2R m e)%R.
Proof.
  intros H. unfold F2R. apply Rmult_lt_0_compat; [apply IZR_lt; lia|apply powerRZ_2_pos].
Qed.

Lemma F2R_0 e : F2R 0 e = 0%R.
Proof. unfold F2R. lra. Qed.

Lemma F2R_opp m e : F2R (- m) e = (- F2R m e)%R.
Proof. unfold F2R. rewrite opp_IZR. lra. Qed.

Lemma F2R_le_mono m1 m2 e : m1 <= m2 -> (F2R m1 e <= F2R m2 e)%R.
Proof.
  intros H. unfold F2R. apply Rmult_le_compat_r; [left; apply powerRZ_2_pos|apply IZR_le, H].
Qed.

Lemma F2R_lt_mono m1 m2 e : m1 < m2 -> (F2R m1 e < F2R m2 e)%R.
Proof.
  intros H. unfold F2R. apply Rmult_lt_compat_r; [apply powerRZ_2_pos|apply IZR_lt, H].
Qed.

Lemma F2R_lt_inv m1 m2 e : (F2R m1 e < F2R m2 e)%R -> m1 < m2.
Proof.
  intros H. destruct (Z.lt_ge_cases m1 m2) as [|Hge]; [assumption|].
  apply (F2R_le_mono _ _ e) in Hge. lra.
Qed.

Lemma F2R_le_inv m1 m2 e : (F2R m1 e <= F2R m2 e)%R -> m1 <= m2.
Proof.
  intros H. destruct (Z.le_gt_cases m1 m2) as [|Hgt]; [assumption|].
  apply (F2R_lt_mono _ _ e) in Hgt. lra.
Qed.

Lemma F2R_pow2 k e : 0 <= k -> F2R (2 ^ k) e = powerRZ 2 (k + e).
Proof. intros H. unfold F2R. rewrite IZR_pow2, <- powerRZ_add by (lra || lia). reflexivity. Qed.

(** A positive mantissa of [d] digits lies between [2^(d-1)] and [2^d]. *)
Lemma F2R_digits m e :
  0 < m ->
  (powerRZ 2 (Zdigits2 m - 1 + e) <= F2R m e < powerRZ 2 (Zdigits2 m + e))%R.
Proof.
  intros H. pose proof (Zdigits2_bounds m H) as [H1 H2]. pose proof (Zdigits2_pos m H).
  rewrite <- !F2R_pow2 by lia. split; [apply F2R_le_mono|apply F2R_lt_mono]; assumption.
Qed.

Lemma F2R_magnitude m1 e1 m2 e2 :
  0 < m1 -> 0 < m2 -> (F2R m1 e1 <= F2R m2 e2)%R ->
  Zdigits2 m1 + e1 <= Zdigits2 m2 + e2.
Proof.
  intros H1 H2 H. pose proof (F2R_digits m1 e1 H1). pose proof (F2R_digits m2 e2 H2).
  assert (Zdigits2 m1 - 1 + e1 < Zdigits2 m2 + e2) by (apply powerRZ_2_lt_inv; lra).
  lia.
Qed.

Lemma Zdigits2_mono m1 m2 : 0 < m1 -> m1 <= m2 -> Zdigits2 m1 <= Zdigits2 m2.
Proof.
  intros H1 H2.
  pose proof (F2R_magnitude m1 0 m2 0 H1 ltac:(lia) (F2R_le_mono _ _ 0 H2)). lia.
Qed.

Lemma Zdigits2_div_pow2 m n :
  0 < m -> 0 <= n < Zdigits2 m -> Zdigits2 (m / 2 ^ n) = Zdigits2 m - n.
Proof.
  intros Hm Hn. pose proof (Zdigits2_bounds m Hm) as [H1 H2].
  assert (Hp : 0 < 2 ^ n) by (apply Z.pow_pos_nonneg; lia).
  apply Zdigits2_unique; [|lia]. split.
  - apply Z.div_le_lower_bound; [assumption|].
    rewrite <- Z.pow_add_r by lia. replace (n + (Zdigits2 m - n - 1)) with (Zdigits2 m - 1) by lia.
    assumption.
  - apply Z.div_lt_upper_bound; [assumption|].
    rewrite <- Z.pow_add_r by lia. replace (n + (Zdigits2 m - n)) with (Zdigits2 m) by lia.
    assumption.
Qed.

(** ** Right shifts *)


Lemma shr_inv_0 x : shr_inv 0 x x.
Proof. split; [rewrite Z.pow_0_r, Z.div_1_r; reflexivity|auto]. Qed.

Lemma shr_1_inv x : 0 <= shr_m x -> shr_inv 1 x (shr_1 x).
Proof.
  destruct x as [m r s]. cbn [shr_m shr_r shr_s]. intros Hm. unfold shr_inv.
  change (2 ^ 1) with 2.
  destruct m as [|[p|p|]|p]; cbn [shr_1 shr_m shr_r shr_s]; try lia.
  - split; [reflexivity|]. intros -> ->. auto.
  - split; [rewrite Pos2Z.inj_xI; apply Z.div_unique with 1; lia|].
    intros _ _ H. rewrite Pos2Z.inj_xI in H.
    rewrite Z.add_comm, Z.mul_comm, Z.mod_add in H by lia. discriminate H.
  - split; [rewrite Pos2Z.inj_xO; apply Z.div_unique with 0; lia|].
    intros -> ->. auto.
  - split; [reflexivity|]. intros _ _ H. discriminate H.
Qed.

Lemma shr_inv_trans a c x y w :
  0 <= a -> 0 <= c -> shr_inv a x y -> shr_inv c y w -> shr_inv (a + c) x w.
Proof.
  intros Ha Hc [H1 E1] [H2 E2].
  assert (Hpa : 0 < 2 ^ a) by (apply Z.pow_pos_nonneg; lia).
  assert (Hpc : 0 < 2 ^ c) by (apply Z.pow_pos_nonneg; lia).
  split.
  - rewrite H2, H1, Z.pow_add_r, Z.div_div by lia. reflexivity.
  - intros Hr Hs Hm. rewrite Z.pow_add_r in Hm by lia.
    apply Z.mod_divide in Hm; [|lia]. destruct Hm as [t Ht].
    destruct E1 as [Hr1 Hs1]; [assumption|assumption| |].
    + apply Z.mod_divide; [lia|]. exists (t * 2 ^ c). lia.
    + apply E2; [assumption|assumption|]. rewrite H1.
      apply Z.mod_divide; [lia|]. exists t.
      rewrite Ht. replace (t * (2 ^ a * 2 ^ c)) with (t * 2 ^ c * 2 ^ a) by lia.
      apply Z.div_mul. lia.
Qed.

Lemma shr_inv_nonneg n x y : 0 <= n -> 0 <= shr_m x -> shr_inv n x y -> 0 <= shr_m y.
Proof.
  intros Hn Hx [-> _]. apply Z.div_pos; [assumption|apply Z.pow_pos_nonneg; lia].
Qed.

Lemma iter_pos_shr_inv p :
  forall x, 0 <= shr_m x -> shr_inv (Zpos p) x (SpecFloat.iter_pos shr_1 p x).
Proof.
  induction p as [p IH|p IH|]; intros x Hx; cbn [SpecFloat.iter_pos].
  - pose proof (shr_1_inv x Hx) as H1.
    pose proof (shr_inv_nonneg 1 _ _ ltac:(lia) Hx H1) as Hx1.
    pose proof (IH _ Hx1) as H2.
    pose proof (shr_inv_nonneg (Zpos p) _ _ ltac:(lia) Hx1 H2) as Hx2.
    pose proof (IH _ Hx2) as H3.
    replace (Zpos p~1) with (1 + Zpos p + Zpos p) by lia.
    eapply shr_inv_trans; [lia|lia| |exact H3].
    eapply shr_inv_trans; [lia|lia|exact H1|exact H2].
  - pose proof (IH _ Hx) as H2.
    pose proof (shr_inv_nonneg (Zpos p) _ _ ltac:(lia) Hx H2) as Hx2.
    pose proof (IH _ Hx2) as H3.
    replace (Zpos p~0) with (Zpos p + Zpos p) by lia.
    eapply shr_inv_trans; [lia|lia|exact H2|exact H3].
  - apply shr_1_inv, Hx.
Qed.

Lemma shr_spec x e n :
  0 <= shr_m x ->
  exists y, shr x e n = (y, e + Z.max n 0) /\ shr_inv (Z.max n 0) x y.
Proof.
  intros Hx. destruct n as [|p|p]; cbn [shr].
  - exists x. rewrite Z.add_0_r. split; [reflexivity|apply shr_inv_0].
  - exists (SpecFloat.iter_pos shr_1 p x). replace (Z.max (Zpos p) 0) with (Zpos p) by lia.
    split; [reflexivity|apply iter_pos_shr_inv, Hx].
  - exists x. replace (Z.max (Zneg p) 0) with 0 by lia. rewrite Z.add_0_r.
    split; [reflexivity|apply shr_inv_0].
Qed.

Lemma shr_record_of_loc_m m l : shr_m (shr_record_of_loc m l) = m.
Proof. destruct l as [|[]]; reflexivity. Qed.

Lemma shr_record_of_loc_exact m :
  shr_r (shr_record_of_loc m loc_Exact) = false /\ shr_s (shr_record_of_loc m loc_Exact) = false.
Proof. split; reflexivity. Qed.

Lemma round_nearest_even_bounds q l :
  q <= round_nearest_even q l <= q + 1.
Proof. destruct l as [|[]]; cbn; try destruct (Z.even q); lia. Qed.

Lemma loc_of_shr_record_exact x :
  shr_r x = false -> shr_s x = false -> loc_of_shr_record x = loc_Exact.
Proof. destruct x as [m r s]. cbn. intros -> ->. reflexivity. Qed.

Lemma F2R_add m1 m2 e : F2R (m1 + m2) e = (F2R m1 e + F2R m2 e)%R.
Proof. unfold F2R. rewrite plus_IZR. lra. Qed.

Lemma F2R_mul m1 e1 m2 e2 : F2R (m1 * m2) (e1 + e2) = (F2R m1 e1 * F2R m2 e2)%R.
Proof. unfold F2R. rewrite mult_IZR, powerRZ_add by lra. lra. Qed.

Lemma F2R_cond_Zopp (s : bool) m e :
  F2R (cond_Zopp s m) e = (if s then - F2R m e else F2R m e)%R.
Proof. destruct s; cbn [cond_Zopp]; [apply F2R_opp|reflexivity]. Qed.

Lemma B2R_finite s m e : B2R (S754_finite s m e) = F2R (cond_Zopp s (Zpos m)) e.
Proof. reflexivity. Qed.

Lemma Zdigits2_mul_pow2 m k :
  0 < m -> 0 <= k -> Zdigits2 (m * 2 ^ k) = Zdigits2 m + k.
Proof.
  intros Hm Hk. pose proof (Zdigits2_bounds m Hm) as [H1 H2]. pose proof (Zdigits2_pos m Hm).
  assert (Hp : 0 < 2 ^ k) by (apply Z.pow_pos_nonneg; lia).
  apply Zdigits2_unique; [|lia]. split.
  - replace (Zdigits2 m + k - 1) with (Zdigits2 m - 1 + k) by lia.
    rewrite Z.pow_add_r by lia. apply Z.mul_le_mono_nonneg_r; lia.
  - rewrite Z.pow_add_r by lia. apply Z.mul_lt_mono_pos_r; lia.
Qed.

Lemma Zdigits2_mul m1 m2 :
  0 < m1 -> 0 < m2 -> Zdigits2 m1 + Zdigits2 m2 - 1 <= Zdigits2 (m1 * m2).
Proof.
  intros H1 H2.
  pose proof (F2R_digits m1 0 H1) as [A1 _]. pose proof (F2R_digits m2 0 H2) as [A2 _].
  pose proof (F2R_digits (m1 * m2) (0 + 0) ltac:(lia)) as [_ A3].
  rewrite F2R_mul in A3.
  pose proof (powerRZ_2_pos (Zdigits2 m1 - 1 + 0)). pose proof (powerRZ_2_pos (Zdigits2 m2 - 1 + 0)).
  assert (Hlt : (powerRZ 2 ((Zdigits2 m1 - 1 + 0) + (Zdigits2 m2 - 1 + 0))
                 < powerRZ 2 (Zdigits2 (m1 * m2) + (0 + 0)))%R).
  { rewrite powerRZ_add by lra. nra. }
  apply powerRZ_2_lt_inv in Hlt. lia.
Qed.

Lemma Pos_iter_xO m d : Zpos (Pos.iter xO m d) = Zpos m * 2 ^ Zpos d.
Proof.
  induction d as [|d IH] using Pos.peano_ind.
  - cbn. lia.
  - rewrite Pos.iter_succ, Pos2Z.inj_xO, IH, Pos2Z.inj_succ, Z.pow_succ_r by lia. lia.
Qed.

Lemma shl_align_spec mx ex ex' :
  snd (shl_align mx ex ex') = Z.min ex ex' /\
  Zpos (fst (shl_align mx ex ex')) = Zpos mx * 2 ^ (ex - Z.min ex ex').
Proof.
  unfold shl_align. destruct (ex' - ex) as [|d|d] eqn:E; cbn [fst snd].
  - replace (Z.min ex ex') with ex by lia. rewrite Z.sub_diag. split; lia.
  - replace (Z.min ex ex') with ex by lia. rewrite Z.sub_diag. split; lia.
  - replace (Z.min ex ex') with ex' by lia. split; [reflexivity|].
    rewrite Pos_iter_xO. f_equal. f_equal. lia.
Qed.

(** ** Rounding in a format *)

Section Format.

Variables prec emax : Z.
Hypothesis Hprec : 0 < prec.
Hypothesis Hemax : prec < emax.

Lemma fexp_mono a c : a <= c -> fexp prec emax a <= fexp prec emax c.
Proof. unfold fexp. lia. Qed.

Lemma fexp_ge_emin a : emin prec emax <= fexp prec emax a.
Proof. unfold fexp. lia. Qed.

Lemma fexp_lt_inv a c : fexp prec emax a < fexp prec emax c -> a < c.
Proof. unfold fexp. lia. Qed.

Lemma bounded_iff m e :
  SpecFloat.bounded prec emax m e = true <->
  fexp prec emax (Zpos (digits2_pos m) + e) = e /\ e <= emax - prec.
Proof.
  unfold SpecFloat.bounded, canonical_mantissa. rewrite andb_true_iff, Z.eqb_eq, Z.leb_le. tauto.
Qed.

(** A representable value below a real that is less than one grid step
    above [m * 2^e] is below [m * 2^e] already. *)
Lemma floor_grid m e mb eb (v : R) :
  0 < m -> e <= fexp prec emax (Zdigits2 m + e) ->
  SpecFloat.bounded prec emax mb eb = true ->
  (F2R (Zpos mb) eb <= v)%R -> (v < F2R (m + 1) e)%R ->
  (F2R (Zpos mb) eb <= F2R m e)%R.
Proof.
  intros Hm He [Hc _]%bounded_iff Hle Hlt.
  destruct (Z.le_gt_cases e eb) as [Hge|Hlt'].
  - rewrite (F2R_shift (Zpos mb) eb e Hge) in *.
    apply F2R_le_mono. assert (Zpos mb * 2 ^ (eb - e) < m + 1); [|lia].
    apply (F2R_lt_inv _ _ e). lra.
  - assert (Zpos (digits2_pos mb) + eb < Zdigits2 m + e) by (apply fexp_lt_inv; lia).
    pose proof (F2R_digits (Zpos mb) eb ltac:(lia)) as [_ H1]. cbn [Zdigits2] in H1.
    pose proof (F2R_digits m e Hm) as [H2 _].
    pose proof (powerRZ_2_le (Zpos (digits2_pos mb) + eb) (Zdigits2 m - 1 + e) ltac:(lia)).
    lra.
Qed.

(** Shifting [m * 2^e] right onto its grid keeps it above every
    representable value it was above. *)
Lemma floor_shift m e n mb eb :
  0 < m -> n = fexp prec emax (Zdigits2 m + e) - e -> 0 <= n ->
  SpecFloat.bounded prec emax mb eb = true ->
  (F2R (Zpos mb) eb <= F2R m e)%R ->
  (F2R (Zpos mb) eb <= F2R (m / 2 ^ n) (e + n))%R.
Proof.
  intros Hm Hn Hn0 [Hc _]%bounded_iff Hle.
  assert (Hp : 0 < 2 ^ n) by (apply Z.pow_pos_nonneg; lia).
  destruct (Z.le_gt_cases (e + n) eb) as [Hge|Hlt].
  - rewrite (F2R_shift (Zpos mb) eb (e + n) Hge). apply F2R_le_mono.
    apply Z.div_le_lower_bound; [assumption|].
    apply (F2R_le_iff _ _ _ _ e) in Hle; [|lia|lia].
    rewrite Z.sub_diag, Z.pow_0_r, Z.mul_1_r in Hle.
    replace (eb - e) with (eb - (e + n) + n) in Hle by lia.
    rewrite Z.pow_add_r in Hle by lia. lia.
  - pose proof (fexp_ge_emin (Zpos (digits2_pos mb) + eb)).
    assert (Hd : Zpos (digits2_pos mb) + eb < Zdigits2 m + e) by (apply fexp_lt_inv; lia).
    assert (Hnd : n = Zdigits2 m - prec) by (unfold fexp in *; lia).
    pose proof (F2R_digits (Zpos mb) eb ltac:(lia)) as [_ H1]. cbn [Zdigits2] in H1.
    pose proof (Zdigits2_bounds m Hm) as [H2 _].
    assert (Hq : 2 ^ (prec - 1) <= m / 2 ^ n).
    { apply Z.div_le_lower_bound; [assumption|].
      rewrite <- Z.pow_add_r by lia. replace (n + (prec - 1)) with (Zdigits2 m - 1) by lia.
      assumption. }
    apply (F2R_le_mono _ _ (e + n)) in Hq. rewrite F2R_pow2 in Hq by lia.
    pose proof (powerRZ_2_le (Zpos (digits2_pos mb) + eb) (prec - 1 + (e + n)) ltac:(lia)).
    lra.
Qed.

(** After the first shift and the rounding, the mantissa is not too
    short for its exponent. *)
Lemma second_shift_nonneg m e n m2 :
  0 < m -> n = fexp prec emax (Zdigits2 m + e) - e -> 0 <= n ->
  0 < m2 -> m / 2 ^ n <= m2 ->
  e + n <= fexp prec emax (Zdigits2 m2 + (e + n)).
Proof.
  intros Hm Hn Hn0 Hm2 Hq.
  assert (Hp : 0 < 2 ^ n) by (apply Z.pow_pos_nonneg; lia).
  destruct (Z.eq_dec (e + n) (emin prec emax)) as [->|Hne]; [apply fexp_ge_emin|].
  assert (Hnd : n = Zdigits2 m - prec) by (unfold fexp in *; lia).
  pose proof (Zdigits2_bounds m Hm) as [H2 _].
  assert (Hq' : 2 ^ (prec - 1) <= m / 2 ^ n).
  { apply Z.div_le_lower_bound; [assumption|].
    rewrite <- Z.pow_add_r by lia. replace (n + (prec - 1)) with (Zdigits2 m - 1) by lia.
    assumption. }
  assert (Hlt : prec - 1 < Zdigits2 m2).
  { apply (Z.pow_lt_mono_r_iff 2); [lia|pose proof (Zdigits2_pos m2 Hm2); lia|].
    pose proof (Zdigits2_bounds m2 Hm2). lia. }
  unfold fexp. lia.
Qed.

(** A shift onto the grid of the mantissa's own magnitude yields a
    canonical mantissa. *)
Lemma shift_canonical m e n :
  0 < m -> emin prec emax <= e ->
  n = fexp prec emax (Zdigits2 m + e) - e -> 0 <= n ->
  0 < m / 2 ^ n /\ fexp prec emax (Zdigits2 (m / 2 ^ n) + (e + n)) = e + n.
Proof.
  intros Hm He Hn Hn0. pose proof (Zdigits2_pos m Hm).
  assert (Hlt : n < Zdigits2 m) by (unfold fexp in *; lia).
  pose proof (Zdigits2_div_pow2 m n Hm ltac:(lia)) as Hd.
  split.
  - pose proof (Zdigits2_bounds m Hm) as [H2 _].
    assert (2 ^ (Zdigits2 m - 1 - n) <= m / 2 ^ n).
    { apply Z.div_le_lower_bound; [apply Z.pow_pos_nonneg; lia|].
      rewrite <- Z.pow_add_r by lia. replace (n + (Zdigits2 m - 1 - n)) with (Zdigits2 m - 1) by lia.
      assumption. }
    pose proof (Z.pow_pos_nonneg 2 (Zdigits2 m - 1 - n)). lia.
  - rewrite Hd. replace (Zdigits2 m - n + (e + n)) with (Zdigits2 m + e) by lia. lia.
Qed.

(** The two shifts and the rounding of [binary_round_aux], spelled out. *)
Lemma binary_round_aux_steps s m e l n :
  0 < m -> n = fexp prec emax (Zdigits2 m + e) - e -> 0 <= n ->
  exists m2,
    m / 2 ^ n <= m2 <= m / 2 ^ n + 1 /\
    (l = loc_Exact -> m mod 2 ^ n = 0 -> m2 = m / 2 ^ n) /\
    binary_round_aux prec emax s m e l =
      let n2 := Z.max (fexp prec emax (Zdigits2 m2 + (e + n)) - (e + n)) 0 in
      match m2 / 2 ^ n2 with
      | Z0 => S754_zero s
      | Zpos m' =>
          if e + n + n2 <=? emax - prec then S754_finite s m' (e + n + n2)
          else S754_infinity s
      | Zneg _ => S754_nan
      end.
Proof.
  intros Hm Hn Hn0. unfold binary_round_aux, shr_fexp.
  destruct (shr_spec (shr_record_of_loc m l) e (fexp prec emax (Zdigits2 m + e) - e))
    as (y & -> & [Hy Hex]); [rewrite shr_record_of_loc_m; lia|].
  rewrite <- Hn in *. replace (Z.max n 0) with n in * by lia.
  rewrite shr_record_of_loc_m in *.
  set (m2 := round_nearest_even (shr_m y) (loc_of_shr_record y)).
  exists m2. split; [subst m2; rewrite <- Hy; apply round_nearest_even_bounds|].
  split.
  { intros -> Hmod. destruct Hex as [Hr Hs]; [reflexivity|reflexivity|assumption|].
    subst m2. rewrite loc_of_shr_record_exact by assumption. cbn. exact Hy. }
  assert (0 <= m2).
  { pose proof (round_nearest_even_bounds (shr_m y) (loc_of_shr_record y)).
    assert (0 <= m / 2 ^ n) by (apply Z.div_pos; [lia|apply Z.pow_pos_nonneg; lia]).
    subst m2. lia. }
  destruct (shr_spec (shr_record_of_loc m2 loc_Exact) (e + n)
              (fexp prec emax (Zdigits2 m2 + (e + n)) - (e + n)))
    as (w & -> & [Hw _]); [cbn; lia|].
  cbn [shr_record_of_loc shr_m] in Hw. rewrite Hw. cbv zeta. reflexivity.
Qed.

(** Rounding does not cross a representable value from below. *)
Lemma round_aux_upper s m e l mb eb :
  0 < m -> e <= fexp prec emax (Zdigits2 m + e) ->
  SpecFloat.bounded prec emax mb eb = true ->
  (F2R m e <= F2R (Zpos mb) eb)%R ->
  (l <> loc_Exact -> (F2R m e < F2R (Zpos mb) eb)%R) ->
  binary_round_aux prec emax s m e l = S754_zero s \/
  exists m' e',
    binary_round_aux prec emax s m e l = S754_finite s m' e' /\
    SpecFloat.bounded prec emax m' e' = true /\
    (F2R (Zpos m') e' <= F2R (Zpos mb) eb)%R.
Proof.
  intros Hm He Hb Hle Hlt. pose proof Hb as [Hc Hmax]%bounded_iff.
  set (n := fexp prec emax (Zdigits2 m + e) - e).
  destruct (binary_round_aux_steps s m e l n Hm eq_refl ltac:(lia))
    as (m2 & Hm2 & Hexact & ->).
  assert (Hp : 0 < 2 ^ n) by (apply Z.pow_pos_nonneg; lia).
  pose proof (F2R_magnitude m e (Zpos mb) eb Hm ltac:(lia) Hle) as Hmag.
  cbn [Zdigits2] in Hmag.
  assert (He1 : e + n <= eb) by (rewrite <- Hc; subst n; pose proof (fexp_mono _ _ Hmag); lia).
  (* the bound on the grid of the first shift *)
  set (MB := Zpos mb * 2 ^ (eb - (e + n))).
  assert (HB : F2R (Zpos mb) eb = F2R MB (e + n)) by (apply F2R_shift; lia).
  assert (HmZ : m <= MB * 2 ^ n).
  { apply (F2R_le_iff _ _ _ _ e) in Hle; [|lia|lia].
    rewrite Z.sub_diag, Z.pow_0_r, Z.mul_1_r in Hle.
    replace (eb - e) with (eb - (e + n) + n) in Hle by lia.
    rewrite Z.pow_add_r, Z.mul_assoc in Hle by lia. exact Hle. }
  assert (Hm2B : m2 <= MB).
  { destruct (Z.eq_dec m2 (m / 2 ^ n)) as [->|Hne].
    - apply Z.div_le_upper_bound; lia.
    - assert (m < MB * 2 ^ n).
      { destruct (Z.eq_dec (m mod 2 ^ n) 0) as [Hmod|Hmod].
        - assert (Hl : l <> loc_Exact) by (intros ->; auto).
          specialize (Hlt Hl).
          apply (F2R_lt_iff _ _ _ _ e) in Hlt; [|lia|lia].
          rewrite Z.sub_diag, Z.pow_0_r, Z.mul_1_r in Hlt.
          replace (eb - e) with (eb - (e + n) + n) in Hlt by lia.
          rewrite Z.pow_add_r, Z.mul_assoc in Hlt by lia. exact Hlt.
        - destruct (Z.eq_dec m (MB * 2 ^ n)) as [Heq|]; [|lia].
          rewrite Heq, Z.mod_mul in Hmod by lia. contradiction. }
      assert (m / 2 ^ n < MB) by (apply Z.div_lt_upper_bound; lia). lia. }
  cbv zeta.
  destruct (Z.eq_dec m2 0) as [->|Hm20].
  { left. rewrite Z.div_0_l; [reflexivity|].
    apply Z.pow_nonzero; lia. }
  assert (Hm2pos : 0 < m2).
  { assert (0 <= m / 2 ^ n) by (apply Z.div_pos; lia). lia. }
  pose proof (second_shift_nonneg m e n m2 Hm eq_refl ltac:(lia) Hm2pos ltac:(lia)) as Hn2.
  set (n2 := fexp prec emax (Zdigits2 m2 + (e + n)) - (e + n)) in *.
  replace (Z.max n2 0) with n2 by lia.
  assert (Hemin : emin prec emax <= e + n).
  { subst n. pose proof (fexp_ge_emin (Zdigits2 m + e)). lia. }
  destruct (shift_canonical m2 (e + n) n2 Hm2pos Hemin eq_refl ltac:(lia)) as [Hm3 Hcan].
  assert (Hp2 : 0 < 2 ^ n2) by (apply Z.pow_pos_nonneg; lia).
  assert (Hval : (F2R (m2 / 2 ^ n2) (e + n + n2) <= F2R (Zpos mb) eb)%R).
  { rewrite HB. rewrite (F2R_shift _ (e + n + n2) (e + n)) by lia.
    apply F2R_le_mono. replace (e + n + n2 - (e + n)) with n2 by lia.
    pose proof (Z.mul_div_le m2 (2 ^ n2) Hp2) as Hd.
    rewrite Z.mul_comm. etransitivity; [exact Hd|exact Hm2B]. }
  right. destruct (m2 / 2 ^ n2) as [|m'|] eqn:Em3; try lia.
  pose proof (F2R_magnitude (Zpos m') (e + n + n2) (Zpos mb) eb ltac:(lia) ltac:(lia) Hval)
    as Hmag3.
  cbn [Zdigits2] in Hmag3, Hcan.
  assert (e + n + n2 <= emax - prec).
  { pose proof (fexp_mono _ _ Hmag3). lia. }
  destruct (Z.leb_spec (e + n + n2) (emax - prec)); [|lia].
  exists m', (e + n + n2). split; [reflexivity|]. split; [|exact Hval].
  apply bounded_iff. split; [|assumption]. exact Hcan.
Qed.

(** Rounding does not cross a representable value from above. *)
Lemma round_aux_lower s m e l mb eb :
  0 < m -> e <= fexp prec emax (Zdigits2 m + e) ->
  SpecFloat.bounded prec emax mb eb = true ->
  (F2R (Zpos mb) eb <= F2R m e)%R ->
  binary_round_aux prec emax s m e l = S754_infinity s \/
  exists m' e',
    binary_round_aux prec emax s m e l = S754_finite s m' e' /\
    SpecFloat.bounded prec emax m' e' = true /\
    (F2R (Zpos mb) eb <= F2R (Zpos m') e')%R.
Proof.
  intros Hm He Hb Hle.
  set (n := fexp prec emax (Zdigits2 m + e) - e).
  destruct (binary_round_aux_steps s m e l n Hm eq_refl ltac:(lia))
    as (m2 & Hm2 & _ & ->).
  pose proof (floor_shift m e n mb eb Hm eq_refl ltac:(lia) Hb Hle) as H1.
  pose proof (F2R_pos (Zpos mb) eb ltac:(lia)) as HBpos.
  assert (Hq : 0 < m / 2 ^ n) by (apply (F2R_lt_inv _ _ (e + n)); rewrite F2R_0; lra).
  assert (Hm2pos : 0 < m2) by lia.
  assert (H2 : (F2R (Zpos mb) eb <= F2R m2 (e + n))%R).
  { pose proof (F2R_le_mono (m / 2 ^ n) m2 (e + n) ltac:(lia)). lra. }
  pose proof (second_shift_nonneg m e n m2 Hm eq_refl ltac:(lia) Hm2pos ltac:(lia)) as Hn2.
  cbv zeta.
  set (n2 := fexp prec emax (Zdigits2 m2 + (e + n)) - (e + n)) in *.
  replace (Z.max n2 0) with n2 by lia.
  assert (Hemin : emin prec emax <= e + n).
  { subst n. pose proof (fexp_ge_emin (Zdigits2 m + e)). lia. }
  destruct (shift_canonical m2 (e + n) n2 Hm2pos Hemin eq_refl ltac:(lia)) as [Hm3 Hcan].
  pose proof (floor_shift m2 (e + n) n2 mb eb Hm2pos eq_refl ltac:(lia) Hb H2) as H3.
  destruct (m2 / 2 ^ n2) as [|m'|] eqn:Em3; try lia.
  destruct (Z.leb_spec (e + n + n2) (emax - prec)); [right|left; reflexivity].
  exists m', (e + n + n2). split; [reflexivity|]. split; [|exact H3].
  apply bounded_iff. split; [exact Hcan|assumption].
Qed.

(** *** Ranges *)

Lemma fin_zero s : finite_in prec emax (S754_zero s).
Proof. split; reflexivity. Qed.

Lemma fin_finite s m e :
  SpecFloat.bounded prec emax m e = true -> finite_in prec emax (S754_finite s m e).
Proof. intros H. split; [exact H|reflexivity]. Qed.

Lemma representable_0 : representable prec emax 0.
Proof. exists (S754_zero false). split; [apply fin_zero|reflexivity]. Qed.

Lemma representable_opp r : representable prec emax r -> representable prec emax (- r).
Proof.
  intros (f & [Hv Hf] & <-). exists (SFopp f).
  destruct f as [s|s| |s m e]; try discriminate Hf; cbn.
  - split; [apply fin_zero|lra].
  - split; [apply fin_finite, Hv|].
    destruct s; cbn [cond_Zopp negb]; [|rewrite F2R_opp; reflexivity].
    change (Z.neg m) with (- Zpos m). rewrite F2R_opp. lra.
Qed.

(** A positive representable real is the value of a bounded mantissa. *)
Lemma representable_pos r :
  representable prec emax r -> (0 < r)%R ->
  exists m e, SpecFloat.bounded prec emax m e = true /\ r = F2R (Zpos m) e.
Proof.
  intros (f & [Hv Hf] & <-) Hr.
  destruct f as [s|s| |s m e]; try discriminate Hf; cbn in Hr; try lra.
  destruct s; cbn [B2R cond_Zopp] in *.
  - change (Z.neg m) with (- Zpos m) in Hr. rewrite F2R_opp in Hr.
    pose proof (F2R_pos (Zpos m) e ltac:(lia)). lra.
  - exists m, e. split; [exact Hv|reflexivity].
Qed.

(** The magnitude of a rounded value stays between the representable
    bounds of the magnitude of the exact one. *)
Lemma round_aux_magnitude s m e l (a lo hi : R) :
  0 < m -> e <= fexp prec emax (Zdigits2 m + e) ->
  (F2R m e <= a < F2R (m + 1) e)%R ->
  (l <> loc_Exact -> (F2R m e < a)%R) ->
  representable prec emax lo -> representable prec emax hi ->
  (0 <= lo <= a)%R -> (a <= hi)%R ->
  (binary_round_aux prec emax s m e l = S754_zero s /\ lo = 0%R) \/
  exists m' e',
    binary_round_aux prec emax s m e l = S754_finite s m' e' /\
    SpecFloat.bounded prec emax m' e' = true /\
    (lo <= F2R (Zpos m') e' <= hi)%R.
Proof.
  intros Hm He Ha Hl Hlo Hhi Hloa Hahi.
  pose proof (F2R_pos m e Hm) as Hpos.
  destruct (representable_pos hi Hhi ltac:(lra)) as (mh & eh & Hbh & ->).
  destruct (round_aux_upper s m e l mh eh Hm He Hbh ltac:(lra))
    as [Hz|(m' & e' & Hr & Hb & Hu)].
  { intros Hne. specialize (Hl Hne). lra. }
  - destruct (Rle_lt_or_eq_dec 0 lo (proj1 Hloa)) as [Hlt|Heq]; [|left; split; [exact Hz|symmetry; exact Heq]].
    destruct (representable_pos lo Hlo Hlt) as (ml & el & Hbl & ->).
    pose proof (floor_grid m e ml el a Hm He Hbl ltac:(lra) ltac:(lra)) as Hfl.
    destruct (round_aux_lower s m e l ml el Hm He Hbl Hfl) as [Hi|(m'' & e'' & Hr' & _)];
      congruence.
  - right. exists m', e'. split; [exact Hr|]. split; [exact Hb|]. split; [|exact Hu].
    destruct (Rle_lt_or_eq_dec 0 lo (proj1 Hloa)) as [Hlt|Heq].
    + destruct (representable_pos lo Hlo Hlt) as (ml & el & Hbl & ->).
      pose proof (floor_grid m e ml el a Hm He Hbl ltac:(lra) ltac:(lra)) as Hfl.
      destruct (round_aux_lower s m e l ml el Hm He Hbl Hfl)
        as [Hi|(m'' & e'' & Hr' & _ & Hlo')]; [congruence|].
      assert (m'' = m' /\ e'' = e') as [-> ->] by (split; congruence). exact Hlo'.
    + rewrite <- Heq. left. apply F2R_pos. lia.
Qed.

(** The same with the sign: a rounded value stays between the
    representable bounds of the exact one. *)
Lemma round_aux_range (s : bool) m e l (a lo hi : R) :
  0 < m -> e <= fexp prec emax (Zdigits2 m + e) ->
  (F2R m e <= a < F2R (m + 1) e)%R ->
  (l <> loc_Exact -> (F2R m e < a)%R) ->
  representable prec emax lo -> representable prec emax hi ->
  (lo <= (if s then - a else a) <= hi)%R ->
  finite_in prec emax (binary_round_aux prec emax s m e l) /\
  (lo <= B2R (binary_round_aux prec emax s m e l) <= hi)%R.
Proof.
  intros Hm He Ha Hl Hlo Hhi Hr.
  pose proof (F2R_pos m e Hm) as Hpos.
  destruct s.
  - (* negative: bounds of the magnitude are [max 0 (- hi)] and [- lo] *)
    assert (Hlo' : representable prec emax (Rmax 0 (- hi))).
    { unfold Rmax. destruct (Rle_dec 0 (- hi)); [apply representable_opp, Hhi|apply representable_0]. }
    pose proof (representable_opp lo Hlo) as Hhi'.
    assert (Hb1 : (0 <= Rmax 0 (- hi) <= a)%R).
    { unfold Rmax. destruct (Rle_dec 0 (- hi)); lra. }
    destruct (round_aux_magnitude true m e l a _ _ Hm He Ha Hl Hlo' Hhi' Hb1 ltac:(lra))
      as [[-> Hz]|(m' & e' & -> & Hb & Hrange)].
    + split; [apply fin_zero|]. cbn. unfold Rmax in Hz. destruct (Rle_dec 0 (- hi)); lra.
    + split; [apply fin_finite, Hb|]. cbn [B2R cond_Zopp].
      change (- Zpos m') with (- (Zpos m')). rewrite F2R_opp.
      unfold Rmax in Hrange. destruct (Rle_dec 0 (- hi)); lra.
  - assert (Hlo' : representable prec emax (Rmax 0 lo)).
    { unfold Rmax. destruct (Rle_dec 0 lo); [exact Hlo|apply representable_0]. }
    assert (Hb1 : (0 <= Rmax 0 lo <= a)%R).
    { unfold Rmax. destruct (Rle_dec 0 lo); lra. }
    destruct (round_aux_magnitude false m e l a _ _ Hm He Ha Hl Hlo' Hhi Hb1 ltac:(lra))
      as [[-> Hz]|(m' & e' & -> & Hb & Hrange)].
    + split; [apply fin_zero|]. cbn. unfold Rmax in Hz. destruct (Rle_dec 0 lo); lra.
    + split; [apply fin_finite, Hb|]. cbn [B2R cond_Zopp].
      unfold Rmax in Hrange. destruct (Rle_dec 0 lo); lra.
Qed.

(** *** [binary_round] and [binary_normalize] *)

Lemma binary_round_range (s : bool) m e lo hi :
  representable prec emax lo -> representable prec emax hi ->
  (lo <= F2R (cond_Zopp s (Zpos m)) e <= hi)%R ->
  finite_in prec emax (binary_round prec emax s m e) /\
  (lo <= B2R (binary_round prec emax s m e) <= hi)%R.
Proof.
  intros Hlo Hhi Hr. unfold binary_round.
  pose proof (shl_align_spec m e (fexp prec emax (Zpos (digits2_pos m) + e))) as [He Hm].
  destruct (shl_align m e (fexp prec emax (Zpos (digits2_pos m) + e))) as [mz ez].
  cbn [fst snd] in He, Hm. rewrite <- He in Hm.
  assert (Hval : F2R (Zpos mz) ez = F2R (Zpos m) e).
  { rewrite Hm. symmetry. apply F2R_shift. lia. }
  assert (Hdig : Zdigits2 (Zpos mz) + ez = Zpos (digits2_pos m) + e).
  { rewrite Hm, Zdigits2_mul_pow2 by lia. cbn [Zdigits2]. lia. }
  rewrite F2R_cond_Zopp in Hr.
  apply round_aux_range with (a := F2R (Zpos mz) ez); try assumption.
  - lia.
  - rewrite Hdig. lia.
  - split; [lra|apply F2R_lt_mono; lia].
  - intros H. contradiction H. reflexivity.
  - rewrite Hval. exact Hr.
Qed.

Lemma binary_normalize_range z e sz lo hi :
  representable prec emax lo -> representable prec emax hi ->
  (lo <= F2R z e <= hi)%R ->
  finite_in prec emax (binary_normalize prec emax z e sz) /\
  (lo <= B2R (binary_normalize prec emax z e sz) <= hi)%R.
Proof.
  intros Hlo Hhi Hr. destruct z as [|m|m]; cbn [binary_normalize].
  - rewrite F2R_0 in Hr. split; [apply fin_zero|exact Hr].
  - apply binary_round_range; assumption.
  - apply binary_round_range; assumption.
Qed.

(** *** Multiplication *)

Lemma mul_exponent_ok mx ex my ey :
  SpecFloat.bounded prec emax mx ex = true -> SpecFloat.bounded prec emax my ey = true ->
  ex + ey <= fexp prec emax (Zdigits2 (Zpos (mx * my)) + (ex + ey)).
Proof.
  intros [Hx _]%bounded_iff [Hy _]%bounded_iff.
  pose proof (Zdigits2_mul (Zpos mx) (Zpos my) ltac:(lia) ltac:(lia)) as Hd.
  rewrite <- Pos2Z.inj_mul in Hd. cbn [Zdigits2] in *.
  unfold fexp, emin in *. lia.
Qed.

Lemma SFmul_range x y lo hi :
  finite_in prec emax x -> finite_in prec emax y ->
  representable prec emax lo -> representable prec emax hi ->
  (lo <= B2R x * B2R y <= hi)%R ->
  finite_in prec emax (SFmul prec emax x y) /\
  (lo <= B2R (SFmul prec emax x y) <= hi)%R.
Proof.
  intros [Hvx Hfx] [Hvy Hfy] Hlo Hhi Hr.
  destruct x as [sx|sx| |sx mx ex], y as [sy|sy| |sy my ey];
    try discriminate Hfx; try discriminate Hfy; cbn [SFmul].
  - split; [apply fin_zero|]. cbn in *. lra.
  - split; [apply fin_zero|]. cbn [B2R] in *. lra.
  - split; [apply fin_zero|]. cbn [B2R] in *. lra.
  - cbn [valid_binary] in Hvx, Hvy.
    apply round_aux_range with (a := F2R (Zpos (mx * my)) (ex + ey)); try assumption.
    + lia.
    + apply mul_exponent_ok; assumption.
    + split; [lra|apply F2R_lt_mono; lia].
    + intros H. contradiction H. reflexivity.
    + rewrite !B2R_finite, !F2R_cond_Zopp in Hr. rewrite Pos2Z.inj_mul, F2R_mul.
      destruct sx, sy; cbn [xorb]; lra.
Qed.

(** *** Addition *)

Lemma SFadd_range x y lo hi :
  finite_in prec emax x -> finite_in prec emax y ->
  representable prec emax lo -> representable prec emax hi ->
  (lo <= B2R x + B2R y <= hi)%R ->
  finite_in prec emax (SFadd prec emax x y) /\
  (lo <= B2R (SFadd prec emax x y) <= hi)%R.
Proof.
  intros [Hvx Hfx] [Hvy Hfy] Hlo Hhi Hr.
  destruct x as [sx|sx| |sx mx ex], y as [sy|sy| |sy my ey];
    try discriminate Hfx; try discriminate Hfy; cbn [SFadd].
  - destruct sx, sy; (split; [apply fin_zero|]); cbn in *; lra.
  - split; [split; assumption|]. cbn [B2R] in *. lra.
  - split; [split; assumption|]. cbn [B2R] in *. lra.
  - apply binary_normalize_range; try assumption.
    pose proof (shl_align_spec mx ex (Z.min ex ey)) as [_ Hmx].
    pose proof (shl_align_spec my ey (Z.min ex ey)) as [_ Hmy].
    rewrite Hmx, Hmy.
    replace (Z.min ex (Z.min ex ey)) with (Z.min ex ey) by lia.
    replace (Z.min ey (Z.min ex ey)) with (Z.min ex ey) by lia.
    rewrite F2R_add, !F2R_cond_Zopp.
    rewrite <- (F2R_shift (Zpos mx) ex (Z.min ex ey)) by lia.
    rewrite <- (F2R_shift (Zpos my) ey (Z.min ex ey)) by lia.
    rewrite !B2R_finite, !F2R_cond_Zopp in Hr. exact Hr.
Qed.

(** *** Subtraction *)

Lemma SFsub_range x y lo hi :
  finite_in prec emax x -> finite_in prec emax y ->
  representable prec emax lo -> representable prec emax hi ->
  (lo <= B2R x - B2R y <= hi)%R ->
  finite_in prec emax (SFsub prec emax x y) /\
  (lo <= B2R (SFsub prec emax x y) <= hi)%R.
Proof.
  intros [Hvx Hfx] [Hvy Hfy] Hlo Hhi Hr.
  destruct x as [sx|sx| |sx mx ex], y as [sy|sy| |sy my ey];
    try discriminate Hfx; try discriminate Hfy; cbn [SFsub].
  - destruct sx, sy; (split; [apply fin_zero|]); cbn in *; lra.
  - split; [split; assumption|].
    rewrite !B2R_finite, !F2R_cond_Zopp in *. cbn [B2R] in Hr.
    destruct sy; cbn [negb]; lra.
  - split; [split; assumption|]. cbn [B2R] in *. lra.
  - apply binary_normalize_range; try assumption.
    pose proof (shl_align_spec mx ex (Z.min ex ey)) as [_ Hmx].
    pose proof (shl_align_spec my ey (Z.min ex ey)) as [_ Hmy].
    rewrite Hmx, Hmy.
    replace (Z.min ex (Z.min ex ey)) with (Z.min ex ey) by lia.
    replace (Z.min ey (Z.min ex ey)) with (Z.min ex ey) by lia.
    rewrite <- Z.add_opp_r, F2R_add, F2R_opp, !F2R_cond_Zopp.
    rewrite <- (F2R_shift (Zpos mx) ex (Z.min ex ey)) by lia.
    rewrite <- (F2R_shift (Zpos my) ey (Z.min ex ey)) by lia.
    rewrite !B2R_finite, !F2R_cond_Zopp in Hr. lra.
Qed.

(** *** Division *)

Lemma bounded_ge_min m e :
  SpecFloat.bounded prec emax m e = true ->
  (powerRZ 2 (emin prec emax) <= F2R (Zpos m) e)%R.
Proof.
  intros [Hc _]%bounded_iff.
  pose proof (fexp_ge_emin (Zpos (digits2_pos m) + e)).
  pose proof (powerRZ_2_le (emin prec emax) e ltac:(lia)).
  pose proof (F2R_le_mono 1 (Zpos m) e ltac:(lia)) as H1.
  replace (F2R 1 e) with (powerRZ 2 e) in H1 by (unfold F2R; lra). lra.
Qed.

Lemma new_location_exact n k : new_location n k <> loc_Exact -> k <> 0.
Proof.
  unfold new_location, new_location_even, new_location_odd. intros H ->.
  destruct (Z.even n); cbn in H; contradiction H; reflexivity.
Qed.

(** The quotient mantissa [SFdiv_core_binary] hands to the rounding. *)
Lemma SFdiv_core_spec mx ex my ey q e' l :
  SFdiv_core_binary prec emax (Zpos mx) ex (Zpos my) ey = (q, e', l) ->
  (powerRZ 2 (emin prec emax) <= F2R (Zpos mx) ex / F2R (Zpos my) ey)%R ->
  0 < q /\ e' <= fexp prec emax (Zdigits2 q + e') /\
  (F2R q e' <= F2R (Zpos mx) ex / F2R (Zpos my) ey < F2R (q + 1) e')%R /\
  (l <> loc_Exact -> (F2R q e' < F2R (Zpos mx) ex / F2R (Zpos my) ey)%R).
Proof.
  unfold SFdiv_core_binary. cbn [Zdigits2].
  set (X := Zpos (digits2_pos mx) + ex - (Zpos (digits2_pos my) + ey)).
  set (e0 := Z.min (fexp prec emax X) (ex - ey)).
  set (sh := ex - ey - e0).
  set (m' := match sh with Zpos _ => Z.shiftl (Zpos mx) sh | Z0 => Zpos mx | Zneg _ => 0 end).
  assert (Hsh : 0 <= sh) by (subst sh e0; lia).
  assert (Hm' : m' = Zpos mx * 2 ^ sh).
  { subst m'. destruct sh as [|p|p] eqn:E; [lia| |lia].
    rewrite Z.shiftl_mul_pow2 by lia. reflexivity. }
  clearbody m'.
  pose proof (Z_div_mod m' (Zpos my) ltac:(lia)) as Hdiv.
  destruct (Z.div_eucl m' (Zpos my)) as [q0 r]. destruct Hdiv as [Hqr Hr].
  intros [= <- <- <-] Hmin.
  set (a := (F2R (Zpos mx) ex / F2R (Zpos my) ey)%R) in *.
  pose proof (F2R_pos (Zpos mx) ex ltac:(lia)) as Hxpos.
  pose proof (F2R_pos (Zpos my) ey ltac:(lia)) as Hypos.
  assert (Ha : (a * F2R (Zpos my) ey = F2R m' (e0 + ey))%R).
  { subst a. rewrite Hm', (F2R_shift (Zpos mx) ex (e0 + ey)) by lia.
    replace (ex - (e0 + ey)) with sh by (subst sh; lia). field. lra. }
  assert (Hlow : (F2R q0 e0 <= a)%R).
  { apply (Rmult_le_reg_r (F2R (Zpos my) ey)); [assumption|].
    rewrite Ha, <- F2R_mul. apply F2R_le_mono. nia. }
  assert (Hupp : (a < F2R (q0 + 1) e0)%R).
  { apply (Rmult_lt_reg_r (F2R (Zpos my) ey)); [assumption|].
    rewrite Ha, <- F2R_mul. apply F2R_lt_mono. nia. }
  (* the quotient is above [2^(X-1)] *)
  assert (HX : (powerRZ 2 (X - 1) < a)%R).
  { pose proof (F2R_digits (Zpos mx) ex ltac:(lia)) as [H1 _].
    pose proof (F2R_digits (Zpos my) ey ltac:(lia)) as [_ H2]. cbn [Zdigits2] in H1, H2.
    apply (Rmult_lt_reg_r (F2R (Zpos my) ey)); [assumption|].
    subst a. unfold Rdiv. rewrite Rmult_assoc, Rinv_l, Rmult_1_r by lra.
    replace (X - 1) with ((Zpos (digits2_pos mx) - 1 + ex) + - (Zpos (digits2_pos my) + ey))
      by (subst X; lia).
    rewrite powerRZ_add by lra.
    pose proof (powerRZ_2_pos (Zpos (digits2_pos mx) - 1 + ex)).
    pose proof (powerRZ_2_pos (- (Zpos (digits2_pos my) + ey))).
    assert (powerRZ 2 (- (Zpos (digits2_pos my) + ey)) * powerRZ 2 (Zpos (digits2_pos my) + ey) = 1)%R
      as Hinv by (rewrite <- powerRZ_add by lra; rewrite Z.add_opp_diag_l; reflexivity).
    assert (Hlt1 : (powerRZ 2 (- (Zpos (digits2_pos my) + ey)) * F2R (Zpos my) ey < 1)%R) by nra.
    rewrite Rmult_assoc.
    set (u := (powerRZ 2 (- (Zpos (digits2_pos my) + ey)) * F2R (Zpos my) ey)%R) in *.
    nra. }
  assert (Hq0 : 0 <= q0) by nia.
  assert (Hqpos : 0 < q0).
  { destruct (Z.eq_dec q0 0) as [->|]; [exfalso|lia].
    change (0 + 1) with 1 in Hupp.
    replace (F2R 1 e0) with (powerRZ 2 e0) in Hupp by (unfold F2R; lra).
    assert (emin prec emax < e0) by (apply powerRZ_2_lt_inv; lra).
    assert (X - 1 < e0) by (apply powerRZ_2_lt_inv; lra).
    subst e0. unfold fexp in *. lia. }
  split; [exact Hqpos|]. split; [|split; [split; assumption|]].
  - pose proof (Zdigits2_bounds q0 Hqpos) as [_ Hd]. pose proof (Zdigits2_pos q0 Hqpos).
    assert (Hlt : (F2R (q0 + 1) e0 <= powerRZ 2 (Zdigits2 q0 + e0))%R).
    { rewrite <- F2R_pow2 by lia. apply F2R_le_mono. lia. }
    assert (X - 1 < Zdigits2 q0 + e0) by (apply powerRZ_2_lt_inv; lra).
    pose proof (fexp_mono X (Zdigits2 q0 + e0) ltac:(lia)). subst e0. lia.
  - intros Hl. apply new_location_exact in Hl.
    apply (Rmult_lt_reg_r (F2R (Zpos my) ey)); [assumption|].
    rewrite Ha, <- F2R_mul. apply F2R_lt_mono. nia.
Qed.

Lemma SFdiv_range x y lo hi :
  finite_in prec emax x -> finite_in prec emax y ->
  (B2R x <> 0)%R -> (B2R y <> 0)%R ->
  representable prec emax lo -> representable prec emax hi ->
  (0 < lo \/ hi < 0)%R ->
  (lo <= B2R x / B2R y <= hi)%R ->
  finite_in prec emax (SFdiv prec emax x y) /\
  (lo <= B2R (SFdiv prec emax x y) <= hi)%R.
Proof.
  intros [Hvx Hfx] [Hvy Hfy] Hx0 Hy0 Hlo Hhi Hsign Hr.
  destruct x as [sx|sx| |sx mx ex], y as [sy|sy| |sy my ey];
    try discriminate Hfx; try discriminate Hfy; cbn [B2R] in Hx0, Hy0; try lra.
  cbn [SFdiv valid_binary] in *.
  pose proof (F2R_pos (Zpos mx) ex ltac:(lia)) as Hxpos.
  pose proof (F2R_pos (Zpos my) ey ltac:(lia)) as Hypos.
  set (a := (F2R (Zpos mx) ex / F2R (Zpos my) ey)%R).
  assert (Hapos : (0 < a)%R) by (apply Rdiv_lt_0_compat; assumption).
  assert (Hv : (B2R (S754_finite sx mx ex) / B2R (S754_finite sy my ey)
                = if xorb sx sy then - a else a)%R).
  { rewrite !B2R_finite, !F2R_cond_Zopp. subst a.
    destruct sx, sy; cbn [xorb]; field; lra. }
  rewrite Hv in Hr.
  assert (Hmin : (powerRZ 2 (emin prec emax) <= a)%R).
  { destruct Hsign as [Hs|Hs].
    - destruct (representable_pos lo Hlo Hs) as (ml & el & Hbl & ->).
      pose proof (bounded_ge_min ml el Hbl). destruct (xorb sx sy); lra.
    - destruct (representable_pos (- hi) (representable_opp hi Hhi) ltac:(lra))
        as (mh & eh & Hbh & Hh).
      pose proof (bounded_ge_min mh eh Hbh). destruct (xorb sx sy); lra. }
  destruct (SFdiv_core_binary prec emax (Zpos mx) ex (Zpos my) ey) as [[q e'] l] eqn:Hcore.
  destruct (SFdiv_core_spec mx ex my ey q e' l Hcore Hmin) as (Hq & He' & Hqa & Hl).
  apply round_aux_range with (a := a); assumption.
Qed.

(** *** Values that need no rounding *)

Lemma representable_small m e :
  Zpos (digits2_pos m) <= prec -> emin prec emax <= e -> e <= emax - prec ->
  representable prec emax (F2R (Zpos m) e).
Proof.
  intros Hd He1 He2.
  pose proof (shl_align_spec m e (fexp prec emax (Zpos (digits2_pos m) + e))) as [He Hm].
  destruct (shl_align m e (fexp prec emax (Zpos (digits2_pos m) + e))) as [mz ez].
  cbn [fst snd] in He, Hm. rewrite <- He in Hm.
  assert (Hez : ez = fexp prec emax (Zpos (digits2_pos m) + e)) by (unfold fexp in *; lia).
  exists (S754_finite false mz ez). split.
  - apply fin_finite, bounded_iff. split; [|lia].
    change (Zpos (digits2_pos mz)) with (Zdigits2 (Zpos mz)).
    rewrite Hm, Zdigits2_mul_pow2 by lia. cbn [Zdigits2].
    replace (Zpos (digits2_pos m) + (e - ez) + ez) with (Zpos (digits2_pos m) + e) by lia.
    symmetry. exact Hez.
  - cbn [B2R cond_Zopp]. rewrite Hm. symmetry. apply F2R_shift. lia.
Qed.

Lemma binary_round_exact s m e :
  Zpos (digits2_pos m) <= prec -> emin prec emax <= e -> e <= emax - prec ->
  finite_in prec emax (binary_round prec emax s m e) /\
  B2R (binary_round prec emax s m e) = F2R (cond_Zopp s (Zpos m)) e.
Proof.
  intros Hd He1 He2.
  assert (Hrep : representable prec emax (F2R (cond_Zopp s (Zpos m)) e)).
  { rewrite F2R_cond_Zopp. destruct s; [apply representable_opp|];
      apply representable_small; assumption. }
  destruct (binary_round_range s m e _ _ Hrep Hrep ltac:(lra)) as [Hf Hr].
  split; [exact Hf|lra].
Qed.

(** *** Comparisons *)

Lemma bounded_exponent_lt m1 e1 m2 e2 :
  SpecFloat.bounded prec emax m1 e1 = true -> SpecFloat.bounded prec emax m2 e2 = true ->
  e1 < e2 -> (F2R (Zpos m1) e1 < F2R (Zpos m2) e2)%R.
Proof.
  intros [H1 _]%bounded_iff [H2 _]%bounded_iff Hlt.
  pose proof (F2R_digits (Zpos m1) e1 ltac:(lia)) as [_ A1].
  pose proof (F2R_digits (Zpos m2) e2 ltac:(lia)) as [A2 _]. cbn [Zdigits2] in *.
  pose proof (powerRZ_2_le (Zpos (digits2_pos m1) + e1) (Zpos (digits2_pos m2) - 1 + e2)
                ltac:(unfold fexp in *; lia)).
  lra.
Qed.

Lemma bounded_compare m1 e1 m2 e2 :
  SpecFloat.bounded prec emax m1 e1 = true -> SpecFloat.bounded prec emax m2 e2 = true ->
  cmp_spec (match Z.compare e1 e2 with
            | Lt => Lt
            | Gt => Gt
            | Eq => Pos.compare_cont Eq m1 m2
            end) (F2R (Zpos m1) e1) (F2R (Zpos m2) e2).
Proof.
  intros H1 H2. destruct (Z.compare_spec e1 e2) as [->|Hlt|Hgt].
  - change (Pos.compare_cont Eq m1 m2) with (Pos.compare m1 m2).
    destruct (Pos.compare_spec m1 m2) as [->|Hlt|Hgt]; cbn.
    + reflexivity.
    + apply F2R_lt_mono. lia.
    + apply F2R_lt_mono. lia.
  - cbn. apply bounded_exponent_lt; assumption.
  - cbn. apply bounded_exponent_lt; assumption.
Qed.

Lemma SFcompare_spec x y :
  finite_in prec emax x -> finite_in prec emax y ->
  exists c, SFcompare x y = Some c /\ cmp_spec c (B2R x) (B2R y).
Proof.
  intros [Hvx Hfx] [Hvy Hfy].
  destruct x as [sx|sx| |sx mx ex], y as [sy|sy| |sy my ey];
    try discriminate Hfx; try discriminate Hfy; cbn [SFcompare B2R valid_binary] in *.
  - exists Eq. split; [reflexivity|]. reflexivity.
  - pose proof (F2R_pos (Zpos my) ey ltac:(lia)).
    destruct sy; eexists; (split; [reflexivity|]); cbn [cond_Zopp cmp_spec].
    + change (Z.neg my) with (- Zpos my). rewrite F2R_opp. lra.
    + lra.
  - pose proof (F2R_pos (Zpos mx) ex ltac:(lia)).
    destruct sx; eexists; (split; [reflexivity|]); cbn [cond_Zopp cmp_spec].
    + change (Z.neg mx) with (- Zpos mx). rewrite F2R_opp. lra.
    + lra.
  - pose proof (F2R_pos (Zpos mx) ex ltac:(lia)).
    pose proof (F2R_pos (Zpos my) ey ltac:(lia)).
    pose proof (bounded_compare mx ex my ey Hvx Hvy) as Hc.
    rewrite !F2R_cond_Zopp.
    destruct sx, sy; eexists; (split; [reflexivity|]).
    + destruct (Z.compare ex ey); [destruct (Pos.compare_cont Eq mx my)| |];
        cbn in *; lra.
    + cbn. lra.
    + cbn. lra.
    + exact Hc.
Qed.

End Format.

(** ** The two formats of the program *)

Lemma F32_prec_pos : 0 < F32.prec. Proof. reflexivity. Qed.
Lemma F32_prec_emax : F32.prec < F32.emax. Proof. reflexivity. Qed.
Lemma F64_prec_pos : 0 < F64.prec. Proof. reflexivity. Qed.
Lemma F64_prec_emax : F64.prec < F64.emax. Proof. reflexivity. Qed.

Lemma F2R_int k e : e <= 0 -> F2R (k * 2 ^ (- e)) e = IZR k.
Proof.
  intros H. replace (- e) with (0 - e) by lia. rewrite <- (F2R_shift k 0 e H).
  unfold F2R. cbn [powerRZ]. lra.
Qed.

Lemma F2R_int_up m e : 0 <= e -> F2R m e = IZR (m * 2 ^ e).
Proof.
  intros H. rewrite (F2R_shift m e 0 H), Z.sub_0_r. unfold F2R. cbn [powerRZ]. lra.
Qed.

(** The value of a [float] is the value of its [double]. *)
Lemma of_float_exact x :
  finite_in F32.prec F32.emax x ->
  finite_in F64.prec F64.emax (F64.of_float x) /\ B2R (F64.of_float x) = B2R x.
Proof.
  intros [Hv Hf]. destruct x as [s|s| |s m e]; try discriminate Hf; cbn [F64.of_float].
  - split; [apply fin_zero|reflexivity].
  - cbn [valid_binary] in Hv. apply bounded_iff in Hv as [Hc Hmax].
    pose proof (fexp_ge_emin F32.prec F32.emax (Zpos (digits2_pos m) + e)) as Hmin.
    apply (binary_round_exact F64.prec F64.emax F64_prec_pos);
      unfold fexp, emin, F32.prec, F32.emax, F64.prec, F64.emax in *; lia.
Qed.

Lemma SFleb_iff x y :
  finite_in F32.prec F32.emax x -> finite_in F32.prec F32.emax y ->
  (SFleb x y = true <-> (B2R x <= B2R y)%R).
Proof.
  intros Hx Hy.
  destruct (SFcompare_spec F32.prec F32.emax x y Hx Hy) as (c & Hc & Hs).
  unfold SFleb. rewrite Hc. destruct c; cbn in Hs; split; intros H; try reflexivity;
    try discriminate; lra.
Qed.

Lemma SFltb_iff x y :
  finite_in F32.prec F32.emax x -> finite_in F32.prec F32.emax y ->
  (SFltb x y = true <-> (B2R x < B2R y)%R).
Proof.
  intros Hx Hy.
  destruct (SFcompare_spec F32.prec F32.emax x y Hx Hy) as (c & Hc & Hs).
  unfold SFltb. rewrite Hc. destruct c; cbn in Hs; split; intros H; try reflexivity;
    try discriminate; lra.
Qed.

Lemma within_in_range lo hi x :
  finite_in F32.prec F32.emax lo -> finite_in F32.prec F32.emax hi ->
  (within lo hi x = true <-> in_range (B2R lo) (B2R hi) x).
Proof.
  intros Hlo Hhi. unfold within, in_range, finite_in, fle, F32.valid.
  rewrite !andb_true_iff. split.
  - intros [[[Hv Hf] H1] H2].
    apply SFleb_iff in H1; [|assumption|split; assumption].
    apply SFleb_iff in H2; [|split; assumption|assumption]. auto.
  - intros [[Hv Hf] [H1 H2]].
    repeat split; try assumption; apply SFleb_iff; try assumption; split; assumption.
Qed.

(** The [int] constants of the loop body as [float]s. *)
Lemma int_constant k :
  In k [-4; -3; -1; 0; 1; 2; 3; 4; 5; 9] ->
  finite_in F32.prec F32.emax (F32.of_int k) /\ B2R (F32.of_int k) = IZR k.
Proof.
  cbn [In]. intros H.
  repeat (destruct H as [<-|H];
          [split; [split; reflexivity|];
           match goal with
           | |- B2R (F32.of_int ?k) = _ =>
               let f := eval vm_compute in (F32.of_int k) in
               change (F32.of_int k) with f
           end|]); try contradiction.
  all: try (cbn [B2R]; lra).
  all: cbn [B2R cond_Zopp Z.opp];
    match goal with
    | |- F2R ?m ?e = IZR ?k =>
        first [ change m with (k * 2 ^ (- e)); apply F2R_int; lia
              | rewrite F2R_int_up by lia; reflexivity ]
    end.
Qed.

Lemma representable_int k :
  In k [-4; -3; -1; 0; 1; 2; 3; 4; 5; 9] ->
  representable F32.prec F32.emax (IZR k).
Proof. intros H. destruct (int_constant k H) as [Hf Hv]. exists (F32.of_int k). auto. Qed.

(** Every integer below [2^24] in magnitude is a [float]. *)
Lemma representable_Z k :
  Z.abs k < 2 ^ 24 -> representable F32.prec F32.emax (IZR k).
Proof.
  assert (Hpos : forall m, Zpos m < 2 ^ 24 -> representable F32.prec F32.emax (IZR (Zpos m))).
  { intros m Hm. replace (IZR (Zpos m)) with (F2R (Zpos m) 0)
      by (rewrite F2R_int_up by lia; f_equal; lia).
    apply representable_small; [|cbv; congruence..].
    pose proof (digits2_pos_bounds m) as [H1 _].
    assert (Zpos (digits2_pos m) - 1 < 24) by (apply (Z.pow_lt_mono_r_iff 2); lia).
    unfold F32.prec. lia. }
  intros H. destruct k as [|m|m].
  - apply representable_0.
  - apply Hpos. lia.
  - change (Z.neg m) with (- Zpos m). rewrite opp_IZR. apply representable_opp, Hpos. lia.
Qed.

Lemma of_int_exact k :
  Z.abs k < 2 ^ 24 ->
  finite_in F32.prec F32.emax (F32.of_int k) /\ B2R (F32.of_int k) = IZR k.
Proof.
  intros H. pose proof (representable_Z k H) as Hrep. unfold F32.of_int.
  destruct (binary_normalize_range F32.prec F32.emax F32_prec_pos k 0 false _ _ Hrep Hrep)
    as [Hf Hr].
  - rewrite F2R_int_up, Z.pow_0_r, Z.mul_1_r by lia. lra.
  - split; [exact Hf|]. lra.
Qed.

(** *** Conversion to [int] *)

Lemma shiftl_floor m e :
  (IZR (Z.shiftl (Zpos m) e) <= F2R (Zpos m) e < IZR (Z.shiftl (Zpos m) e + 1))%R.
Proof.
  destruct (Z.le_gt_cases 0 e) as [He|He].
  - rewrite Z.shiftl_mul_pow2, F2R_int_up by lia. rewrite plus_IZR. lra.
  - rewrite Z.shiftl_div_pow2 by lia.
    assert (Hp : 0 < 2 ^ (- e)) by (apply Z.pow_pos_nonneg; lia).
    pose proof (Z.div_mod (Zpos m) (2 ^ (- e)) ltac:(lia)) as Hdm.
    pose proof (Z.mod_pos_bound (Zpos m) (2 ^ (- e)) Hp) as Hmod.
    set (q := Zpos m / 2 ^ (- e)) in *.
    rewrite <- (F2R_int q e), <- (F2R_int (q + 1) e) by lia.
    split; [apply F2R_le_mono|apply F2R_lt_mono]; lia.
Qed.

(** A finite value between two integers of the [int] range converts to an
    integer between them. *)
Lemma to_int_in_range x lo hi :
  finite_in F32.prec F32.emax x -> (IZR lo <= B2R x <= IZR hi)%R ->
  INT_MIN <= lo -> hi <= INT_MAX ->
  exists v, to_int x = Ok v /\ lo <= v <= hi.
Proof.
  intros [Hv Hf] Hr Hlo Hhi. unfold to_int.
  assert (Hok : forall v, lo <= v <= hi ->
            (if (INT_MIN <=? v) && (v <=? INT_MAX) then Ok v else Fault ConvRange) = Ok v).
  { intros v Hvr. destruct (Z.leb_spec INT_MIN v); [|lia].
    destruct (Z.leb_spec v INT_MAX); [reflexivity|lia]. }
  destruct x as [s|s| |s m e]; try discriminate Hf; cbn [trunc].
  - cbn [B2R] in Hr. assert (lo <= 0 <= hi) by (split; apply le_IZR; lra).
    exists 0. rewrite Hok by assumption. auto.
  - rewrite B2R_finite, F2R_cond_Zopp in Hr.
    pose proof (shiftl_floor m e) as [Hfl1 Hfl2]. rewrite plus_IZR in Hfl2.
    set (fl := Z.shiftl (Zpos m) e) in *.
    assert (Hrange : lo <= cond_Zopp s fl <= hi).
    { destruct s; cbn [cond_Zopp].
      - split.
        + apply le_IZR. rewrite opp_IZR. lra.
        + assert (- hi < fl + 1); [|lia]. apply lt_IZR. rewrite plus_IZR, opp_IZR. lra.
      - split.
        + assert (lo < fl + 1); [|lia]. apply lt_IZR. rewrite plus_IZR. lra.
        + apply le_IZR. lra. }
    exists (cond_Zopp s fl). rewrite Hok by assumption. auto.
Qed.

(** ** Glyph selection *)

Lemma ramp_index_max N : ramp_index N = Z.max N 0.
Proof. unfold ramp_index. destruct (Z.gtb_spec N 0); lia. Qed.

Lemma glyph_in_ramp N :
  N <= 11 ->
  exists ch, glyph N = Ok ch /\ String.get (Z.to_nat (Z.max N 0)) ramp = Some ch /\
             In ch ramp_glyphs.
Proof.
  intros H. unfold glyph. rewrite ramp_index_max.
  assert (Hk : exists k, (k < 12)%nat /\ Z.max N 0 = Z.of_nat k).
  { exists (Z.to_nat (Z.max N 0)). lia. }
  destruct Hk as (k & Hk & ->).
  do 12 (destruct k as [|k]; [vm_compute; eexists; split; [reflexivity|]; split;
                              [reflexivity|tauto]|]).
  lia.
Qed.

(** What [plot] does to a cell whose depth test the sample passes. *)
Lemma plot_overwrites s st zo ch :
  well_sized st ->
  on_screen (s_x s) (s_y s) = true ->
  z st !! Z.to_nat (offset (s_x s) (s_y s)) = Some zo ->
  fgt (s_D s) zo = true ->
  glyph (s_N s) = Ok ch ->
  plot s st = Ok (Frame (<[Z.to_nat (offset (s_x s) (s_y s)) := s_D s]> (z st))
                        (<[Z.to_nat (offset (s_x s) (s_y s)) := ch]> (b st))).
Proof.
  intros [Hz Hb] Hon Hzo Hgt Hg. unfold plot. rewrite Hon.
  destruct (offset_on_screen _ _ Hon) as [_ Ho].
  destruct (load_in_range (z st) (offset (s_x s) (s_y s))) as (zo' & -> & Hzo');
    [rewrite Hz; unfold CELLS; lia|].
  assert (zo' = zo) as -> by congruence. cbn [rbind]. rewrite Hgt.
  rewrite store_in_range by (rewrite Hz; unfold CELLS; lia). cbn [rbind].
  rewrite Hg. cbn [rbind].
  rewrite store_in_range by (rewrite Hb; unfold CELLS; lia). reflexivity.
Qed.

(** The glyph written is the ramp indexed by [max(N, 0)]: a negative or
    zero [N] gives index 0; for [N <= 11] the index is at most 11 and the
    character stored is one of the twelve glyphs. *)
Lemma plot_glyph_in_ramp (s : sample) (st : frame) (zo : spec_float) :
  s_N s <= 11 ->
  well_sized st ->
  on_screen (s_x s) (s_y s) = true ->
  z st !! Z.to_nat (offset (s_x s) (s_y s)) = Some zo ->
  fgt (s_D s) zo = true ->
  ramp_index (s_N s) = Z.max (s_N s) 0 /\
  (s_N s <= 0 -> ramp_index (s_N s) = 0) /\
  0 <= ramp_index (s_N s) <= 11 /\
  exists ch st',
    String.get (Z.to_nat (Z.max (s_N s) 0)) ramp = Some ch /\
    In ch ramp_glyphs /\
    plot s st = Ok st' /\
    b st' !! Z.to_nat (offset (s_x s) (s_y s)) = Some ch.
Proof.
  intros HN Hwf Hon Hzo Hgt.
  split; [apply ramp_index_max|]. split; [rewrite ramp_index_max; lia|].
  split; [rewrite ramp_index_max; lia|].
  destruct (glyph_in_ramp _ HN) as (ch & Hg & Hget & Hin).
  exists ch. eexists. split; [exact Hget|]. split; [exact Hin|].
  split; [eapply plot_overwrites; eassumption|].
  cbn. apply list_lookup_insert_eq.
  destruct Hwf as [_ ->]. destruct (offset_on_screen _ _ Hon) as [_ Ho].
  unfold CELLS. lia.
Qed.

(** The index expression itself has no upper clamp: a luminance of 12
    would select the terminator of the literal, and one of 13 would index
    past it.  The ramp is safe because the luminance stays below 12, see
    [sample_luminance]. *)
Remark ramp_index_has_no_clamp :
  ramp_index 12 = 12 /\
  glyph 12 = Ok NUL /\
  ~ In NUL ramp_glyphs /\
  glyph 13 = Fault RampIndex /\
  (exists st', plot (Sample 1 1 (#1)%f32 12) clear = Ok st' /\ b st' !! 81%nat = Some NUL).
Proof.
  split; [reflexivity|]. split; [reflexivity|].
  split; [vm_compute; intuition discriminate|]. split; [reflexivity|].
  eexists. split; [vm_compute; reflexivity|]. vm_compute. reflexivity.
Qed.

(** ** Colour names *)

Lemma streq_true a b : streq a b = true <-> a = b.
Proof. apply String.eqb_eq. Qed.



Lemma fuchsia_not_recognized : ~ recognized "fuchsia".
Proof. intros [c [H|H]]; destruct c; discriminate H. Qed.


Section Startup.

Variables sin cos : spec_float -> spec_float.
Variable strtof : string -> spec_float * string.
Variables EAGAIN EWOULDBLOCK : Z.



End Startup.

(** ** Speed factor and sleep *)

Lemma trunc_finite_floor s m e :
  trunc (S754_finite s m e) =
    Some (cond_Zopp s (Zpos m * 2 ^ Z.max e 0 / 2 ^ Z.max (- e) 0)).
Proof.
  cbn [trunc]. f_equal. f_equal.
  destruct (Z.le_gt_cases 0 e).
  - rewrite Z.shiftl_mul_pow2 by lia.
    replace (Z.max e 0) with e by lia. replace (Z.max (- e) 0) with 0 by lia.
    rewrite Z.pow_0_r, Z.div_1_r. reflexivity.
  - rewrite Z.shiftl_div_pow2 by lia.
    replace (Z.max e 0) with 0 by lia. replace (Z.max (- e) 0) with (- e) by lia.
    rewrite Z.pow_0_r, Z.mul_1_r. reflexivity.
Qed.

(** C5, as the code has it: for a speed factor of 2 the [float] quotient
    [baseSleep / speedFactor] is exactly 16666.5, half of 33333, and
    [usleep] receives that quotient converted to an integer, 16666; in
    general [usleep] receives the binary32 quotient truncated toward
    zero. *)
Theorem C5_sleep_is_truncated_quotient (speedFactor : spec_float) (m : positive) (e : Z) :
  sleep_quotient speedFactor = S754_finite false m e ->
  Zpos m * 2 ^ Z.max e 0 / 2 ^ Z.max (- e) 0 <= UINT_MAX ->
  sleep_us speedFactor = Ok (Zpos m * 2 ^ Z.max e 0 / 2 ^ Z.max (- e) 0) /\
  sleep_quotient (#2)%f32 = S754_finite false 8533248 (-9) /\
  2 * 8533248 = baseSleep * 2 ^ 9 /\
  sleep_us (#2)%f32 = Ok 16666.
Proof.
  intros Hq Hmax. split; [|repeat split; reflexivity].
  unfold sleep_us, to_useconds. rewrite Hq, trunc_finite_floor. cbn [cond_Zopp].
  set (v := Zpos m * 2 ^ Z.max e 0 / 2 ^ Z.max (- e) 0) in *.
  assert (0 <= v).
  { subst v. apply Z.div_pos; [|apply Z.pow_pos_nonneg; lia].
    apply Z.mul_nonneg_nonneg; [lia|]. apply Z.pow_nonneg. lia. }
  destruct (Z.leb_spec 0 v); [|lia]. destruct (Z.leb_spec v UINT_MAX); [|lia].
  reflexivity.
Qed.

(** C5 as stated fails: with a speed factor of 2, [usleep] is called with
    16666, and twice that is not the baseline of 33333. *)
Lemma C5_sleep_is_not_exactly_half :
  sleep_us (#2)%f32 = Ok 16666 /\ 2 * 16666 <> baseSleep.
Proof. split; [reflexivity|discriminate]. Qed.

(** ** The speed factor given on the command line *)

Section SpeedArgument.

Variable strtof : string -> spec_float * string.

(** C10: when [strtof] consumes the whole argument and returns a NaN,
    the check [*endptr != '\0' || speedFactor <= 0] is false: there is no
    warning, no fallback to 1.0, and the speed factor the loop divides by
    is the NaN, so that [baseSleep / speedFactor] is a NaN too. *)
Theorem C10_nan_speed_factor_is_accepted (argv0 color speed : string) :
  strtof speed = (S754_nan, "") ->
  streq color "-h" = false ->
  streq color "--help" = false ->
  negb (Ascii.eqb (deref "") NUL) || fle S754_nan (#0)%f32 = false /\
  parse_speed strtof speed = (S754_nan, []) /\
  parse_args strtof [argv0; color; speed] = Configured (Settings color S754_nan) [] /\
  is_nan (sleep_quotient S754_nan) = true /\
  sleep_us S754_nan = Fault ConvRange.
Proof.
  intros Hs H1 H2.
  assert (Hp : parse_speed strtof speed = (S754_nan, [])).
  { unfold parse_speed. rewrite Hs. reflexivity. }
  split; [reflexivity|]. split; [exact Hp|]. split; [|split; reflexivity].
  unfold parse_args, arg. cbn [length Nat.ltb Nat.leb]. cbn.
  unfold streq in *. rewrite H1, H2. cbn.
  rewrite Hp. reflexivity.
Qed.

End SpeedArgument.

(** ** Exit status *)

Section ExitStatus.

Variables sin cos : spec_float -> spec_float.
Variable strtof : string -> spec_float * string.
Variables EAGAIN EWOULDBLOCK : Z.

Lemma main_loop_exit_status cfg pal reads :
  forall A B trace status trace',
    main_loop sin cos EAGAIN EWOULDBLOCK cfg pal reads A B trace = Exit status trace' ->
    status = 0.
Proof.
  induction reads as [|r reads IH]; intros A B trace status trace'; cbn [main_loop].
  - discriminate.
  - destruct (poll EAGAIN EWOULDBLOCK r).
    + destruct (advance sin cos cfg pal A B) as [evs [[A' B']|f]].
      * apply IH.
      * discriminate.
    + intros [= <- _]. reflexivity.
    + intros [= <- _]. reflexivity.
Qed.

Lemma poll_quit_key c :
  c = "q"%char \/ c = "Q"%char \/ c = ESC ->
  poll EAGAIN EWOULDBLOCK (ReadByte c) = QuitKey.
Proof. intros [->|[->| ->]]; reflexivity. Qed.

Lemma poll_read_error errno :
  errno <> EAGAIN -> errno <> EWOULDBLOCK ->
  poll EAGAIN EWOULDBLOCK (ReadError errno) = QuitError.
Proof.
  intros H1 H2. cbn.
  destruct (Z.eqb_spec errno EAGAIN); [contradiction|].
  destruct (Z.eqb_spec errno EWOULDBLOCK); [contradiction|]. reflexivity.
Qed.



End ExitStatus.


(** ** The sampling loops end *)

(** A loop that stops before its fuel is spent visits the same values with
    any larger fuel. *)
Lemma loop_values_fuel limit step n :
  forall v k, (length (loop_values n limit step v) < n)%nat ->
    loop_values (n + k) limit step v = loop_values n limit step v.
Proof.
  induction n as [|n IH]; intros v k; cbn [loop_values length Nat.add]; [lia|].
  destruct (fgt limit (F64.of_float v)); [|reflexivity].
  cbn [length]. intros H. rewrite IH by lia. reflexivity.
Qed.

Lemma loops_terminate :
  length j_values = 90%nat /\ length i_values = 315%nat /\
  (forall k, loop_values (LOOP_FUEL + k) (F64.literal 628 2) (F64.literal 7 2) fzero = j_values) /\
  (forall k, loop_values (LOOP_FUEL + k) (F64.literal 628 2) (F64.literal 2 2) fzero = i_values).
Proof.
  assert (Hj : length j_values = 90%nat) by (vm_compute; reflexivity).
  assert (Hi : length i_values = 315%nat) by (vm_compute; reflexivity).
  split; [exact Hj|]. split; [exact Hi|].
  split; intros k; apply loop_values_fuel; fold j_values; fold i_values;
    rewrite ?Hj, ?Hi; unfold LOOP_FUEL; lia.
Qed.

(** ** The angles *)

Section Angles.

Variables sin cos : spec_float -> spec_float.

Lemma advance_ok cfg pal A B evs A' B' :
  advance sin cos cfg pal A B = (evs, Ok (A', B')) ->
  A' = next_A A /\ B' = next_B B /\
  exists fr out us,
    render sin cos A B = Ok fr /\ emit_frame pal (b fr) = Ok out /\
    sleep_us (speedFactor cfg) = Ok us /\ evs = [Stdout out; Usleep us].
Proof.
  unfold advance.
  destruct (render sin cos A B) as [fr|] eqn:Hr; [|discriminate].
  destruct (emit_frame pal (b fr)) as [out|] eqn:He; [|discriminate].
  destruct (sleep_us (speedFactor cfg)) as [us|] eqn:Hs; [|discriminate].
  intros [= <- <- <-]. split; [reflexivity|]. split; [reflexivity|].
  exists fr, out, us. auto.
Qed.

End Angles.

(** C6 as stated fails: the step is a [float] addition.  From a zero angle
    the first frame leaves [A] at the [float] nearest to 0.04, which is
    below the constant 0.04; and at [A = 2^20] and [B = 2^19] the sum
    rounds back to the old angle, which then stays where it is. *)
Lemma C6_steps_are_rounded :
  next_A fzero = S754_finite false 10737418 (-28) /\
  SFltb (F64.of_float (next_A fzero)) (F64.literal 4 2) = true /\
  next_A (#1048576)%f32 = (#1048576)%f32 /\
  next_B (#524288)%f32 = (#524288)%f32.
Proof. repeat split; vm_compute; reflexivity. Qed.

(** ** Frame emission *)

Lemma emit_position_shown pal (b : list ascii) k :
  length b = CELLS -> 0 <= k <= 1760 ->
  emit_position pal b k = Ok (shown pal b k).
Proof.
  intros Hb Hk. unfold emit_position, shown.
  destruct (Z.eqb_spec (k mod 80) 0) as [|Hm]; [reflexivity|].
  assert (k <> 1760) by (intros ->; apply Hm; reflexivity).
  destruct (Z.ltb_spec k 1760); [|lia].
  destruct (load_in_range b k) as (ch & -> & ->); [rewrite Hb; unfold CELLS; lia|].
  reflexivity.
Qed.

Lemma emit_all_shown pal (b : list ascii) ks :
  length b = CELLS -> Forall (fun k => 0 <= k <= 1760) ks ->
  emit_all pal b ks = Ok (shown pal b <$> ks).
Proof.
  intros Hb. induction 1 as [|k ks Hk _ IH]; [reflexivity|].
  cbn [emit_all]. rewrite emit_position_shown, IH by assumption. reflexivity.
Qed.

Lemma positions_range : Forall (fun k => 0 <= k <= 1760) positions.
Proof. apply Forall_forall. intros k Hk. apply elem_of_seqZ in Hk. lia. Qed.

Lemma tier_low pal ch : In ch (list_ascii_of_string low_glyphs) -> tier pal ch = pal0 pal.
Proof. cbn. intros [<-|[<-|[<-|[]]]]; reflexivity. Qed.

Lemma tier_medium pal ch : In ch (list_ascii_of_string medium_glyphs) -> tier pal ch = pal1 pal.
Proof. cbn. intros [<-|[<-|[<-|[<-|[]]]]]; reflexivity. Qed.

Lemma tier_high pal ch : In ch (list_ascii_of_string high_glyphs) -> tier pal ch = pal2 pal.
Proof. cbn. intros [<-|[<-|[<-|[<-|[<-|[]]]]]]; reflexivity. Qed.

(** C7, as the code has it: the emission loop visits 1761 positions; at
    the 23 positions that are multiples of 80 it prints a line break and no
    glyph, and at each of the other 1738 positions it prints the cell's
    character, prefixed by the palette entry of its intensity subset
    ([.,-] low, [~:;=] medium, [!*#$@] high) and followed by the reset
    code.  A blank cell gets the empty prefix. *)
Theorem C7_emission_breaks_replace_glyphs (pal : palette) (b : list ascii) :
  length b = CELLS ->
  length positions = 1761%nat /\
  length break_positions = 23%nat /\
  (forall ch, In ch (list_ascii_of_string low_glyphs) -> tier pal ch = pal0 pal) /\
  (forall ch, In ch (list_ascii_of_string medium_glyphs) -> tier pal ch = pal1 pal) /\
  (forall ch, In ch (list_ascii_of_string high_glyphs) -> tier pal ch = pal2 pal) /\
  tier pal SPACE = "" /\
  exists cells,
    emit_frame pal b = Ok (esc "[H" :: cells) /\
    length cells = 1761%nat /\
    (forall k, 0 <= k <= 1760 -> k mod 80 = 0 ->
       cells !! Z.to_nat k = Some (String LF "")) /\
    (forall k ch, 0 <= k < 1760 -> k mod 80 <> 0 -> b !! Z.to_nat k = Some ch ->
       cells !! Z.to_nat k = Some (tier pal ch ++ String ch (esc "[0m"))%string).
Proof.
  intros Hb. split; [reflexivity|]. split; [vm_compute; reflexivity|].
  split; [apply tier_low|]. split; [apply tier_medium|]. split; [apply tier_high|].
  split; [reflexivity|].
  exists (shown pal b <$> positions).
  split; [unfold emit_frame; rewrite emit_all_shown by auto using positions_range; reflexivity|].
  split; [rewrite length_fmap; reflexivity|].
  assert (Hpos : forall k, 0 <= k <= 1760 -> positions !! Z.to_nat k = Some k).
  { intros k Hk. apply lookup_seqZ. lia. }
  split.
  - intros k Hk Hm. rewrite list_lookup_fmap, Hpos by lia. cbn. unfold shown.
    rewrite Hm. reflexivity.
  - intros k ch Hk Hm Hch. rewrite list_lookup_fmap, Hpos by lia. cbn. unfold shown.
    destruct (Z.eqb_spec (k mod 80) 0); [contradiction|]. rewrite Hch. reflexivity.
Qed.

(** C7 as stated fails: at position 80 the loop prints only a line break,
    whatever glyph the cell holds. *)
Lemma C7_no_glyph_at_line_breaks :
  emit_position green_palette (replicate CELLS "@"%char) 80 = Ok (String LF "") /\
  colorized green_palette "@" <> String LF "".
Proof. split; [reflexivity|discriminate]. Qed.

(** ** The depth test, cell by cell *)

Lemma glyph_drawable s : drawable s -> glyph (s_N s) = Ok (glyph_of s).
Proof.
  unfold drawable, glyph_of, glyph. rewrite ramp_index_max. intros H.
  assert (Hk : exists k, (k < 13)%nat /\ Z.max (s_N s) 0 = Z.of_nat k).
  { exists (Z.to_nat (Z.max (s_N s) 0)). lia. }
  destruct Hk as (k & Hk & ->).
  do 13 (destruct k as [|k]; [reflexivity|]). lia.
Qed.

Lemma lands_spec o s :
  lands o s = true <-> on_screen (s_x s) (s_y s) = true /\ cell_of s = o.
Proof. unfold lands. rewrite andb_true_iff, Nat.eqb_eq. tauto. Qed.

Lemma lands_in_range o s : lands o s = true -> (o < CELLS)%nat.
Proof.
  intros [Hon <-]%lands_spec. destruct (offset_on_screen _ _ Hon) as [_ H].
  unfold cell_of, CELLS. lia.
Qed.

(** One call of [plot] is one [cell_step] on the cell the sample lands in,
    and nothing elsewhere. *)
Lemma plot_cells s st st' :
  well_sized st -> plot s st = Ok st' ->
  well_sized st' /\
  forall o d g, z st !! o = Some d -> b st !! o = Some g ->
    z st' !! o = Some (fst (if lands o s then cell_step s (d, g) else (d, g))) /\
    b st' !! o = Some (snd (if lands o s then cell_step s (d, g) else (d, g))).
Proof.
  intros Hwf Hp. pose proof Hwf as [Hz Hb].
  destruct (on_screen (s_x s) (s_y s)) eqn:Hon.
  - destruct (offset_on_screen _ _ Hon) as [_ Ho].
    destruct (lookup_lt_is_Some_2 (z st) (cell_of s)) as [zo Hzo];
      [rewrite Hz; unfold cell_of, CELLS; lia|].
    assert (Hload : load (z st) (offset (s_x s) (s_y s)) = Ok zo).
    { destruct (load_in_range (z st) (offset (s_x s) (s_y s))) as (zo' & -> & Hzo');
        [rewrite Hz; unfold CELLS; lia|].
      unfold cell_of in Hzo. congruence. }
    destruct (fgt (s_D s) zo) eqn:Hgt.
    + assert (Hg : glyph (s_N s) = Ok (glyph_of s)).
      { unfold glyph_of. destruct (glyph (s_N s)) as [ch|f] eqn:E; [reflexivity|].
        unfold plot in Hp. rewrite Hon, Hload in Hp. cbn [rbind] in Hp.
        rewrite Hgt, store_in_range in Hp by (rewrite Hz; unfold CELLS; lia).
        cbn [rbind] in Hp. rewrite E in Hp. discriminate Hp. }
      rewrite (plot_overwrites s st zo _ Hwf Hon Hzo Hgt Hg) in Hp.
      injection Hp as <-.
      split; [split; cbn; rewrite length_insert; assumption|].
      intros o d g Hd Hgl. unfold lands. rewrite Hon. cbn [andb z b].
      fold (cell_of s).
      destruct (Nat.eqb_spec (cell_of s) o) as [<-|Hne].
      * assert (d = zo) as -> by congruence.
        unfold cell_step. cbn [fst]. rewrite Hgt. cbn [fst snd].
        rewrite !list_lookup_insert_eq; [auto| |]; unfold cell_of, CELLS in *; lia.
      * rewrite !list_lookup_insert_ne by assumption. auto.
    + unfold plot in Hp. rewrite Hon, Hload in Hp. cbn [rbind] in Hp. rewrite Hgt in Hp.
      injection Hp as <-. split; [assumption|].
      intros o d g Hd Hgl. unfold lands. rewrite Hon. cbn [andb].
      destruct (Nat.eqb_spec (cell_of s) o) as [<-|Hne]; [|auto].
      assert (d = zo) as -> by congruence.
      unfold cell_step. cbn [fst]. rewrite Hgt. auto.
  - rewrite (plot_off_screen s st Hon) in Hp. injection Hp as <-.
    split; [assumption|].
    intros o d g Hd Hgl. unfold lands. rewrite Hon. auto.
Qed.

(** A sample whose luminance selects a character of the literal is always
    drawn without fault. *)
Lemma plot_defined s st :
  well_sized st -> drawable s -> exists st', plot s st = Ok st'.
Proof.
  intros Hwf Hdr. pose proof Hwf as [Hz Hb].
  destruct (on_screen (s_x s) (s_y s)) eqn:Hon; [|eauto using plot_off_screen].
  destruct (offset_on_screen _ _ Hon) as [_ Ho].
  destruct (lookup_lt_is_Some_2 (z st) (cell_of s)) as [zo Hzo];
    [rewrite Hz; unfold cell_of, CELLS; lia|].
  destruct (fgt (s_D s) zo) eqn:Hgt.
  - eexists. eapply plot_overwrites; eauto using glyph_drawable.
  - exists st. unfold plot. rewrite Hon.
    destruct (load_in_range (z st) (offset (s_x s) (s_y s))) as (zo' & -> & Hzo');
      [rewrite Hz; unfold CELLS; lia|].
    assert (zo' = zo) as -> by (unfold cell_of in Hzo; congruence).
    cbn [rbind]. rewrite Hgt. reflexivity.
Qed.

Lemma run_cells ss :
  forall st st', well_sized st -> run ss st = Ok st' ->
    well_sized st' /\
    forall o d g, z st !! o = Some d -> b st !! o = Some g ->
      z st' !! o = Some (fst (cell_fold o ss (d, g))) /\
      b st' !! o = Some (snd (cell_fold o ss (d, g))).
Proof.
  induction ss as [|s ss IH]; intros st st' Hwf Hr.
  - injection Hr as <-. cbn. auto.
  - unfold run in Hr. cbn [foldM] in Hr.
    destruct (plot s st) as [st1|] eqn:Hp; [|discriminate]. cbn [rbind] in Hr.
    destruct (plot_cells s st st1 Hwf Hp) as [Hwf1 H1].
    destruct (IH st1 st' Hwf1 Hr) as [Hwf' H'].
    split; [assumption|].
    intros o d g Hd Hg. destruct (H1 o d g Hd Hg) as [Hz1 Hb1].
    specialize (H' o _ _ Hz1 Hb1). cbn [cell_fold fold_left].
    rewrite <- surjective_pairing in H'. exact H'.
Qed.

Lemma run_defined ss :
  forall st, well_sized st -> Forall drawable ss -> exists st', run ss st = Ok st'.
Proof.
  induction ss as [|s ss IH]; intros st Hwf Hdr.
  - exists st. reflexivity.
  - inversion Hdr as [|? ? Hs Hss]; subst.
    destruct (plot_defined s st Hwf Hs) as [st1 Hp].
    destruct (plot_cells s st st1 Hwf Hp) as [Hwf1 _].
    destruct (IH st1 Hwf1 Hss) as [st' Hr].
    exists st'. unfold run in *. cbn [foldM]. rewrite Hp. exact Hr.
Qed.

(** What a cell holds after the depth tests of a list of samples. *)
Lemma cell_fold_spec o ss :
  forall d0 g0,
    (cell_fold o ss (d0, g0) = (d0, g0) /\
     forall s, s ∈ ss -> lands o s = true -> fgt (s_D s) d0 = false) \/
    (exists s, s ∈ ss /\ lands o s = true /\
       cell_fold o ss (d0, g0) = (s_D s, glyph_of s) /\
       fgt (s_D s) d0 = true /\
       forall s', s' ∈ ss -> lands o s' = true -> fgt (s_D s') (s_D s) = false).
Proof.
  induction ss as [|s ss IH]; intros d0 g0.
  - left. split; [reflexivity|]. intros s Hs. inversion Hs.
  - cbn [cell_fold fold_left]. fold (cell_fold o ss).
    destruct (lands o s) eqn:Hl.
    + unfold cell_step. cbn [fst]. destruct (fgt (s_D s) d0) eqn:Hgt.
      * right. destruct (IH (s_D s) (glyph_of s)) as [[Heq Hle]|(s2 & Hin & Hl2 & Heq & Hgt2 & Hle)].
        -- exists s. split; [left|]. split; [assumption|]. split; [assumption|].
           split; [assumption|]. intros s' [->|Hs']%elem_of_cons Hl'; [apply SFltb_irrefl|auto].
        -- exists s2. split; [right; assumption|]. split; [assumption|].
           split; [assumption|]. split; [eapply SFltb_trans; eassumption|].
           intros s' [->|Hs']%elem_of_cons Hl'; [apply SFltb_asym; exact Hgt2|auto].
      * destruct (IH d0 g0) as [[Heq Hle]|(s2 & Hin & Hl2 & Heq & Hgt2 & Hle)].
        -- left. split; [assumption|].
           intros s' [->|Hs']%elem_of_cons Hl'; [assumption|auto].
        -- right. exists s2. split; [right; assumption|]. split; [assumption|].
           split; [assumption|]. split; [assumption|].
           intros s' [->|Hs']%elem_of_cons Hl'; [|auto].
           destruct (fgt (s_D s) (s_D s2)) eqn:E; [|reflexivity].
           unfold fgt in *. rewrite (SFltb_trans _ _ _ Hgt2 E) in Hgt. discriminate.
    + destruct (IH d0 g0) as [[Heq Hle]|(s2 & Hin & Hl2 & Heq & Hgt2 & Hle)].
      * left. split; [assumption|].
        intros s' [->|Hs']%elem_of_cons Hl'; [congruence|auto].
      * right. exists s2. split; [right; assumption|]. split; [assumption|].
        split; [assumption|]. split; [assumption|].
        intros s' [->|Hs']%elem_of_cons Hl'; [congruence|auto].
Qed.

Lemma cell_fold_clear o ss :
  cell_spec ss o (fst (cell_fold o ss (fzero, SPACE))) (snd (cell_fold o ss (fzero, SPACE))).
Proof.
  destruct (cell_fold_spec o ss fzero SPACE) as [[-> H]|(s & Hin & Hl & -> & Hgt & H)].
  - left. auto.
  - right. exists s. unfold nearest, above_zero. auto 10.
Qed.



Lemma clear_well_sized : well_sized clear.
Proof. split; apply length_replicate. Qed.

Lemma clear_lookup o :
  (o < CELLS)%nat -> z clear !! o = Some fzero /\ b clear !! o = Some SPACE.
Proof. intros H. split; apply lookup_replicate_2; exact H. Qed.

Lemma run_clear_cells ss fr :
  run ss clear = Ok fr ->
  well_sized fr /\
  forall o, (o < CELLS)%nat ->
    exists d g, z fr !! o = Some d /\ b fr !! o = Some g /\ cell_spec ss o d g.
Proof.
  intros Hr. destruct (run_cells ss clear fr clear_well_sized Hr) as [Hwf H].
  split; [assumption|].
  intros o Ho. destruct (clear_lookup o Ho) as [Hz Hb].
  destruct (H o _ _ Hz Hb) as [Hz' Hb'].
  eexists _, _. split; [exact Hz'|]. split; [exact Hb'|]. apply cell_fold_clear.
Qed.

Lemma run_clear_spec ss :
  Forall drawable ss ->
  exists fr, run ss clear = Ok fr /\ well_sized fr /\
    forall o, (o < CELLS)%nat ->
      exists d g, z fr !! o = Some d /\ b fr !! o = Some g /\ cell_spec ss o d g.
Proof.
  intros Hdr. destruct (run_defined ss clear clear_well_sized Hdr) as [fr Hr].
  exists fr. split; [exact Hr|]. apply run_clear_cells, Hr.
Qed.

(** ** The loops of [render] as a list of samples *)

Lemma foldM_app {T S} (f : T -> S -> result S) l1 l2 st :
  foldM f (l1 ++ l2) st = (try st' <- foldM f l1 st; foldM f l2 st').
Proof.
  revert st. induction l1 as [|t l1 IH]; intros st; [reflexivity|].
  cbn [foldM app]. destruct (f t st); cbn [rbind]; [apply IH|reflexivity].
Qed.

Lemma foldM_fmap {T U S} (f : U -> S -> result S) (g : T -> U) l st :
  foldM f (g <$> l) st = foldM (fun t => f (g t)) l st.
Proof.
  revert st. induction l as [|t l IH]; intros st; [reflexivity|].
  cbn [foldM fmap list_fmap]. destruct (f (g t) st); cbn [rbind]; [apply IH|reflexivity].
Qed.

Section Render.

Variables sin cos : spec_float -> spec_float.

Lemma nested_loops_grid A B jvs ivs st :
  foldM (fun j st => foldM (body sin cos A B j) ivs st) jvs st =
  foldM (fun ji st => body sin cos A B (fst ji) (snd ji) st)
        (j ← jvs; (fun i => (j, i)) <$> ivs) st.
Proof.
  revert st. induction jvs as [|j jvs IH]; intros st; [reflexivity|].
  cbn [foldM mbind list_bind]. rewrite foldM_app, foldM_fmap. cbn [fst snd].
  destruct (foldM (body sin cos A B j) ivs st); cbn [rbind]; [apply IH|reflexivity].
Qed.

Lemma body_collect A B l :
  forall ss st,
    collect (fun ji => project sin cos A B (snd ji) (fst ji)) l = Ok ss ->
    foldM (fun ji st => body sin cos A B (fst ji) (snd ji) st) l st = run ss st.
Proof.
  induction l as [|ji l IH]; intros ss st; cbn [collect foldM].
  - intros [= <-]. reflexivity.
  - unfold body at 1. destruct (project sin cos A B (snd ji) (fst ji)) as [s|]; [|discriminate].
    cbn [rbind].
    destruct (collect _ l) as [ss0|]; [|discriminate]. cbn [rbind]. intros [= <-].
    unfold run. cbn [foldM]. destruct (plot s st); cbn [rbind]; [|reflexivity].
    apply IH. reflexivity.
Qed.

(** [render] draws the samples of the frame in loop order. *)
Lemma render_run A B ss :
  samples sin cos A B = Ok ss -> render sin cos A B = run ss clear.
Proof.
  intros H. unfold render. rewrite nested_loops_grid. apply body_collect. exact H.
Qed.

End Render.



(** ** The range of the inverse depth *)

Lemma rep_int k :
  In k [-4; -3; -1; 0; 1; 2; 3; 4; 5; 9] ->
  representable F32.prec F32.emax (IZR k) /\ representable F32.prec F32.emax (- IZR k).
Proof.
  intros H. pose proof (representable_int k H). split; [assumption|].
  apply representable_opp. assumption.
Qed.

Ltac rep := first [ apply representable_Z; reflexivity
                  | apply representable_int; cbn; tauto ].

Lemma of_int_in_range k :
  Z.abs k < 2 ^ 24 -> in_range (IZR k) (IZR k) (F32.of_int k).
Proof. intros H. destruct (of_int_exact k H) as [Hf E]. split; [exact Hf|rewrite E; lra]. Qed.

Lemma int_in_range k :
  In k [-4; -3; -1; 0; 1; 2; 3; 4; 5; 9] ->
  in_range (IZR k) (IZR k) (F32.of_int k).
Proof. intros H. destruct (int_constant k H) as [Hf E]. split; [exact Hf|rewrite E; lra]. Qed.

Lemma unit_in_range x : within (#(-1))%f32 (#1)%f32 x = true <-> in_range (-1) 1 x.
Proof.
  destruct (int_constant (-1) ltac:(cbn; tauto)) as [H1 E1].
  destruct (int_constant 1 ltac:(cbn; tauto)) as [H2 E2].
  rewrite within_in_range, E1, E2 by assumption. reflexivity.
Qed.

Lemma mul_in_range x y a1 b1 a2 b2 lo hi :
  in_range a1 b1 x -> in_range a2 b2 y ->
  representable F32.prec F32.emax lo -> representable F32.prec F32.emax hi ->
  (forall u v, a1 <= u <= b1 -> a2 <= v <= b2 -> lo <= u * v <= hi)%R ->
  in_range lo hi (x * y)%f32.
Proof.
  intros [Hx Rx] [Hy Ry] Hlo Hhi H.
  apply (SFmul_range F32.prec F32.emax F32_prec_pos F32_prec_emax); auto.
Qed.

Lemma add_in_range x y a1 b1 a2 b2 lo hi :
  in_range a1 b1 x -> in_range a2 b2 y ->
  representable F32.prec F32.emax lo -> representable F32.prec F32.emax hi ->
  (lo <= a1 + a2)%R -> (b1 + b2 <= hi)%R ->
  in_range lo hi (x + y)%f32.
Proof.
  intros [Hx Rx] [Hy Ry] Hlo Hhi H1 H2.
  apply (SFadd_range F32.prec F32.emax F32_prec_pos); auto. lra.
Qed.

Lemma sub_in_range x y a1 b1 a2 b2 lo hi :
  in_range a1 b1 x -> in_range a2 b2 y ->
  representable F32.prec F32.emax lo -> representable F32.prec F32.emax hi ->
  (lo <= a1 - b2)%R -> (b1 - a2 <= hi)%R ->
  in_range lo hi (x - y)%f32.
Proof.
  intros [Hx Rx] [Hy Ry] Hlo Hhi H1 H2.
  apply (SFsub_range F32.prec F32.emax F32_prec_pos); auto. lra.
Qed.

Lemma in_range_weaken lo hi lo' hi' x :
  in_range lo hi x -> (lo' <= lo)%R -> (hi <= hi')%R -> in_range lo' hi' x.
Proof. intros [Hf Hr] H1 H2. split; [exact Hf|lra]. Qed.

Lemma sixteenth : representable F32.prec F32.emax (/ 16).
Proof.
  replace (/ 16)%R with (F2R 1 (-4)).
  - apply representable_small; cbv; congruence.
  - pose proof (F2R_int 1 (-4) ltac:(lia)) as H. change (1 * 2 ^ (- -4)) with 16 in H.
    unfold F2R in *. lra.
Qed.

(** [c * h * e + f * g + 5] lies in [1, 9] when [c], [e], [f], [g] lie
    in [-1, 1] and [h] in [1, 3]. *)
Lemma denominator_in_range c h e f g :
  in_range (-1) 1 c -> in_range 1 3 h -> in_range (-1) 1 e ->
  in_range (-1) 1 f -> in_range (-1) 1 g ->
  in_range 1 9 (denominator c h e f g).
Proof.
  intros Hc Hh He Hf Hg. unfold denominator.
  assert (Hch : in_range (-3) 3 (c * h)%f32).
  { eapply mul_in_range; [exact Hc|exact Hh|rep|rep|]. intros u v Hu Hv. nra. }
  assert (Hche : in_range (-3) 3 (c * h * e)%f32).
  { eapply mul_in_range; [exact Hch|exact He|rep|rep|]. intros u v Hu Hv. nra. }
  assert (Hfg : in_range (-1) 1 (f * g)%f32).
  { eapply mul_in_range; [exact Hf|exact Hg|rep|rep|]. intros u v Hu Hv. nra. }
  assert (Hs : in_range (-4) 4 (c * h * e + f * g)%f32).
  { eapply add_in_range; [exact Hche|exact Hfg|rep|rep|lra|lra]. }
  eapply add_in_range; [exact Hs|exact (int_in_range 5 ltac:(cbn; tauto))|rep|rep|lra|lra].
Qed.

(** [D = 1 / (c * h * e + f * g + 5)] is then finite, positive and at
    most 1. *)
Lemma inverse_depth_in_range den :
  in_range 1 9 den -> in_range (/ 16) 1 (#1 / den)%f32.
Proof.
  intros [Hd Rd]. destruct (int_constant 1 ltac:(cbn; tauto)) as [H1 E1].
  assert (Hq : (/ 16 <= B2R (#1)%f32 / B2R den <= 1)%R).
  { rewrite E1. set (d := B2R den) in *.
    assert (Hinv : (1 / d * d = 1)%R) by (field; lra).
    assert (Hpos : (0 < 1 / d)%R) by (apply Rdiv_lt_0_compat; lra).
    set (q := (1 / d)%R) in *. split; nra. }
  apply (SFdiv_range F32.prec F32.emax F32_prec_pos); auto.
  - rewrite E1. lra.
  - lra.
  - apply sixteenth.
  - rep.
  - left. lra.
Qed.

Lemma in_range_positive lo hi x :
  in_range lo hi x -> (0 < lo)%R -> fgt x fzero = true.
Proof.
  intros [Hf Hr] Hlo. unfold fgt. apply SFltb_iff; [apply fin_zero|exact Hf|].
  change (B2R fzero) with 0%R. lra.
Qed.

Lemma in_range_le_1 lo x : in_range lo 1 x -> fle x (#1)%f32 = true.
Proof.
  intros [Hf Hr]. destruct (int_constant 1 ltac:(cbn; tauto)) as [H1 E1].
  unfold fle. apply SFleb_iff; [exact Hf|exact H1|]. rewrite E1. lra.
Qed.

Lemma project_depth sin cos A B i j s :
  project sin cos A B i j = Ok s ->
  s_D s = (#1 / denominator (fsin sin i) (fcos cos j + #2)%f32 (fsin sin A)
                            (fsin sin j) (fcos cos A))%f32.
Proof.
  unfold project. cbv zeta.
  destruct (to_int _) as [x|]; [|discriminate]. cbn [rbind].
  destruct (to_int _) as [y|]; [|discriminate]. cbn [rbind].
  destruct (to_int _) as [N|]; [|discriminate]. cbn [rbind].
  intros [= <-]. reflexivity.
Qed.

Lemma collect_Forall {T U} (f : T -> result U) l :
  forall us, collect f l = Ok us ->
    Forall (fun u => exists t, t ∈ l /\ f t = Ok u) us.
Proof.
  induction l as [|t l IH]; cbn [collect]; intros us.
  - intros [= <-]. constructor.
  - destruct (f t) as [u|] eqn:E; [|discriminate]. cbn [rbind].
    destruct (collect f l) as [us0|]; [|discriminate]. cbn [rbind]. intros [= <-].
    constructor; [exists t; split; [left|exact E]|].
    eapply Forall_impl; [apply IH; reflexivity|].
    intros u' (t' & Ht' & Hu). exists t'. split; [right; exact Ht'|exact Hu].
Qed.

Lemma glyph_of_not_blank s : glyph_of s <> SPACE.
Proof.
  unfold glyph_of, glyph, literal_at. rewrite ramp_index_max.
  destruct (Z.ltb_spec (Z.max (s_N s) 0) 0); [discriminate|].
  destruct (Z_le_gt_dec (s_N s) 12) as [H12|H12].
  - assert (Hk : exists k, (k < 13)%nat /\ Z.max (s_N s) 0 = Z.of_nat k).
    { exists (Z.to_nat (Z.max (s_N s) 0)). lia. }
    destruct Hk as (k & Hk & ->).
    do 13 (destruct k as [|k]; [discriminate|]). lia.
  - assert (Hk : exists k, Z.to_nat (Z.max (s_N s) 0) = (13 + k)%nat).
    { exists (Z.to_nat (Z.max (s_N s) 0) - 13)%nat. lia. }
    destruct Hk as (k & ->). cbn [Nat.add String.get ramp].
    destruct (_ =? _); discriminate.
Qed.

Lemma collect_defined {T U} (f : T -> result U) l :
  (forall t, t ∈ l -> exists u, f t = Ok u) -> exists us, collect f l = Ok us.
Proof.
  induction l as [|t l IH]; intros Hf; [exists []; reflexivity|].
  destruct (Hf t) as [u Hu]; [left|].
  destruct IH as [us IH]; [intros t' Ht'; apply Hf; right; exact Ht'|].
  exists (u :: us). cbn [collect]. rewrite Hu, IH. reflexivity.
Qed.

Lemma finite32_spec v : finite32 v = true <-> finite_in F32.prec F32.emax v.
Proof. unfold finite32, finite_in, F32.valid. rewrite andb_true_iff. reflexivity. Qed.

(** The loop variables [j] and [i] are ordinary [float]s throughout. *)
Lemma grid_finite j i : (j, i) ∈ grid -> finite32 j = true /\ finite32 i = true.
Proof.
  assert (H : forallb (fun ji => finite32 (fst ji) && finite32 (snd ji)) grid = true)
    by (vm_compute; reflexivity).
  rewrite forallb_forall in H. intros Hin.
  apply list_elem_of_In, H in Hin. apply andb_true_iff in Hin. exact Hin.
Qed.

Section Depth.

Variables sin cos : spec_float -> spec_float.

(** For an ordinary argument (not a NaN, not an infinity) the C library
    returns sines and cosines between -1 and 1.  The arguments the
    program passes are ordinary: the loop variables by [grid_finite],
    the angles by [main_loop_defined]. *)
Hypothesis sin_unit :
  forall v, finite32 v = true -> within (#(-1))%f32 (#1)%f32 (fsin sin v) = true.
Hypothesis cos_unit :
  forall v, finite32 v = true -> within (#(-1))%f32 (#1)%f32 (fcos cos v) = true.

Lemma sin_in_range v : finite32 v = true -> in_range (-1) 1 (fsin sin v).
Proof. intros H. apply unit_in_range, sin_unit, H. Qed.

Lemma cos_in_range v : finite32 v = true -> in_range (-1) 1 (fcos cos v).
Proof. intros H. apply unit_in_range, cos_unit, H. Qed.

Lemma h_in_range j : finite32 j = true -> in_range 1 3 (fcos cos j + #2)%f32.
Proof.
  intros Fj. pose proof (cos_in_range j Fj) as Hd.
  eapply add_in_range; [exact Hd|exact (int_in_range 2 ltac:(cbn; tauto))|rep|rep|lra|lra].
Qed.

Lemma frame_denominator A i j :
  finite32 A = true -> finite32 i = true -> finite32 j = true ->
  in_range 1 9 (denominator (fsin sin i) (fcos cos j + #2)%f32 (fsin sin A)
                            (fsin sin j) (fcos cos A)).
Proof.
  intros FA Fi Fj.
  apply denominator_in_range; auto using sin_in_range, cos_in_range, h_in_range.
Qed.

Lemma sample_depth A B i j s :
  finite32 A = true -> finite32 i = true -> finite32 j = true ->
  project sin cos A B i j = Ok s -> in_range (/ 16) 1 (s_D s).
Proof.
  intros FA Fi Fj H. rewrite (project_depth _ _ _ _ _ _ _ H).
  apply inverse_depth_in_range, frame_denominator; assumption.
Qed.

(** At [A = B = 0], where [sin] and [cos] are exact, the first ring
    ([j = 0]) has one inverse depth, 1/5, for all its samples: samples
    of that ring that share a cell tie. *)
Lemma first_ring_ties i s :
  finite32 i = true ->
  sin fzero = fzero -> cos fzero = F64.of_int 1 ->
  project sin cos fzero fzero i fzero = Ok s -> s_D s = (#1 / #5)%f32.
Proof.
  intros Fi Hsin Hcos Hs. rewrite (project_depth _ _ _ _ _ _ _ Hs).
  assert (E0 : fsin sin fzero = fzero) by (unfold fsin; cbn [F64.of_float fzero]; rewrite Hsin; reflexivity).
  assert (E1 : fcos cos fzero = (#1)%f32) by (unfold fcos; cbn [F64.of_float fzero]; rewrite Hcos; reflexivity).
  rewrite E0, E1. change (#1 + #2)%f32 with (#3)%f32.
  pose proof (sin_in_range i Fi) as Hc.
  assert (Hch : in_range (-3) 3 (fsin sin i * #3)%f32).
  { eapply mul_in_range; [exact Hc|exact (of_int_in_range 3 eq_refl)|rep|rep|].
    intros u v Hu Hv. nra. }
  destruct Hch as [[_ Hfin] _]. unfold denominator.
  destruct (fsin sin i * #3)%f32 as [[]|[]| |[] m e]; try discriminate Hfin; reflexivity.
Qed.

(** No conversion to [int] in the loop body is out of range. *)
Lemma project_defined A B i j :
  finite32 A = true -> finite32 B = true -> finite32 i = true -> finite32 j = true ->
  exists s, project sin cos A B i j = Ok s /\
    -170 <= s_x s <= 250 /\ -93 <= s_y s <= 117 /\ -40 <= s_N s <= 40.
Proof.
  intros FA FB Fi Fj. unfold project. cbv zeta.
  pose proof (sin_in_range i Fi) as Hc.
  pose proof (cos_in_range j Fj) as Hd.
  pose proof (sin_in_range A FA) as He.
  pose proof (sin_in_range j Fj) as Hf.
  pose proof (cos_in_range A FA) as Hg.
  pose proof (cos_in_range i Fi) as Hl.
  pose proof (cos_in_range B FB) as Hm.
  pose proof (sin_in_range B FB) as Hn.
  pose proof (h_in_range j Fj) as Hh.
  pose proof (inverse_depth_in_range _ (frame_denominator A i j FA Fi Fj)) as HD.
  clear FA FB Fi Fj.
  set (c := fsin sin i) in *. set (d := fcos cos j) in *. set (e := fsin sin A) in *.
  set (f := fsin sin j) in *. set (g := fcos cos A) in *. set (l := fcos cos i) in *.
  set (m := fcos cos B) in *. set (n := fsin sin B) in *.
  set (h := (d + #2)%f32) in *.
  set (D := (#1 / denominator c h e f g)%f32) in *.
  assert (Hch : in_range (-3) 3 (c * h)%f32).
  { eapply mul_in_range; [exact Hc|exact Hh|rep|rep|]. intros u v Hu Hv. nra. }
  assert (Hchg : in_range (-3) 3 (c * h * g)%f32).
  { eapply mul_in_range; [exact Hch|exact Hg|rep|rep|]. intros u v Hu Hv. nra. }
  assert (Hfe : in_range (-1) 1 (f * e)%f32).
  { eapply mul_in_range; [exact Hf|exact He|rep|rep|]. intros u v Hu Hv. nra. }
  assert (Ht : in_range (-4) 4 (c * h * g - f * e)%f32).
  { eapply sub_in_range; [exact Hchg|exact Hfe|rep|rep|lra|lra]. }
  set (t := (c * h * g - f * e)%f32) in *.
  assert (Hlh : in_range (-3) 3 (l * h)%f32).
  { eapply mul_in_range; [exact Hl|exact Hh|rep|rep|]. intros u v Hu Hv. nra. }
  (* x *)
  assert (Hx : in_range (-170) 250 (#40 + #30 * D * (l * h * m - t * n))%f32).
  { assert (H1 : in_range (-3) 3 (l * h * m)%f32).
    { eapply mul_in_range; [exact Hlh|exact Hm|rep|rep|]. intros u v Hu Hv. nra. }
    assert (H2 : in_range (-4) 4 (t * n)%f32).
    { eapply mul_in_range; [exact Ht|exact Hn|rep|rep|]. intros u v Hu Hv. nra. }
    assert (H3 : in_range (-7) 7 (l * h * m - t * n)%f32).
    { eapply sub_in_range; [exact H1|exact H2|rep|rep|lra|lra]. }
    assert (H4 : in_range 0 30 (#30 * D)%f32).
    { eapply mul_in_range; [exact (of_int_in_range 30 eq_refl)|exact HD|rep|rep|].
      intros u v Hu Hv. nra. }
    assert (H5 : in_range (-210) 210 (#30 * D * (l * h * m - t * n))%f32).
    { eapply mul_in_range; [exact H4|exact H3|rep|rep|]. intros u v Hu Hv. nra. }
    eapply add_in_range; [exact (of_int_in_range 40 eq_refl)|exact H5|rep|rep|lra|lra]. }
  destruct Hx as [Hxf Hxr].
  destruct (to_int_in_range _ (-170) 250 Hxf Hxr) as (x & -> & Hxv); [cbv; congruence..|].
  cbn [rbind].
  (* y *)
  assert (Hy : in_range (-93) 117 (#12 + #15 * D * (l * h * n + t * m))%f32).
  { assert (H1 : in_range (-3) 3 (l * h * n)%f32).
    { eapply mul_in_range; [exact Hlh|exact Hn|rep|rep|]. intros u v Hu Hv. nra. }
    assert (H2 : in_range (-4) 4 (t * m)%f32).
    { eapply mul_in_range; [exact Ht|exact Hm|rep|rep|]. intros u v Hu Hv. nra. }
    assert (H3 : in_range (-7) 7 (l * h * n + t * m)%f32).
    { eapply add_in_range; [exact H1|exact H2|rep|rep|lra|lra]. }
    assert (H4 : in_range 0 15 (#15 * D)%f32).
    { eapply mul_in_range; [exact (of_int_in_range 15 eq_refl)|exact HD|rep|rep|].
      intros u v Hu Hv. nra. }
    assert (H5 : in_range (-105) 105 (#15 * D * (l * h * n + t * m))%f32).
    { eapply mul_in_range; [exact H4|exact H3|rep|rep|]. intros u v Hu Hv. nra. }
    eapply add_in_range; [exact (of_int_in_range 12 eq_refl)|exact H5|rep|rep|lra|lra]. }
  destruct Hy as [Hyf Hyr].
  destruct (to_int_in_range _ (-93) 117 Hyf Hyr) as (y & -> & Hyv); [cbv; congruence..|].
  cbn [rbind].
  (* N *)
  assert (HN : in_range (-40) 40
                 (#8 * ((f * e - c * d * g) * m - c * d * e - f * g - l * d * n))%f32).
  { assert (Hcd : in_range (-1) 1 (c * d)%f32).
    { eapply mul_in_range; [exact Hc|exact Hd|rep|rep|]. intros u v Hu Hv. nra. }
    assert (H1 : in_range (-1) 1 (c * d * g)%f32).
    { eapply mul_in_range; [exact Hcd|exact Hg|rep|rep|]. intros u v Hu Hv. nra. }
    assert (H2 : in_range (-2) 2 (f * e - c * d * g)%f32).
    { eapply sub_in_range; [exact Hfe|exact H1|rep|rep|lra|lra]. }
    assert (H3 : in_range (-2) 2 ((f * e - c * d * g) * m)%f32).
    { eapply mul_in_range; [exact H2|exact Hm|rep|rep|]. intros u v Hu Hv. nra. }
    assert (H4 : in_range (-1) 1 (c * d * e)%f32).
    { eapply mul_in_range; [exact Hcd|exact He|rep|rep|]. intros u v Hu Hv. nra. }
    assert (H5 : in_range (-3) 3 ((f * e - c * d * g) * m - c * d * e)%f32).
    { eapply sub_in_range; [exact H3|exact H4|rep|rep|lra|lra]. }
    assert (H6 : in_range (-1) 1 (f * g)%f32).
    { eapply mul_in_range; [exact Hf|exact Hg|rep|rep|]. intros u v Hu Hv. nra. }
    assert (H7 : in_range (-4) 4 ((f * e - c * d * g) * m - c * d * e - f * g)%f32).
    { eapply sub_in_range; [exact H5|exact H6|rep|rep|lra|lra]. }
    assert (Hld : in_range (-1) 1 (l * d)%f32).
    { eapply mul_in_range; [exact Hl|exact Hd|rep|rep|]. intros u v Hu Hv. nra. }
    assert (H8 : in_range (-1) 1 (l * d * n)%f32).
    { eapply mul_in_range; [exact Hld|exact Hn|rep|rep|]. intros u v Hu Hv. nra. }
    assert (H9 : in_range (-5) 5
                   ((f * e - c * d * g) * m - c * d * e - f * g - l * d * n)%f32).
    { eapply sub_in_range; [exact H7|exact H8|rep|rep|lra|lra]. }
    eapply mul_in_range; [exact (of_int_in_range 8 eq_refl)|exact H9|rep|rep|].
    intros u v Hu Hv. nra. }
  destruct HN as [HNf HNr].
  destruct (to_int_in_range _ (-40) 40 HNf HNr) as (N & -> & HNv); [cbv; congruence..|].
  cbn [rbind]. eexists. split; [reflexivity|]. cbn [s_x s_y s_N]. auto.
Qed.

Lemma samples_defined A B :
  finite32 A = true -> finite32 B = true -> exists ss, samples sin cos A B = Ok ss.
Proof.
  intros FA FB. apply collect_defined. intros [j i] Hin. cbn [fst snd].
  destruct (grid_finite j i Hin) as [Fj Fi].
  destruct (project_defined A B i j FA FB Fi Fj) as (s & Hs & _). eauto.
Qed.

(** Every sample of a frame has an inverse depth between 1/16 and 1. *)
Lemma samples_depth A B ss :
  finite32 A = true -> samples sin cos A B = Ok ss ->
  forall s, s ∈ ss -> in_range (/ 16) 1 (s_D s).
Proof.
  intros FA Hss s Hin. pose proof (collect_Forall _ _ _ Hss) as Hall.
  rewrite Forall_forall in Hall. destruct (Hall s Hin) as ([j i] & Hji & Hp).
  destruct (grid_finite j i Hji) as [Fj Fi].
  eapply sample_depth; [exact FA|exact Fi|exact Fj|exact Hp].
Qed.

(** C9: with sines and cosines in [-1, 1], and angles and loop variables
    that are ordinary [float]s, the denominator [c * h * e + f * g + 5]
    of every sample lies in [1, 9] and is not zero, so that
    [D = 1 / (c * h * e + f * g + 5)] is a finite value with
    [0 < D <= 1]; every depth stored in a frame lies in [0, 1], and the
    depth of a cell is positive exactly when the cell's character is not
    the blank. *)
Theorem C9_inverse_depth_in_unit_range (A B : spec_float) :
  finite32 A = true -> finite32 B = true ->
  (forall i j, finite32 i = true -> finite32 j = true ->
     within (#1)%f32 (#9)%f32
       (denominator (fsin sin i) (fcos cos j + #2)%f32 (fsin sin A)
                    (fsin sin j) (fcos cos A)) = true /\
     SFeqb (denominator (fsin sin i) (fcos cos j + #2)%f32 (fsin sin A)
                        (fsin sin j) (fcos cos A)) fzero = false) /\
  (forall i j, finite32 i = true -> finite32 j = true -> exists s,
     project sin cos A B i j = Ok s /\
     s_D s = (#1 / denominator (fsin sin i) (fcos cos j + #2) (fsin sin A)
                               (fsin sin j) (fcos cos A))%f32 /\
     F32.valid (s_D s) = true /\ is_finite (s_D s) = true /\
     fgt (s_D s) fzero = true /\ fle (s_D s) (#1)%f32 = true) /\
  (exists ss, samples sin cos A B = Ok ss /\
     (Forall drawable ss -> exists fr, render sin cos A B = Ok fr)) /\
  (forall fr, render sin cos A B = Ok fr ->
     forall o d g, z fr !! o = Some d -> b fr !! o = Some g ->
       fle fzero d = true /\ fle d (#1)%f32 = true /\
       (fgt d fzero = true <-> g <> SPACE)).
Proof.
  intros FA FB. split; [|split; [|split]].
  - intros i j Fi Fj.
    destruct (int_constant 1 ltac:(cbn; tauto)) as [H1 E1].
    destruct (int_constant 9 ltac:(cbn; tauto)) as [H9 E9].
    pose proof (frame_denominator A i j FA Fi Fj) as Hden.
    split; [apply within_in_range; [assumption..|]; rewrite E1, E9; exact Hden|].
    destruct Hden as [Hden Rden].
    destruct (SFcompare_spec F32.prec F32.emax _ fzero Hden (fin_zero _ _ false))
      as (c & Hc & Hcmp).
    unfold SFeqb. rewrite Hc. change (B2R fzero) with 0%R in Hcmp.
    destruct c; [unfold cmp_spec in Hcmp; lra|reflexivity|reflexivity].
  - intros i j Fi Fj. destruct (project_defined A B i j FA FB Fi Fj) as (s & Hs & _).
    exists s. split; [exact Hs|]. split; [apply project_depth with (B := B), Hs|].
    pose proof (sample_depth A B i j s FA Fi Fj Hs) as HD.
    destruct HD as [[Hv Hf] HR].
    split; [exact Hv|]. split; [exact Hf|].
    split; [apply (in_range_positive (/ 16) 1); [split; [split|]; assumption|lra]|].
    apply (in_range_le_1 (/ 16)). split; [split|]; assumption.
  - destruct (samples_defined A B FA FB) as [ss Hss]. exists ss. split; [exact Hss|].
    intros Hdr. destruct (run_clear_spec ss Hdr) as (fr & Hr & _).
    exists fr. rewrite (render_run sin cos A B ss Hss). exact Hr.
  - intros fr Hfr o d g Hd Hg.
    destruct (samples_defined A B FA FB) as [ss Hss].
    rewrite (render_run sin cos A B ss Hss) in Hfr.
    destruct (run_clear_cells ss fr Hfr) as [[Hz Hb] Hc].
    assert (Ho : (o < CELLS)%nat) by (rewrite <- Hz; eapply lookup_lt_Some; exact Hd).
    destruct (Hc o Ho) as (d' & g' & Hd' & Hg' & Hspec).
    assert (d' = d) as -> by congruence. assert (g' = g) as -> by congruence.
    destruct Hspec as [(-> & -> & _)|(s & (Hin & Hl & Hpos & _) & -> & ->)].
    + split; [reflexivity|]. split; [reflexivity|].
      split; [discriminate|]. intros H. contradiction H. reflexivity.
    + pose proof (samples_depth A B ss FA Hss s Hin) as HD.
      split.
      { destruct HD as [Hf HR]. unfold fle. apply SFleb_iff; [apply fin_zero|exact Hf|].
        change (B2R fzero) with 0%R. lra. }
      split; [apply (in_range_le_1 (/ 16)), HD|].
      split; [intros _; apply glyph_of_not_blank|intros _; exact Hpos].
Qed.

End Depth.
(** ** The angles stay bounded and never decrease *)

(** A [float] up to [2^20] is [2^20] itself or at least 1/16 below it. *)
Lemma float_step_below (m : positive) e :
  SpecFloat.bounded F32.prec F32.emax m e = true ->
  (F2R (Zpos m) e <= 1048576)%R ->
  (F2R (Zpos m) e <= 1048576 - / 16)%R \/ (m = 8388608%positive /\ e = -3).
Proof.
  intros Hb Hle. apply bounded_iff in Hb as [Hc Hmax].
  unfold fexp, emin, F32.prec, F32.emax in Hc.
  pose proof (digits2_pos_bounds m) as [Hd1 Hd2].
  set (dg := Zpos (digits2_pos m)) in *.
  assert (E20 : F2R 1048576 0 = 1048576%R) by (unfold F2R; cbn; lra).
  rewrite <- E20 in Hle.
  assert (Hmag : dg + e <= 21).
  { pose proof (F2R_magnitude (Zpos m) e 1048576 0 ltac:(lia) ltac:(lia) Hle) as H.
    exact H. }
  destruct (Z.eq_dec (dg + e) 21) as [E|E].
  - right. assert (e = -3) by lia. subst e. assert (Hdg : dg = 24) by lia.
    rewrite Hdg in Hd1.
    apply (F2R_le_iff _ _ _ _ (-3)) in Hle; [|lia..].
    change (2 ^ (-3 - -3)) with 1 in Hle. change (2 ^ (0 - -3)) with 8 in Hle.
    change (2 ^ (24 - 1)) with 8388608 in Hd1.
    split; [|reflexivity]. lia.
  - left. assert (He : e <= -4) by lia.
    replace (1048576 - / 16)%R with (F2R 16777215 (-4)) by (unfold F2R; simpl; lra).
    apply (F2R_le_iff _ _ _ _ e); [lia..|].
    rewrite Z.sub_diag, Z.pow_0_r, Z.mul_1_r.
    assert (Hp : 0 < 2 ^ (-4 - e)) by (apply Z.pow_pos_nonneg; lia).
    assert (Hq : 2 ^ dg <= 2 ^ 24) by (apply Z.pow_le_mono_r; lia).
    change (2 ^ 24) with 16777216 in Hq.
    set (p := 2 ^ (-4 - e)) in *. set (q := 2 ^ dg) in *. clearbody p q. lia.
Qed.

Lemma representable64_pow20 : representable F64.prec F64.emax 1048576.
Proof.
  replace 1048576%R with (F2R 1 20).
  - apply representable_small; cbv; congruence.
  - rewrite F2R_int_up by lia. reflexivity.
Qed.

Lemma incr_range step v hi :
  finite_in F64.prec F64.emax step -> (0 <= B2R step)%R ->
  finite_in F32.prec F32.emax v ->
  representable F64.prec F64.emax hi -> representable F32.prec F32.emax hi ->
  (B2R v + B2R step <= hi)%R ->
  in_range (B2R v) hi (incr step v).
Proof.
  intros Hstep Rstep Hv Hhi64 Hhi32 Hsum. unfold incr.
  destruct (of_float_exact v Hv) as [Hv64 Ev64].
  assert (Hrep64 : representable F64.prec F64.emax (B2R v)).
  { exists (F64.of_float v). auto. }
  destruct (SFadd_range F64.prec F64.emax F64_prec_pos (F64.of_float v) step
              (B2R v) hi Hv64 Hstep Hrep64 Hhi64 ltac:(lra))
    as [[Hsv Hsf] Rs].
  fold F64.add in *.
  assert (Hrep32 : representable F32.prec F32.emax (B2R v)) by (exists v; auto).
  destruct (F64.add (F64.of_float v) step) as [s|s| |s m e]; try discriminate Hsf;
    cbn [F32.of_double].
  - split; [apply fin_zero|]. cbn [B2R] in *. lra.
  - apply (binary_round_range F32.prec F32.emax F32_prec_pos); [exact Hrep32|exact Hhi32|].
    rewrite B2R_finite in Rs. exact Rs.
Qed.

Lemma literal_step k :
  In k [2; 4] ->
  finite_in F64.prec F64.emax (F64.literal k 2) /\ (0 <= B2R (F64.literal k 2) <= / 16)%R.
Proof.
  cbn [In]. intros [<-|[<-|[]]].
  - split; [split; reflexivity|].
    match goal with
    | |- context [B2R ?x] => let f := eval vm_compute in x in change x with f
    end.
    cbn [B2R cond_Zopp]. split; [left; apply F2R_pos; lia|].
    replace (/ 16)%R with (F2R (2 ^ 54) (-58)) by (unfold F2R; simpl; lra).
    apply F2R_le_mono. cbv. congruence.
  - split; [split; reflexivity|].
    match goal with
    | |- context [B2R ?x] => let f := eval vm_compute in x in change x with f
    end.
    cbn [B2R cond_Zopp]. split; [left; apply F2R_pos; lia|].
    replace (/ 16)%R with (F2R (2 ^ 53) (-57)) by (unfold F2R; simpl; lra).
    apply F2R_le_mono. cbv. congruence.
Qed.

(** An angle between 0 and 2^20 stays there: below 2^20 the next [float]
    is at least 1/16 away, more than the step, and at 2^20 the sum rounds
    back to 2^20. *)
Lemma angle_step_bounded k v :
  In k [2; 4] ->
  within fzero (#1048576)%f32 v = true ->
  fle v (incr (F64.literal k 2) v) = true /\
  within fzero (#1048576)%f32 (incr (F64.literal k 2) v) = true.
Proof.
  intros Hk Hv. destruct (literal_step k Hk) as [Hs Rs].
  destruct (of_int_exact 1048576 eq_refl) as [H20 E20].
  pose proof (fin_zero F32.prec F32.emax false) as H0.
  apply within_in_range in Hv; [|assumption..].
  change (B2R fzero) with 0%R in Hv. rewrite E20 in Hv. destruct Hv as [Hfv Rv].
  assert (Hstep : (B2R v <= 1048576 - / 16)%R ->
                  fle v (incr (F64.literal k 2) v) = true /\
                  within fzero (#1048576)%f32 (incr (F64.literal k 2) v) = true).
  { intros Hlt.
    destruct (incr_range (F64.literal k 2) v 1048576 Hs ltac:(lra) Hfv
                representable64_pow20 (representable_Z 1048576 eq_refl) ltac:(lra))
      as [Hf Hr].
    split; [unfold fle; apply SFleb_iff; [assumption..|]; lra|].
    apply within_in_range; [assumption..|].
    change (B2R fzero) with 0%R. rewrite E20. split; [exact Hf|lra]. }
  destruct v as [s|s| |s m e]; try (destruct Hfv as [_ Hfin]; discriminate Hfin).
  - apply Hstep. cbn [B2R]. lra.
  - destruct s.
    + exfalso. rewrite B2R_finite in Rv. cbn [cond_Zopp] in Rv.
      change (Z.neg m) with (- Zpos m) in Rv. rewrite F2R_opp in Rv.
      pose proof (F2R_pos (Zpos m) e ltac:(lia)). lra.
    + destruct Hfv as [Hval _]. cbn [valid_binary] in Hval.
      rewrite B2R_finite in Rv. cbn [cond_Zopp] in Rv.
      destruct (float_step_below m e Hval (proj2 Rv)) as [Hlt|[-> ->]].
      * apply Hstep. rewrite B2R_finite. exact Hlt.
      * destruct Hk as [<-|[<-|[]]]; split; vm_compute; reflexivity.
Qed.

Section AngleStep.

Variables sin cos : spec_float -> spec_float.

(** C6, as the code has it: on every iteration that does not quit, the
    angles become [float(A + 0.04)] and [float(B + 0.02)], the sums
    being rounded to [double] first, whatever the speed factor; the
    speed factor enters only the argument of [usleep].  Angles between 0
    and 2^20, where the angles of the program stay, never decrease. *)
Theorem C6_angle_step_ignores_speed (cfg1 cfg2 : settings) (pal : palette)
    (A B : spec_float) :
  (forall evs A' B',
     advance sin cos cfg1 pal A B = (evs, Ok (A', B')) ->
     A' = incr (F64.literal 4 2) A /\ B' = incr (F64.literal 2 2) B) /\
  (forall evs1 evs2 A1 B1 A2 B2,
     advance sin cos cfg1 pal A B = (evs1, Ok (A1, B1)) ->
     advance sin cos cfg2 pal A B = (evs2, Ok (A2, B2)) ->
     A1 = A2 /\ B1 = B2 /\
     exists out us1 us2,
       evs1 = [Stdout out; Usleep us1] /\ evs2 = [Stdout out; Usleep us2] /\
       sleep_us (speedFactor cfg1) = Ok us1 /\ sleep_us (speedFactor cfg2) = Ok us2) /\
  (within fzero (#1048576)%f32 A = true ->
     fle A (next_A A) = true /\ within fzero (#1048576)%f32 (next_A A) = true) /\
  (within fzero (#1048576)%f32 B = true ->
     fle B (next_B B) = true /\ within fzero (#1048576)%f32 (next_B B) = true).
Proof.
  split; [|split; [|split]].
  - intros evs A' B' H. apply advance_ok in H as (-> & -> & _). split; reflexivity.
  - intros evs1 evs2 A1 B1 A2 B2 H1 H2.
    apply advance_ok in H1 as (-> & -> & fr1 & out1 & us1 & Hr1 & He1 & Hs1 & ->).
    apply advance_ok in H2 as (-> & -> & fr2 & out2 & us2 & Hr2 & He2 & Hs2 & ->).
    split; [reflexivity|]. split; [reflexivity|].
    assert (fr2 = fr1) as -> by congruence. assert (out2 = out1) as -> by congruence.
    exists out1, us1, us2. auto.
  - apply (angle_step_bounded 4). cbn. tauto.
  - apply (angle_step_bounded 2). cbn. tauto.
Qed.

End AngleStep.

(** ** The range of the luminance *)

Open Scope R_scope.

(** The luminance of a unit normal under the light of the program is at
    most the square root of 2; with sines and cosines that are slightly
    off the unit circle it stays below 29/20. *)
Lemma luminance_bound (c l d f e g m n : R) :
  c * c + l * l <= 1 + / 1024 ->
  d * d + f * f <= 1 + / 1024 ->
  e * e + g * g <= 1 + / 1024 ->
  m * m + n * n <= 1 + / 1024 ->
  (f * e - c * d * g) * m - c * d * e - f * g - l * d * n <= 29 / 20.
Proof.
  intros Hi Hj HA HB.
  pose (P := f * e - c * d * g). pose (Q := l * d). pose (R := c * d * e + f * g).
  set (k := 1 + / 1024) in *.
  assert (Hk : 1 <= k <= 1025 / 1024) by (subst k; lra).
  assert (HPR : P * P + R * R = (f * f + c * c * (d * d)) * (e * e + g * g)) by (unfold P, R; ring).
  assert (H1 : 0 <= f * f + c * c * (d * d)) by nra.
  assert (H2 : P * P + R * R <= (f * f + c * c * (d * d)) * k) by (rewrite HPR; nra).
  assert (H3 : (f * f + c * c * (d * d)) + l * l * (d * d) <= f * f + d * d * k).
  { assert (0 <= d * d) by nra. nra. }
  assert (H4 : f * f + d * d * k <= k * k).
  { assert (0 <= f * f) by nra. assert (0 <= d * d) by nra. nra. }
  assert (H5 : P * P + Q * Q + R * R <= k * k * k).
  { assert (HQ : Q * Q = l * l * (d * d)) by (unfold Q; ring).
    assert (0 <= l * l * (d * d)) by nra. nra. }
  assert (Hcs : (m * P - n * Q - R) * (m * P - n * Q - R)
                <= (m * m + n * n + 1) * (P * P + Q * Q + R * R)).
  { assert (Hid : (m * m + n * n + 1) * (P * P + Q * Q + R * R)
                  - (m * P - n * Q - R) * (m * P - n * Q - R)
                  = (m * Q + n * P) * (m * Q + n * P) + (m * R + P) * (m * R + P)
                    + (Q - n * R) * (Q - n * R)) by ring.
    pose proof (Rle_0_sqr (m * Q + n * P)). pose proof (Rle_0_sqr (m * R + P)).
    pose proof (Rle_0_sqr (Q - n * R)). unfold Rsqr in *. lra. }
  assert (H6 : (m * m + n * n + 1) * (P * P + Q * Q + R * R) <= (k + 1) * (k * k * k)).
  { assert (0 <= P * P + Q * Q + R * R) by nra. assert (0 <= m * m + n * n) by nra. nra. }
  assert (H7 : (k + 1) * (k * k * k) <= 841 / 400).
  { assert (k * k <= 1025 / 1024 * (1025 / 1024)) by nra.
    assert (k * k * k <= 1025 / 1024 * (1025 / 1024) * (1025 / 1024)) by nra. nra. }
  replace ((f * e - c * d * g) * m - c * d * e - f * g - l * d * n)
    with (m * P - n * Q - R) by (unfold P, Q, R; ring).
  clearbody P Q R.
  set (E := m * P - n * Q - R) in *.
  destruct (Rle_or_lt E (29 / 20)) as [|Hgt]; [assumption|]. exfalso. nra.
Qed.

Close Scope R_scope.

Lemma eta_pow : eta = powerRZ 2 (-20).
Proof.
  pose proof (F2R_int 1 (-20) ltac:(lia)) as H. change (1 * 2 ^ (- -20)) with 1048576 in H.
  unfold F2R, eta in *. lra.
Qed.

Lemma F2R_grid k : F2R k (-20) = (IZR k * eta)%R.
Proof. unfold F2R. rewrite eta_pow. reflexivity. Qed.

Lemma representable_grid k e :
  Z.abs k < 2 ^ 24 -> emin F32.prec F32.emax <= e -> e <= F32.emax - F32.prec ->
  representable F32.prec F32.emax (F2R k e).
Proof.
  intros Hk He1 He2.
  assert (Hpos : forall m, Zpos m < 2 ^ 24 -> representable F32.prec F32.emax (F2R (Zpos m) e)).
  { intros m Hm. apply representable_small; [|assumption..].
    pose proof (digits2_pos_bounds m) as [H1 _].
    assert (Zpos (digits2_pos m) - 1 < 24) by (apply (Z.pow_lt_mono_r_iff 2); lia).
    unfold F32.prec. lia. }
  destruct k as [|m|m].
  - rewrite F2R_0. apply representable_0.
  - apply Hpos. lia.
  - change (Z.neg m) with (- Zpos m). rewrite F2R_opp. apply representable_opp, Hpos. lia.
Qed.

(** Every real below 15 in magnitude lies between two [float]s that are
    [eta] apart. *)
Lemma grid_bracket (r : R) :
  (-15 <= r <= 15)%R ->
  exists lo hi,
    representable F32.prec F32.emax lo /\ representable F32.prec F32.emax hi /\
    (lo <= r <= hi)%R /\ (hi - lo <= eta)%R.
Proof.
  intros Hr. pose proof (archimed (r * 1048576)) as [Hup1 Hup2].
  set (k := (up (r * 1048576) - 1)%Z).
  assert (Hk1 : (IZR k <= r * 1048576)%R) by (subst k; rewrite minus_IZR; lra).
  assert (Hk2 : (r * 1048576 < IZR k + 1)%R) by (subst k; rewrite minus_IZR; lra).
  assert (Hkb : -15728641 <= k <= 15728640).
  { split.
    - assert (-15728641 < k + 1); [|lia]. apply lt_IZR. rewrite plus_IZR. lra.
    - apply le_IZR. lra. }
  exists (F2R k (-20)), (F2R (k + 1) (-20)).
  split; [apply representable_grid; [lia|cbv; congruence..]|].
  split; [apply representable_grid; [lia|cbv; congruence..]|].
  rewrite !F2R_grid, plus_IZR. unfold eta. split; [split|]; lra.
Qed.

(** The error of one rounded operation on values below 15. *)
Lemma mul_approx x y :
  finite_in F32.prec F32.emax x -> finite_in F32.prec F32.emax y ->
  (-15 <= B2R x * B2R y <= 15)%R ->
  finite_in F32.prec F32.emax (x * y)%f32 /\
  (- eta <= B2R (x * y)%f32 - B2R x * B2R y <= eta)%R.
Proof.
  intros Hx Hy Hr. destruct (grid_bracket _ Hr) as (lo & hi & Hlo & Hhi & Hb & Hw).
  destruct (SFmul_range F32.prec F32.emax F32_prec_pos F32_prec_emax x y lo hi
              Hx Hy Hlo Hhi Hb) as [Hf Hv].
  split; [exact Hf|]. fold F32.mul in Hv. lra.
Qed.

Lemma sub_approx x y :
  finite_in F32.prec F32.emax x -> finite_in F32.prec F32.emax y ->
  (-15 <= B2R x - B2R y <= 15)%R ->
  finite_in F32.prec F32.emax (x - y)%f32 /\
  (- eta <= B2R (x - y)%f32 - (B2R x - B2R y) <= eta)%R.
Proof.
  intros Hx Hy Hr. destruct (grid_bracket _ Hr) as (lo & hi & Hlo & Hhi & Hb & Hw).
  destruct (SFsub_range F32.prec F32.emax F32_prec_pos x y lo hi Hx Hy Hlo Hhi Hb) as [Hf Hv].
  split; [exact Hf|]. fold F32.sub in Hv. lra.
Qed.

Lemma eta_small : (0 < eta <= / 1000000)%R.
Proof. unfold eta. split; lra. Qed.

Lemma mul_unit_bound (a y k : R) :
  (- k <= a <= k)%R -> (-1 <= y <= 1)%R -> (- k <= a * y <= k)%R.
Proof. intros Ha Hy. split; nra. Qed.

(** A product with a sine or a cosine: the error grows by [eta]. *)
Lemma step_mul x y (r k err : R) :
  finite_in F32.prec F32.emax x -> in_range (-1) 1 y ->
  (- k <= r <= k)%R -> (- err <= B2R x - r <= err)%R ->
  (0 <= err <= 1)%R -> (0 <= k <= 13)%R ->
  finite_in F32.prec F32.emax (x * y)%f32 /\
  (- k <= r * B2R y <= k)%R /\
  (- (err + eta) <= B2R (x * y)%f32 - r * B2R y <= err + eta)%R.
Proof.
  intros Hx [Hy Ry] Hr He Herr Hk.
  pose proof (mul_unit_bound (B2R x) (B2R y) (k + err) ltac:(lra) Ry) as H1.
  pose proof (mul_unit_bound (B2R x - r) (B2R y) err He Ry) as H2.
  pose proof (mul_unit_bound r (B2R y) k Hr Ry) as H3.
  destruct (mul_approx x y Hx Hy ltac:(lra)) as [Hf Ha].
  split; [exact Hf|]. split; [exact H3|].
  replace (B2R (x * y)%f32 - r * B2R y)%R
    with ((B2R (x * y)%f32 - B2R x * B2R y) + (B2R x - r) * B2R y)%R by ring.
  lra.
Qed.

(** A difference: the errors add up, plus [eta]. *)
Lemma step_sub x y (rx ry kx ky ex ey : R) :
  finite_in F32.prec F32.emax x -> finite_in F32.prec F32.emax y ->
  (- kx <= rx <= kx)%R -> (- ky <= ry <= ky)%R ->
  (- ex <= B2R x - rx <= ex)%R -> (- ey <= B2R y - ry <= ey)%R ->
  (kx + ky + ex + ey <= 15)%R ->
  finite_in F32.prec F32.emax (x - y)%f32 /\
  (- (kx + ky) <= rx - ry <= kx + ky)%R /\
  (- (ex + ey + eta) <= B2R (x - y)%f32 - (rx - ry) <= ex + ey + eta)%R.
Proof.
  intros Hx Hy Hrx Hry Hex Hey Hb.
  destruct (sub_approx x y Hx Hy ltac:(lra)) as [Hf Ha].
  split; [exact Hf|]. split; lra.
Qed.

Lemma to_int_below x v k :
  to_int x = Ok v -> (B2R x < IZR k)%R -> 0 < k -> v < k.
Proof.
  unfold to_int. intros Hv Hr Hk.
  destruct x as [s|s| |s m e]; cbn [trunc] in Hv; try discriminate Hv.
  - destruct (_ && _); [|discriminate]. injection Hv as <-. exact Hk.
  - destruct (_ && _); [|discriminate]. injection Hv as <-.
    pose proof (shiftl_floor m e) as [Hfl _].
    rewrite B2R_finite, F2R_cond_Zopp in Hr.
    assert (0 <= Z.shiftl (Zpos m) e) by (apply Z.shiftl_nonneg; lia).
    destruct s; cbn [cond_Zopp]; [lia|]. apply lt_IZR. lra.
Qed.

Section Luminance.

Variables sin cos : spec_float -> spec_float.

(** For an ordinary argument the C library returns a sine and a cosine
    between -1 and 1 that are, as a pair, close to the unit circle. *)
Hypothesis sin_unit :
  forall v, finite32 v = true -> within (#(-1))%f32 (#1)%f32 (fsin sin v) = true.
Hypothesis cos_unit :
  forall v, finite32 v = true -> within (#(-1))%f32 (#1)%f32 (fcos cos v) = true.
Hypothesis circle :
  forall v, finite32 v = true -> near_unit_circle (fsin sin v) (fcos cos v).

(** The [float] the loop body converts to [N] is below 12. *)
Lemma luminance_below_12 A B i j :
  finite32 A = true -> finite32 B = true -> finite32 i = true -> finite32 j = true ->
  (B2R (#8 * ((fsin sin j * fsin sin A - fsin sin i * fcos cos j * fcos cos A) * fcos cos B
              - fsin sin i * fcos cos j * fsin sin A - fsin sin j * fcos cos A
              - fcos cos i * fcos cos j * fsin sin B))%f32 < 12)%R.
Proof.
  intros FA FB Fi Fj.
  pose proof (proj1 (unit_in_range _) (sin_unit i Fi)) as Hc.
  pose proof (proj1 (unit_in_range _) (cos_unit j Fj)) as Hd.
  pose proof (proj1 (unit_in_range _) (sin_unit A FA)) as He.
  pose proof (proj1 (unit_in_range _) (sin_unit j Fj)) as Hf.
  pose proof (proj1 (unit_in_range _) (cos_unit A FA)) as Hg.
  pose proof (proj1 (unit_in_range _) (cos_unit i Fi)) as Hl.
  pose proof (proj1 (unit_in_range _) (cos_unit B FB)) as Hm.
  pose proof (proj1 (unit_in_range _) (sin_unit B FB)) as Hn.
  pose proof (circle i Fi) as Ci. pose proof (circle j Fj) as Cj.
  pose proof (circle A FA) as CA. pose proof (circle B FB) as CB.
  clear FA FB Fi Fj.
  unfold near_unit_circle in *.
  set (c := fsin sin i) in *. set (d := fcos cos j) in *. set (e := fsin sin A) in *.
  set (f := fsin sin j) in *. set (g := fcos cos A) in *. set (l := fcos cos i) in *.
  set (m := fcos cos B) in *. set (n := fsin sin B) in *.
  pose proof eta_small as Heta.
  (* the exact luminance is within 29/20 of zero *)
  assert (Hup : ((B2R f * B2R e - B2R c * B2R d * B2R g) * B2R m - B2R c * B2R d * B2R e
                 - B2R f * B2R g - B2R l * B2R d * B2R n <= 29 / 20)%R).
  { apply luminance_bound; lra. }
  assert (Hdown : (- (29 / 20) <= (B2R f * B2R e - B2R c * B2R d * B2R g) * B2R m
                   - B2R c * B2R d * B2R e - B2R f * B2R g - B2R l * B2R d * B2R n)%R).
  { pose proof (luminance_bound (B2R c) (B2R l) (- B2R d) (- B2R f) (B2R e) (B2R g)
                  (B2R m) (B2R n)) as H.
    assert (Hj' : (- B2R d * - B2R d + - B2R f * - B2R f <= 1 + / 1024)%R) by lra.
    specialize (H ltac:(lra) Hj' ltac:(lra) ltac:(lra)). lra. }
  destruct Hc as [Fc Rc]. destruct Hf as [Ff Rf]. destruct Hl as [Fl Rl].
  (* the rounded operations, one by one *)
  destruct (step_mul f e (B2R f) 1 0 Ff He Rf ltac:(lra) ltac:(lra) ltac:(lra))
    as (Ffe & Kfe & Efe).
  destruct (step_mul c d (B2R c) 1 0 Fc Hd Rc ltac:(lra) ltac:(lra) ltac:(lra))
    as (Fcd & Kcd & Ecd).
  destruct (step_mul (c * d)%f32 g _ 1 (0 + eta) Fcd Hg Kcd Ecd ltac:(lra) ltac:(lra))
    as (Fcdg & Kcdg & Ecdg).
  destruct (step_sub (f * e)%f32 (c * d * g)%f32 _ _ 1 1 _ _ Ffe Fcdg Kfe Kcdg Efe Ecdg
              ltac:(lra)) as (Fs1 & Ks1 & Es1).
  destruct (step_mul _ m _ (1 + 1) _ Fs1 Hm Ks1 Es1 ltac:(lra) ltac:(lra))
    as (Ft1 & Kt1 & Et1).
  destruct (step_mul (c * d)%f32 e _ 1 (0 + eta) Fcd He Kcd Ecd ltac:(lra) ltac:(lra))
    as (Fcde & Kcde & Ecde).
  destruct (step_sub _ (c * d * e)%f32 _ _ (1 + 1) 1 _ _ Ft1 Fcde Kt1 Kcde Et1 Ecde
              ltac:(lra)) as (Fs2 & Ks2 & Es2).
  destruct (step_mul f g (B2R f) 1 0 Ff Hg Rf ltac:(lra) ltac:(lra) ltac:(lra))
    as (Ffg & Kfg & Efg).
  destruct (step_sub _ (f * g)%f32 _ _ (1 + 1 + 1) 1 _ _ Fs2 Ffg Ks2 Kfg Es2 Efg
              ltac:(lra)) as (Fs3 & Ks3 & Es3).
  destruct (step_mul l d (B2R l) 1 0 Fl Hd Rl ltac:(lra) ltac:(lra) ltac:(lra))
    as (Fld & Kld & Eld).
  destruct (step_mul (l * d)%f32 n _ 1 (0 + eta) Fld Hn Kld Eld ltac:(lra) ltac:(lra))
    as (Fldn & Kldn & Eldn).
  destruct (step_sub _ (l * d * n)%f32 _ _ (1 + 1 + 1 + 1) 1 _ _ Fs3 Fldn Ks3 Kldn Es3 Eldn
              ltac:(lra)) as (Fs4 & Ks4 & Es4).
  (* times 8 *)
  destruct (of_int_exact 8 eq_refl) as [F8 E8].
  set (S4 := ((f * e - c * d * g) * m - c * d * e - f * g - l * d * n)%f32) in *.
  assert (HS4 : (- (3 / 2) <= B2R S4 <= 3 / 2)%R) by lra.
  destruct (mul_approx (#8)%f32 S4 F8 Fs4 ltac:(rewrite E8; lra)) as [_ E8S].
  rewrite E8 in E8S. lra.
Qed.

(** The luminance of every sample selects one of the twelve glyphs. *)
Lemma sample_luminance A B i j s :
  finite32 A = true -> finite32 B = true -> finite32 i = true -> finite32 j = true ->
  project sin cos A B i j = Ok s -> s_N s <= 11.
Proof.
  intros FA FB Fi Fj. unfold project. cbv zeta.
  destruct (to_int _) as [x|]; [|discriminate]. cbn [rbind].
  destruct (to_int _) as [y|]; [|discriminate]. cbn [rbind].
  destruct (to_int _) as [N|] eqn:HN; [|discriminate]. cbn [rbind].
  intros [= <-]. cbn [s_N].
  pose proof (to_int_below _ N 12 HN (luminance_below_12 A B i j FA FB Fi Fj)
                ltac:(lia)). lia.
Qed.

(** Every frame is rendered without fault. *)
Lemma render_defined A B :
  finite32 A = true -> finite32 B = true ->
  exists ss fr,
    samples sin cos A B = Ok ss /\ Forall (fun s => s_N s <= 11) ss /\
    render sin cos A B = Ok fr /\ run ss clear = Ok fr.
Proof.
  intros FA FB.
  destruct (samples_defined sin cos sin_unit cos_unit A B FA FB) as [ss Hss].
  assert (H11 : Forall (fun s => s_N s <= 11) ss).
  { pose proof (collect_Forall _ _ _ Hss) as Hall. rewrite Forall_forall in *.
    intros s Hs. destruct (Hall s Hs) as ([j i] & Hji & Hp).
    destruct (grid_finite j i Hji) as [Fj Fi].
    exact (sample_luminance A B i j s FA FB Fi Fj Hp). }
  assert (Hdr : Forall drawable ss).
  { rewrite Forall_forall in *. intros s Hs. specialize (H11 s Hs). unfold drawable. lia. }
  destruct (run_clear_spec ss Hdr) as (fr & Hr & _).
  exists ss, fr. rewrite (render_run sin cos A B ss Hss). auto.
Qed.


(** C4: whenever a sample of a frame (angles and loop variables being
    ordinary [float]s) passes the depth test and overwrites a cell, the glyph written is the ramp indexed by [max(N, 0)], which
    is [max(N, 0)] clamped to the ramp: a negative or zero [N] gives
    index 0, the index never exceeds 11, and the character stored is one
    of the twelve glyphs. *)
Theorem C4_glyph_index_within_ramp (A B i j : spec_float) (s : sample)
    (st : frame) (zo : spec_float) :
  finite32 A = true -> finite32 B = true -> finite32 i = true -> finite32 j = true ->
  project sin cos A B i j = Ok s ->
  well_sized st ->
  on_screen (s_x s) (s_y s) = true ->
  z st !! Z.to_nat (offset (s_x s) (s_y s)) = Some zo ->
  fgt (s_D s) zo = true ->
  ramp_index (s_N s) = Z.min (Z.max (s_N s) 0) 11 /\
  (s_N s <= 0 -> ramp_index (s_N s) = 0) /\
  0 <= ramp_index (s_N s) <= 11 /\
  exists ch st',
    String.get (Z.to_nat (ramp_index (s_N s))) ramp = Some ch /\
    In ch ramp_glyphs /\
    plot s st = Ok st' /\
    b st' !! Z.to_nat (offset (s_x s) (s_y s)) = Some ch.
Proof.
  intros FA FB Fi Fj Hs Hwf Hon Hzo Hgt.
  pose proof (sample_luminance A B i j s FA FB Fi Fj Hs) as HN.
  destruct (plot_glyph_in_ramp s st zo HN Hwf Hon Hzo Hgt)
    as (Hi & H0 & Hr & ch & st' & Hget & Hin & Hp & Hb).
  split; [rewrite Hi; lia|]. split; [exact H0|]. split; [exact Hr|].
  exists ch, st'. rewrite Hi. auto.
Qed.

End Luminance.

(** ** The whole run *)

Lemma within_finite32 lo hi v : within lo hi v = true -> finite32 v = true.
Proof. unfold within, finite32. rewrite !andb_true_iff. tauto. Qed.

Lemma sleep_us_fault speedFactor f : sleep_us speedFactor = Fault f -> f = ConvRange.
Proof.
  unfold sleep_us, to_useconds. destruct (trunc _) as [v|]; [|congruence].
  destruct (_ && _); congruence.
Qed.

Lemma emit_frame_defined pal fr :
  well_sized fr -> exists out, emit_frame pal (b fr) = Ok out.
Proof.
  intros [_ Hb]. unfold emit_frame.
  rewrite emit_all_shown by auto using positions_range. eexists. reflexivity.
Qed.

Section Run.

Variables sin cos : spec_float -> spec_float.
Variable strtof : string -> spec_float * string.
Variables EAGAIN EWOULDBLOCK : Z.

Hypothesis sin_unit :
  forall v, finite32 v = true -> within (#(-1))%f32 (#1)%f32 (fsin sin v) = true.
Hypothesis cos_unit :
  forall v, finite32 v = true -> within (#(-1))%f32 (#1)%f32 (fcos cos v) = true.
Hypothesis circle :
  forall v, finite32 v = true -> near_unit_circle (fsin sin v) (fcos cos v).

(** With ordinary angles an iteration draws and prints its frame; the
    one step that can be undefined is the conversion of the sleep time. *)
Lemma advance_defined cfg pal A B :
  finite32 A = true -> finite32 B = true ->
  (exists out us,
     advance sin cos cfg pal A B = ([Stdout out; Usleep us], Ok (next_A A, next_B B))) \/
  (exists out,
     advance sin cos cfg pal A B = ([Stdout out], Fault ConvRange) /\
     sleep_us (speedFactor cfg) = Fault ConvRange).
Proof.
  intros FA FB.
  destruct (render_defined sin cos sin_unit cos_unit circle A B FA FB)
    as (ss & fr & _ & _ & Hr & Hrun).
  destruct (run_clear_cells ss fr Hrun) as [Hwf _].
  destruct (emit_frame_defined pal fr Hwf) as [out He].
  unfold advance. rewrite Hr, He.
  destruct (sleep_us (speedFactor cfg)) as [us|f] eqn:Hs.
  - left. exists out, us. reflexivity.
  - right. exists out. rewrite (sleep_us_fault _ _ Hs). auto.
Qed.

(** The angles of the program stay between 0 and [2^20]; the loop ends
    with status 0 or stops at the conversion of the sleep time, and no
    access to a buffer or to the glyph literal is out of bounds. *)
Lemma main_loop_defined cfg pal reads :
  forall A B trace,
    within fzero (#1048576)%f32 A = true -> within fzero (#1048576)%f32 B = true ->
    match main_loop sin cos EAGAIN EWOULDBLOCK cfg pal reads A B trace with
    | Exit status _ => status = 0
    | Undefined f _ => f = ConvRange /\ sleep_us (speedFactor cfg) = Fault ConvRange
    | Running A' B' _ =>
        within fzero (#1048576)%f32 A' = true /\ within fzero (#1048576)%f32 B' = true
    end.
Proof.
  induction reads as [|r reads IH]; intros A B trace HA HB; cbn [main_loop].
  - auto.
  - destruct (poll EAGAIN EWOULDBLOCK r); [|reflexivity..].
    destruct (advance_defined cfg pal A B (within_finite32 _ _ _ HA)
                (within_finite32 _ _ _ HB))
      as [(out & us & ->)|(out & -> & Hs)].
    + apply IH.
      * apply (angle_step_bounded 4); [cbn; tauto|exact HA].
      * apply (angle_step_bounded 2); [cbn; tauto|exact HB].
    + auto.
Qed.

(** The program as a whole. *)
Lemma main_defined argv t reads f trace :
  main sin cos strtof EAGAIN EWOULDBLOCK argv t reads = Undefined f trace ->
  f = ConvRange.
Proof.
  unfold main. destruct (parse_args strtof argv) as [out|cfg warnings]; [discriminate|].
  destruct (setColorPalette (colorName cfg)) as [pal w].
  destruct (enableRawMode t) as [evs [status|]]; [discriminate|].
  intros H.
  pose proof (main_loop_defined cfg pal reads fzero fzero
                ([Stderr (warnings ++ w)] ++ evs ++ [Stdout [esc "[2J"]])
                eq_refl eq_refl) as Hd.
  rewrite H in Hd. apply Hd.
Qed.

End Run.

(** ** The theorems at concrete inputs *)

Lemma constant_sin_unit v :
  finite32 v = true -> within (#(-1))%f32 (#1)%f32 (fsin (fun _ => fzero) v) = true.
Proof. reflexivity. Qed.

Lemma constant_cos_unit v :
  finite32 v = true -> within (#(-1))%f32 (#1)%f32 (fcos (fun _ => F64.of_int 1) v) = true.
Proof. reflexivity. Qed.

Lemma constant_circle v :
  finite32 v = true ->
  near_unit_circle (fsin (fun _ => fzero) v) (fcos (fun _ => F64.of_int 1) v).
Proof.
  intros _. unfold near_unit_circle.
  change (fsin (fun _ => fzero) v) with fzero.
  change (fcos (fun _ => F64.of_int 1) v) with (F32.of_int 1).
  rewrite (proj2 (of_int_exact 1 eq_refl)). change (B2R fzero) with 0%R. lra.
Qed.


Lemma C2_witness :
  well_sized clear /\
  plot (Sample 40 12 (#1)%f32 3) clear <> Fault BufIndex /\
  0 <= offset 40 12 < 1760.
Proof.
  split; [exact clear_well_sized|].
  destruct (C2_guard_keeps_offset_in_bounds (Sample 40 12 (#1)%f32 3) clear clear_well_sized)
    as (_ & _ & Ho & Hp & _).
  split; [exact Hp|]. apply Ho. reflexivity.
Defined.

Lemma C4_witness :
  (forall v, finite32 v = true ->
     within (#(-1))%f32 (#1)%f32 (fsin (fun _ => fzero) v) = true) /\
  (forall v, finite32 v = true ->
     within (#(-1))%f32 (#1)%f32 (fcos (fun _ => F64.of_int 1) v) = true) /\
  (forall v, finite32 v = true ->
     near_unit_circle (fsin (fun _ => fzero) v) (fcos (fun _ => F64.of_int 1) v)) /\
  finite32 fzero = true /\
  project (fun _ => fzero) (fun _ => F64.of_int 1) fzero fzero fzero fzero
    = Ok (Sample 58 12 (S754_finite false 13421773 (-26)) 0) /\
  well_sized clear /\ on_screen 58 12 = true /\
  z clear !! Z.to_nat (offset 58 12) = Some fzero /\
  fgt (S754_finite false 13421773 (-26)) fzero = true /\
  ramp_index 0 = Z.min (Z.max 0 0) 11 /\
  exists ch st',
    String.get (Z.to_nat (ramp_index 0)) ramp = Some ch /\
    In ch ramp_glyphs /\
    plot (Sample 58 12 (S754_finite false 13421773 (-26)) 0) clear = Ok st' /\
    b st' !! Z.to_nat (offset 58 12) = Some ch.
Proof.
  assert (H1 : project (fun _ => fzero) (fun _ => F64.of_int 1) fzero fzero fzero fzero
               = Ok (Sample 58 12 (S754_finite false 13421773 (-26)) 0))
    by (vm_compute; reflexivity).
  assert (H2 : z clear !! Z.to_nat (offset 58 12) = Some fzero) by (vm_compute; reflexivity).
  assert (H3 : fgt (S754_finite false 13421773 (-26)) fzero = true) by reflexivity.
  split; [exact constant_sin_unit|]. split; [exact constant_cos_unit|].
  split; [exact constant_circle|]. split; [reflexivity|]. split; [exact H1|].
  split; [exact clear_well_sized|]. split; [reflexivity|].
  split; [exact H2|]. split; [exact H3|].
  destruct (C4_glyph_index_within_ramp (fun _ => fzero) (fun _ => F64.of_int 1)
              constant_sin_unit constant_cos_unit constant_circle
              fzero fzero fzero fzero _ clear fzero eq_refl eq_refl eq_refl eq_refl
              H1 clear_well_sized eq_refl H2 H3)
    as (Hi & _ & _ & Hex).
  split; [exact Hi|exact Hex].
Defined.

Lemma C5_witness :
  sleep_quotient (#2)%f32 = S754_finite false 8533248 (-9) /\
  8533248 * 2 ^ Z.max (-9) 0 / 2 ^ Z.max (- -9) 0 <= UINT_MAX /\
  sleep_us (#2)%f32 = Ok (8533248 * 2 ^ Z.max (-9) 0 / 2 ^ Z.max (- -9) 0).
Proof.
  assert (H1 : sleep_quotient (#2)%f32 = S754_finite false 8533248 (-9)) by reflexivity.
  assert (H2 : 8533248 * 2 ^ Z.max (-9) 0 / 2 ^ Z.max (- -9) 0 <= UINT_MAX)
    by (apply Z.leb_le; reflexivity).
  split; [exact H1|]. split; [exact H2|].
  exact (proj1 (C5_sleep_is_truncated_quotient (#2)%f32 8533248 (-9) H1 H2)).
Defined.

Lemma C7_witness :
  length (replicate CELLS "@"%char) = CELLS /\
  exists cells,
    emit_frame green_palette (replicate CELLS "@"%char) = Ok (esc "[H" :: cells) /\
    length cells = 1761%nat.
Proof.
  assert (H : length (replicate CELLS "@"%char) = CELLS) by apply length_replicate.
  split; [exact H|].
  destruct (C7_emission_breaks_replace_glyphs green_palette _ H)
    as (_ & _ & _ & _ & _ & _ & cells & He & Hl & _).
  exists cells. split; [exact He|exact Hl].
Defined.

Lemma C9_witness :
  (forall v, finite32 v = true ->
     within (#(-1))%f32 (#1)%f32 (fsin (fun _ => fzero) v) = true) /\
  (forall v, finite32 v = true ->
     within (#(-1))%f32 (#1)%f32 (fcos (fun _ => F64.of_int 1) v) = true) /\
  finite32 fzero = true /\
  (forall i j, finite32 i = true -> finite32 j = true ->
     within (#1)%f32 (#9)%f32
       (denominator (fsin (fun _ => fzero) i) (fcos (fun _ => F64.of_int 1) j + #2)%f32
          (fsin (fun _ => fzero) fzero) (fsin (fun _ => fzero) j)
          (fcos (fun _ => F64.of_int 1) fzero)) = true).
Proof.
  split; [exact constant_sin_unit|]. split; [exact constant_cos_unit|].
  split; [reflexivity|]. intros i j Fi Fj.
  exact (proj1 (proj1 (C9_inverse_depth_in_unit_range _ _ constant_sin_unit constant_cos_unit
                         fzero fzero eq_refl eq_refl) i j Fi Fj)).
Defined.

Lemma C10_witness :
  (fun s : string => if String.eqb s "nan" then (S754_nan, ""%string) else (fzero, s)) "nan"
    = (S754_nan, ""%string) /\
  streq "red" "-h" = false /\ streq "red" "--help" = false /\
  parse_args (fun s : string => if String.eqb s "nan" then (S754_nan, ""%string) else (fzero, s))
    ["donut"; "red"; "nan"]%string
  = Configured (Settings "red" S754_nan) [].
Proof.
  split; [reflexivity|]. split; [reflexivity|]. split; [reflexivity|].
  exact (proj1 (proj2 (proj2
    (C10_nan_speed_factor_is_accepted
       (fun s : string => if String.eqb s "nan" then (S754_nan, ""%string) else (fzero, s))
       "donut" "red" "nan" eq_refl eq_refl eq_refl)))).
Defined.

(** * Further properties of the program *)

Local Open Scope string_scope.
Local Open Scope list_scope.
Local Open Scope Z_scope.

(** ** Command line *)

Section CommandLine.

Variable strtof : string -> spec_float * string.

Lemma kept_speed_positive v :
  fle v (#0)%f32 = false -> fgt v fzero = true \/ is_nan v = true.
Proof.
  destruct v as [[]|[]| |[] m e]; cbn; intros H; try discriminate H; auto.
Qed.

(** X1: the speed argument is kept exactly when [strtof] consumed all of
    it and the value is not [<= 0]; otherwise the program warns and uses
    1.0.  Either way the speed factor the loop divides by is greater than
    zero or a NaN: never zero, never negative. *)
Theorem X1_speed_factor_is_positive_or_nan (arg : string) :
  (deref (snd (strtof arg)) <> NUL \/ fle (fst (strtof arg)) (#0)%f32 = true ->
   parse_speed strtof arg = ((#1)%f32, [speed_warning arg])) /\
  (deref (snd (strtof arg)) = NUL /\ fle (fst (strtof arg)) (#0)%f32 = false ->
   parse_speed strtof arg = (fst (strtof arg), [])) /\
  (fgt (fst (parse_speed strtof arg)) fzero = true \/
   is_nan (fst (parse_speed strtof arg)) = true).
Proof.
  unfold parse_speed. destruct (strtof arg) as [v endptr]. cbn [fst snd].
  destruct (Ascii.eqb_spec (deref endptr) NUL) as [E|E]; cbn [negb orb].
  - destruct (fle v (#0)%f32) eqn:Hle.
    + split; [reflexivity|]. split; [intros [_ H]; discriminate H|]. left. reflexivity.
    + split; [intros [H|H]; [contradiction|discriminate H]|]. split; [reflexivity|].
      cbn [fst]. apply kept_speed_positive, Hle.
  - split; [reflexivity|]. split; [intros [H _]; contradiction|]. left. reflexivity.
Qed.

Lemma streq_false a b : a <> b -> streq a b = false.
Proof. intros H. unfold streq. apply String.eqb_neq, H. Qed.

(** X2: help is shown exactly when the first argument is [-h] or
    [--help]; without arguments the program runs with the colour [gruen]
    and the speed 1.0, a single argument only sets the colour, and
    arguments after the second change nothing but for one more warning. *)
Theorem X2_arguments_beyond_the_second_only_warn :
  (forall argv out,
     parse_args strtof argv = ShowHelp out <->
     exists argv0 h rest,
       argv = argv0 :: h :: rest /\ (h = "-h" \/ h = "--help") /\ out = help_text argv0) /\
  (forall argv0, parse_args strtof [argv0] = Configured (Settings "gruen" (#1)%f32) []) /\
  (forall argv0 color, color <> "-h" -> color <> "--help" ->
     parse_args strtof [argv0; color] = Configured (Settings color (#1)%f32) []) /\
  (forall argv0 color speed, color <> "-h" -> color <> "--help" ->
     parse_args strtof [argv0; color; speed] =
     Configured (Settings color (fst (parse_speed strtof speed)))
                (snd (parse_speed strtof speed))) /\
  (forall argv0 a1 a2 a3 rest,
     parse_args strtof (argv0 :: a1 :: a2 :: a3 :: rest) =
     match parse_args strtof [argv0; a1; a2] with
     | ShowHelp out => ShowHelp out
     | Configured cfg warnings => Configured cfg (warnings ++ [arity_warning argv0])
     end).
Proof.
  split; [|split; [reflexivity|split; [|split]]].
  - intros argv out. split.
    + destruct argv as [|argv0 [|h rest]]; [discriminate..|].
      unfold parse_args, arg. cbn [length lookup list_lookup default from_option]; unfold Datatypes.id.
      replace (1 <? S (S (length rest)))%nat with true by reflexivity. cbn [andb].
      destruct (streq h "-h") eqn:E1; cbn [orb].
      * intros [= <-]. apply streq_true in E1. eauto 10.
      * destruct (streq h "--help") eqn:E2.
        -- intros [= <-]. apply streq_true in E2. eauto 10.
        -- destruct (if (2 <? _)%nat then _ else _). discriminate.
    + intros (argv0 & h & rest & -> & Hh & ->).
      unfold parse_args, arg. cbn [length lookup list_lookup default from_option]; unfold Datatypes.id.
      replace (1 <? S (S (length rest)))%nat with true by reflexivity.
      destruct Hh as [-> | ->]; reflexivity.
  - intros argv0 color H1 H2. unfold parse_args, arg. cbn.
    fold (streq color "-h"). fold (streq color "--help").
    rewrite (streq_false _ _ H1), (streq_false _ _ H2). reflexivity.
  - intros argv0 color speed H1 H2. unfold parse_args, arg. cbn.
    fold (streq color "-h"). fold (streq color "--help").
    rewrite (streq_false _ _ H1), (streq_false _ _ H2). cbn.
    destruct (parse_speed strtof speed). rewrite app_nil_r. reflexivity.
  - intros argv0 a1 a2 a3 rest. unfold parse_args, arg.
    cbn [length lookup list_lookup default from_option]; unfold Datatypes.id.
    replace (1 <? S (S (S (S (length rest)))))%nat with true by reflexivity.
    replace (2 <? S (S (S (S (length rest)))))%nat with true by reflexivity.
    replace (3 <? S (S (S (S (length rest)))))%nat with true by reflexivity.
    replace (1 <? 3)%nat with true by reflexivity.
    replace (2 <? 3)%nat with true by reflexivity.
    replace (3 <? 3)%nat with false by reflexivity.
    cbn [andb]. destruct (streq a1 "-h" || streq a1 "--help"); [reflexivity|].
    destruct (parse_speed strtof a2) as [v w]. rewrite app_nil_r. reflexivity.
Qed.

End CommandLine.

(** ** Raw mode *)

Lemma clear_flags_bits flags mask n :
  is_tcflag flags -> 0 <= n ->
  Z.testbit (clear_flags flags mask) n = Z.testbit flags n && negb (Z.testbit mask n).
Proof.
  intros [H0 H32] Hn. unfold clear_flags, to_tcflag. rewrite Z.land_spec.
  destruct (Z.lt_ge_cases n 32) as [Hlt|Hge].
  - rewrite Z.mod_pow2_bits_low, Z.lnot_spec by lia. reflexivity.
  - assert (Hf : Z.testbit flags n = false).
    { destruct (Z.eq_dec flags 0) as [->|Hne]; [apply Z.bits_0|].
      apply Z.bits_above_log2; [lia|].
      apply Z.lt_le_trans with 32; [|exact Hge]. apply Z.log2_lt_pow2; lia. }
    rewrite Hf. reflexivity.
Qed.

Lemma clear_flags_range flags mask :
  is_tcflag flags -> is_tcflag (clear_flags flags mask) /\ clear_flags flags mask <= flags.
Proof.
  intros [H0 H32]. unfold clear_flags, to_tcflag.
  assert (Hm : 0 <= Z.lnot mask mod 2 ^ 32 < 2 ^ 32) by (apply Z.mod_pos_bound; lia).
  set (m := Z.lnot mask mod 2 ^ 32) in *.
  assert (Hle : Z.land flags m <= flags).
  { assert (Hd : Z.ldiff (Z.land flags m) flags = 0).
    { apply Z.bits_inj'. intros k Hk.
      rewrite Z.ldiff_spec, Z.land_spec, Z.bits_0.
      destruct (Z.testbit flags k), (Z.testbit m k); reflexivity. }
    pose proof (Z.sub_nocarry_ldiff flags (Z.land flags m) Hd) as E.
    pose proof (proj2 (Z.ldiff_nonneg flags (Z.land flags m)) (or_introl H0)). lia. }
  split; [split; [apply Z.land_nonneg; lia|lia]|exact Hle].
Qed.

Lemma set_cc_lookup cc k v cc' :
  set_cc cc k v = Some cc' ->
  length cc' = length cc /\ cc' !! k = Some v /\
  forall k', k' <> k -> cc' !! k' = cc !! k'.
Proof.
  unfold set_cc. destruct (Nat.ltb_spec k (length cc)); [|discriminate].
  intros [= <-]. split; [apply length_insert|].
  split; [apply list_lookup_insert_eq; assumption|].
  intros k' Hk. apply list_lookup_insert_ne. congruence.
Qed.

Section RawModeProperties.

Variables ECHO ICANON ISIG IXON : Z.
Variables VMIN VTIME : nat.

(** X3: the settings [enableRawMode] asks for differ from the ones it
    read in this only: in the local flags the bits of [ECHO], [ICANON]
    and [ISIG] are cleared, in the input flags the bits of [IXON], and
    the control characters [VMIN] and [VTIME] are zero.  Output and
    control flags, every other bit and every other control character
    are as before, and no flag word leaves the range of [tcflag_t].
    Doing it twice changes nothing more. *)
Theorem X3_raw_mode_clears_only_its_flags (orig_termios : termios) :
  is_tcflag (c_iflag orig_termios) -> is_tcflag (c_lflag orig_termios) ->
  (VMIN < length (c_cc orig_termios))%nat -> (VTIME < length (c_cc orig_termios))%nat ->
  exists t,
    raw ECHO ICANON ISIG IXON VMIN VTIME orig_termios = Some t /\
    (forall n, 0 <= n ->
       Z.testbit (c_lflag t) n =
       Z.testbit (c_lflag orig_termios) n &&
       negb (Z.testbit ECHO n || Z.testbit ICANON n || Z.testbit ISIG n)) /\
    (forall n, 0 <= n ->
       Z.testbit (c_iflag t) n =
       Z.testbit (c_iflag orig_termios) n && negb (Z.testbit IXON n)) /\
    is_tcflag (c_lflag t) /\ is_tcflag (c_iflag t) /\
    c_oflag t = c_oflag orig_termios /\ c_cflag t = c_cflag orig_termios /\
    length (c_cc t) = length (c_cc orig_termios) /\
    c_cc t !! VMIN = Some 0 /\ c_cc t !! VTIME = Some 0 /\
    (forall k, k <> VMIN -> k <> VTIME -> c_cc t !! k = c_cc orig_termios !! k) /\
    raw ECHO ICANON ISIG IXON VMIN VTIME t = Some t.
Proof.
  intros Hi Hl Hmin Htime. unfold raw.
  destruct (set_cc (c_cc orig_termios) VMIN 0) as [cc1|] eqn:E1;
    [|unfold set_cc in E1; destruct (Nat.ltb_spec VMIN (length (c_cc orig_termios)));
      [discriminate|lia]].
  destruct (set_cc_lookup _ _ _ _ E1) as (L1 & V1 & O1).
  cbn [mbind option_bind].
  destruct (set_cc cc1 VTIME 0) as [cc2|] eqn:E2;
    [|unfold set_cc in E2; destruct (Nat.ltb_spec VTIME (length cc1));
      [discriminate|lia]].
  destruct (set_cc_lookup _ _ _ _ E2) as (L2 & V2 & O2).
  cbn [mbind option_bind]. eexists. split; [reflexivity|]. cbn [c_lflag c_iflag c_oflag c_cflag c_cc].
  assert (Hmin2 : cc2 !! VMIN = Some 0).
  { destruct (Nat.eq_dec VMIN VTIME) as [->|Hne]; [exact V2|]. rewrite O2 by exact Hne. exact V1. }
  split.
  { intros n Hn. rewrite clear_flags_bits, !Z.lor_spec by assumption. reflexivity. }
  split; [intros n Hn; apply clear_flags_bits; assumption|].
  split; [apply clear_flags_range, Hl|]. split; [apply clear_flags_range, Hi|].
  split; [reflexivity|]. split; [reflexivity|]. split; [congruence|].
  split; [exact Hmin2|]. split; [exact V2|].
  split; [intros k H1 H2; rewrite O2, O1 by assumption; reflexivity|].
  assert (Ecc : set_cc cc2 VMIN 0 = Some cc2).
  { unfold set_cc. destruct (Nat.ltb_spec VMIN (length cc2)); [|lia].
    rewrite list_insert_id by exact Hmin2. reflexivity. }
  assert (Ecc' : set_cc cc2 VTIME 0 = Some cc2).
  { unfold set_cc. destruct (Nat.ltb_spec VTIME (length cc2)); [|lia].
    rewrite list_insert_id by exact V2. reflexivity. }
  rewrite Ecc. cbn [mbind option_bind]. rewrite Ecc'. cbn [mbind option_bind].
  f_equal. f_equal.
  - apply Z.bits_inj'. intros n Hn.
    rewrite !clear_flags_bits by (try assumption; apply clear_flags_range, Hi).
    destruct (Z.testbit (c_iflag orig_termios) n), (Z.testbit IXON n); reflexivity.
  - apply Z.bits_inj'. intros n Hn.
    rewrite !clear_flags_bits by (try assumption; apply clear_flags_range, Hl).
    destruct (Z.testbit (c_lflag orig_termios) n), (Z.testbit (Z.lor (Z.lor ECHO ICANON) ISIG) n);
      reflexivity.
Qed.

End RawModeProperties.

(** On Linux: [ECHO] is 0o10, [ICANON] 0o2, [ISIG] 0o1, [IXON] 0o2000,
    [VMIN] 6 and [VTIME] 5; a terminal in its usual cooked mode. *)
Lemma X3_witness :
  is_tcflag 17664 /\ is_tcflag 35387 /\
  exists t,
    raw 8 2 1 1024 6 5 (Termios 17664 5 191 35387 (replicate 32 3)) = Some t /\
    c_lflag t = 35376 /\ c_iflag t = 16640.
Proof.
  assert (H1 : is_tcflag 17664) by (unfold is_tcflag; lia).
  assert (H2 : is_tcflag 35387) by (unfold is_tcflag; lia).
  split; [exact H1|]. split; [exact H2|].
  destruct (X3_raw_mode_clears_only_its_flags 8 2 1 1024 6 5
              (Termios 17664 5 191 35387 (replicate 32 3)) H1 H2
              ltac:(cbn; lia) ltac:(cbn; lia)) as (t & Ht & _).
  exists t. split; [exact Ht|].
  cbn in Ht. injection Ht as <-. split; reflexivity.
Defined.

(** ** The run loop *)

Section RunLoop.

Variables sin cos : spec_float -> spec_float.
Variable strtof : string -> spec_float * string.
Variables EAGAIN EWOULDBLOCK : Z.

(** What an iteration adds to the trace holds no terminal restore. *)
Lemma advance_events cfg pal A B :
  RestoreTerminal ∉ fst (advance sin cos cfg pal A B).
Proof.
  unfold advance. destruct (render sin cos A B) as [fr|]; [|cbn; apply not_elem_of_nil].
  destruct (emit_frame pal (b fr)) as [out|]; [|cbn; apply not_elem_of_nil].
  destruct (sleep_us (speedFactor cfg)) as [us|]; cbn [fst];
    rewrite ?elem_of_cons, elem_of_nil; intuition discriminate.
Qed.

Lemma main_loop_exit_trace cfg pal reads :
  forall A B trace status trace',
    main_loop sin cos EAGAIN EWOULDBLOCK cfg pal reads A B trace = Exit status trace' ->
    exists evs, trace' = trace ++ evs ++ disableRawMode /\ RestoreTerminal ∉ evs.
Proof.
  induction reads as [|r reads IH]; intros A B trace status trace'; cbn [main_loop].
  - discriminate.
  - destruct (poll EAGAIN EWOULDBLOCK r).
    + pose proof (advance_events cfg pal A B) as Hev.
      destruct (advance sin cos cfg pal A B) as [evs0 [[A' B']|f]]; [|discriminate].
      intros H. destruct (IH _ _ _ _ _ H) as (evs & -> & Hevs).
      exists (evs0 ++ evs). rewrite <- !app_assoc. split; [reflexivity|].
      rewrite elem_of_app. cbn [fst] in Hev. tauto.
    + intros [= _ <-]. exists []. split; [reflexivity|apply not_elem_of_nil].
    + intros [= _ <-]. exists [Perror "read stdin failed"]. split; [reflexivity|].
      rewrite elem_of_cons, elem_of_nil. intuition discriminate.
Qed.

(** X4: whenever the process exits, the terminal is as it was found.
    After [-h] or [--help] and after a failed [tcgetattr] nothing was
    changed and nothing is restored (the status is 0 and 1); in every
    other case, a failed [tcsetattr] (status 1) and the end of the loop
    (status 0) alike, the exit handler runs once, as the last thing the
    process does: it restores the settings and shows the cursor. *)
Theorem X4_terminal_restored_on_every_exit (argv : list string) (t : terminal)
    (reads : list read_result) :
  match main sin cos strtof EAGAIN EWOULDBLOCK argv t reads with
  | Exit status trace =>
      match parse_args strtof argv with
      | ShowHelp out => status = 0 /\ trace = [Stdout out]
      | Configured cfg warnings =>
          if tcgetattr_ok t then
            status = (if tcsetattr_ok t then 0 else 1) /\
            exists pre,
              trace = pre ++ [RestoreTerminal; Stdout [esc "[?25h"]] /\
              RestoreTerminal ∉ pre
          else
            status = 1 /\ (RestoreTerminal ∉ trace) /\
            last trace = Some (Perror "tcgetattr failed")
      end
  | Undefined _ _ | Running _ _ _ => True
  end.
Proof.
  unfold main. destruct (parse_args strtof argv) as [out|cfg warnings]; [auto|].
  destruct (setColorPalette (colorName cfg)) as [pal w].
  unfold enableRawMode. destruct (tcgetattr_ok t); cbn [negb].
  - destruct (tcsetattr_ok t); cbn [negb].
    + destruct (main_loop sin cos EAGAIN EWOULDBLOCK cfg pal reads fzero fzero _)
        as [status trace| |] eqn:E; [|exact I..].
      pose proof (main_loop_exit_status _ _ _ _ _ _ _ _ _ _ _ _ E) as ->.
      destruct (main_loop_exit_trace _ _ _ _ _ _ _ _ E) as (evs & -> & Hevs).
      split; [reflexivity|].
      eexists. rewrite !app_assoc. split; [reflexivity|].
      rewrite !elem_of_app, !elem_of_cons, !elem_of_nil. intuition discriminate.
    + split; [reflexivity|]. exists [Stderr (warnings ++ w); Perror "tcsetattr failed"].
      split; [reflexivity|]. rewrite !elem_of_cons, elem_of_nil. intuition discriminate.
  - split; [reflexivity|]. split; [|reflexivity].
    cbn. rewrite !elem_of_cons, elem_of_nil. intuition discriminate.
Qed.

(** X5: the loop ends at the first read that quits: a key among [q], [Q]
    and ESC, or a failed read that is not [EAGAIN] or [EWOULDBLOCK].
    What is to be read after it is never looked at, and as long as every
    read so far lets the loop go on the process does not exit. *)
Theorem X5_loop_ends_at_first_quit (cfg : settings) (pal : palette)
    (A B : spec_float) (trace : list event) :
  (forall r, ~ proceeds EAGAIN EWOULDBLOCK r <->
     (exists c, r = ReadByte c /\ (c = "q"%char \/ c = "Q"%char \/ c = ESC)) \/
     (exists errno, r = ReadError errno /\ errno <> EAGAIN /\ errno <> EWOULDBLOCK)) /\
  (forall pre r post, ~ proceeds EAGAIN EWOULDBLOCK r ->
     main_loop sin cos EAGAIN EWOULDBLOCK cfg pal (pre ++ r :: post) A B trace =
     main_loop sin cos EAGAIN EWOULDBLOCK cfg pal (pre ++ [r]) A B trace) /\
  (forall reads status trace',
     Forall (proceeds EAGAIN EWOULDBLOCK) reads ->
     main_loop sin cos EAGAIN EWOULDBLOCK cfg pal reads A B trace <> Exit status trace') /\
  (forall reads status trace',
     main_loop sin cos EAGAIN EWOULDBLOCK cfg pal reads A B trace = Exit status trace' ->
     exists pre r post,
       reads = pre ++ r :: post /\ Forall (proceeds EAGAIN EWOULDBLOCK) pre /\
       ~ proceeds EAGAIN EWOULDBLOCK r).
Proof.
  split; [|split; [|split]].
  - intros r. unfold proceeds. split.
    + destruct r as [c| |errno]; cbn [poll].
      * destruct (Ascii.eqb_spec c "q") as [->|H1]; [eauto 6|].
        destruct (Ascii.eqb_spec c "Q") as [->|H2]; [eauto 6|].
        destruct (Ascii.eqb_spec c ESC) as [->|H3]; [eauto 6|].
        intros H. contradiction H. reflexivity.
      * intros H. contradiction H. reflexivity.
      * destruct (Z.eqb_spec errno EAGAIN) as [H1|H1];
          [intros H; contradiction H; reflexivity|].
        destruct (Z.eqb_spec errno EWOULDBLOCK) as [H2|H2];
          [intros H; contradiction H; reflexivity|].
        eauto 6.
    + intros [(c & -> & Hc)|(errno & -> & H1 & H2)].
      * rewrite (poll_quit_key _ _ c Hc). discriminate.
      * rewrite (poll_read_error _ _ errno H1 H2). discriminate.
  - intros pre r post Hr. revert A B trace.
    induction pre as [|p pre IH]; intros A B trace; cbn [app main_loop].
    + unfold proceeds in Hr. destruct (poll EAGAIN EWOULDBLOCK r); [contradiction|reflexivity..].
    + destruct (poll EAGAIN EWOULDBLOCK p); [|reflexivity..].
      destruct (advance sin cos cfg pal A B) as [evs [[A' B']|f]]; [apply IH|reflexivity].
  - intros reads status trace' Hall. revert A B trace.
    induction Hall as [|r reads Hr _ IH]; intros A B trace; cbn [main_loop]; [discriminate|].
    unfold proceeds in Hr. rewrite Hr.
    destruct (advance sin cos cfg pal A B) as [evs [[A' B']|f]]; [apply IH|discriminate].
  - intros reads status trace'. revert A B trace.
    induction reads as [|r reads IH]; intros A B trace; cbn [main_loop]; [discriminate|].
    destruct (poll EAGAIN EWOULDBLOCK r) eqn:Hp.
    + destruct (advance sin cos cfg pal A B) as [evs [[A' B']|f]]; [|discriminate].
      intros H. destruct (IH _ _ _ H) as (pre & q & post & -> & Hpre & Hq).
      exists (r :: pre), q, post. split; [reflexivity|]. split; [|exact Hq].
      constructor; [exact Hp|exact Hpre].
    + intros _. exists [], r, reads. split; [reflexivity|]. split; [constructor|].
      unfold proceeds. rewrite Hp. discriminate.
    + intros _. exists [], r, reads. split; [reflexivity|]. split; [constructor|].
      unfold proceeds. rewrite Hp. discriminate.
Qed.

(** X6: as long as the loop runs it draws one frame per read, whatever
    is read: a key other than the quit keys, nothing, or [EAGAIN].
    After [n] reads the trace has grown by [n] frames, each followed by
    one and the same sleep, and the angles have taken [n] steps. *)
Theorem X6_one_frame_per_read (cfg : settings) (pal : palette)
    (reads : list read_result) (A B A' B' : spec_float) (trace trace' : list event) :
  main_loop sin cos EAGAIN EWOULDBLOCK cfg pal reads A B trace = Running A' B' trace' ->
  Forall (proceeds EAGAIN EWOULDBLOCK) reads /\
  A' = Nat.iter (length reads) next_A A /\
  B' = Nat.iter (length reads) next_B B /\
  exists outs us,
    length outs = length reads /\
    (reads <> [] -> sleep_us (speedFactor cfg) = Ok us) /\
    trace' = trace ++ frames_trace outs us.
Proof.
  revert A B trace. induction reads as [|r reads IH]; intros A B trace; cbn [main_loop].
  - intros [= <- <- <-]. split; [constructor|]. split; [reflexivity|]. split; [reflexivity|].
    exists [], 0. split; [reflexivity|]. split; [congruence|]. cbn. rewrite app_nil_r. reflexivity.
  - destruct (poll EAGAIN EWOULDBLOCK r) eqn:Hp; [|discriminate..].
    destruct (advance sin cos cfg pal A B) as [evs [[A1 B1]|f]] eqn:Ha; [|discriminate].
    apply advance_ok in Ha as (-> & -> & fr & out & us & _ & _ & Hs & ->).
    intros H. destruct (IH _ _ _ H) as (Hall & -> & -> & outs & us' & Hlen & Hus & ->).
    split; [constructor; assumption|].
    cbn [length]. rewrite !Nat.iter_succ_r.
    split; [reflexivity|]. split; [reflexivity|].
    exists (out :: outs), us. split; [cbn; congruence|]. split; [intros _; exact Hs|].
    rewrite <- app_assoc. f_equal. unfold frames_trace. cbn [mbind list_bind app].
    destruct reads as [|r' reads'].
    + destruct outs; [reflexivity|discriminate Hlen].
    + assert (us' = us) as -> by (specialize (Hus ltac:(discriminate)); congruence).
      reflexivity.
Qed.

End RunLoop.


(** ** Glyphs and colour tiers *)

(** X7: the glyph literal is indexed by [N > 0 ? N : 0] with no upper
    bound of its own.  Up to 11 the character is one of the twelve
    glyphs, the dimmest for every [N <= 0]; at 12 it is the terminator
    of the literal; from 13 on the access is past the literal. *)
Theorem X7_glyph_lookup_bounds (N : Z) :
  (N <= 0 -> glyph N = Ok "."%char) /\
  (N <= 11 -> exists ch, glyph N = Ok ch /\ In ch ramp_glyphs /\
                         String.get (Z.to_nat (Z.max N 0)) ramp = Some ch) /\
  (glyph N = Ok NUL <-> N = 12) /\
  (glyph N = Fault RampIndex <-> 12 < N).
Proof.
  unfold glyph, literal_at. rewrite ramp_index_max.
  destruct (Z.ltb_spec (Z.max N 0) 0); [lia|].
  destruct (Z_le_gt_dec N 12) as [H12|H12].
  - assert (Hk : exists k, (k < 13)%nat /\ Z.max N 0 = Z.of_nat k).
    { exists (Z.to_nat (Z.max N 0)). lia. }
    destruct Hk as (k & Hk & Ek). rewrite Ek, Nat2Z.id.
    split; [intros H0; replace k with 0%nat by lia; reflexivity|].
    do 12 (destruct k as [|k];
           [split; [intros _; eexists; split; [reflexivity|split; [cbn; tauto|reflexivity]]|];
            split; (split; [discriminate|lia])|]).
    destruct k as [|k]; [|lia].
    split; [lia|]. split; [split; [lia|reflexivity]|]. split; [discriminate|lia].
  - split; [lia|]. split; [lia|].
    assert (Hk : exists k, Z.to_nat (Z.max N 0) = (13 + k)%nat).
    { exists (Z.to_nat (Z.max N 0) - 13)%nat. lia. }
    destruct Hk as (k & Ek). rewrite Ek. cbn [Nat.add String.get ramp].
    destruct (Z.eqb_spec (Z.max N 0) (Z.of_nat (String.length ramp))) as [E|E];
      [cbn in E; lia|].
    split; [split; [discriminate|intros; exfalso; lia]|].
    split; [intros _; lia|reflexivity].
Qed.

Lemma tier_other pal ch : ~ In ch ramp_glyphs -> ch <> NUL -> tier pal ch = "".
Proof.
  intros Hin Hnul.
  destruct ch as [[] [] [] [] [] [] [] []];
    first [reflexivity
          |exfalso; apply Hnul; reflexivity
          |exfalso; apply Hin; cbn; tauto].
Qed.

(** X8: the colour of a cell follows the brightness of its glyph: the
    three dimmest glyphs of the ramp get the first palette entry, the
    next four the second and the five brightest the third, so that a
    brighter glyph never gets a dimmer tier.  Any other character, the
    blank among them, is printed with no colour code, except the NUL
    character, which [strchr] finds in every string and which therefore
    gets the first entry. *)
Theorem X8_tier_follows_brightness (pal : palette) :
  (forall k ch, String.get k ramp = Some ch -> tier pal ch = tier_of_index pal k) /\
  (forall ch, ~ In ch ramp_glyphs -> ch <> NUL -> tier pal ch = "") /\
  tier pal SPACE = "" /\
  tier pal NUL = pal0 pal.
Proof.
  split; [|split; [apply tier_other|split; reflexivity]].
  intros k ch.
  do 12 (destruct k as [|k]; [intros [= <-]; reflexivity|]).
  intros H. discriminate H.
Qed.

(** ** The depth test *)

(** X9: drawing a sample touches at most the one cell it lands in, and
    only to raise its depth: the frame is left as it was, or the sample
    is on screen, its inverse depth exceeds the one stored and takes its
    place.  Drawing the same sample again changes nothing. *)
Theorem X9_depth_test_is_idempotent (s : sample) (st st' : frame) :
  well_sized st ->
  plot s st = Ok st' ->
  plot s st' = Ok st' /\
  (forall o, o <> cell_of s -> z st' !! o = z st !! o /\ b st' !! o = b st !! o) /\
  (st' = st \/
   on_screen (s_x s) (s_y s) = true /\
   z st' !! cell_of s = Some (s_D s) /\
   b st' !! cell_of s = Some (glyph_of s) /\
   exists zo, z st !! cell_of s = Some zo /\ fgt (s_D s) zo = true).
Proof.
  intros Hwf Hp. pose proof Hwf as [Hz Hb].
  destruct (on_screen (s_x s) (s_y s)) eqn:Hon.
  - destruct (offset_on_screen _ _ Hon) as [_ Ho].
    destruct (lookup_lt_is_Some_2 (z st) (cell_of s)) as [zo Hzo];
      [rewrite Hz; unfold cell_of, CELLS; lia|].
    assert (Hload : load (z st) (offset (s_x s) (s_y s)) = Ok zo).
    { destruct (load_in_range (z st) (offset (s_x s) (s_y s))) as (zo' & -> & Hzo');
        [rewrite Hz; unfold CELLS; lia|].
      unfold cell_of in Hzo. congruence. }
    destruct (fgt (s_D s) zo) eqn:Hgt.
    + assert (Hg : glyph (s_N s) = Ok (glyph_of s)).
      { unfold glyph_of. destruct (glyph (s_N s)) as [ch|f] eqn:E; [reflexivity|].
        unfold plot in Hp. rewrite Hon, Hload in Hp. cbn [rbind] in Hp.
        rewrite Hgt, store_in_range in Hp by (rewrite Hz; unfold CELLS; lia).
        cbn [rbind] in Hp. rewrite E in Hp. discriminate Hp. }
      rewrite (plot_overwrites s st zo _ Hwf Hon Hzo Hgt Hg) in Hp.
      injection Hp as <-. fold (cell_of s).
      assert (Hlz : (cell_of s < length (z st))%nat) by (rewrite Hz; unfold cell_of, CELLS; lia).
      assert (Hlb : (cell_of s < length (b st))%nat) by (rewrite Hb; unfold cell_of, CELLS; lia).
      split; [|split].
      * unfold plot. rewrite Hon. cbn [z b].
        destruct (load_in_range (<[cell_of s := s_D s]> (z st)) (offset (s_x s) (s_y s)))
          as (zo' & -> & Hzo'); [rewrite length_insert, Hz; unfold CELLS; lia|].
        cbn [rbind]. fold (cell_of s) in Hzo'.
        rewrite list_lookup_insert_eq in Hzo' by exact Hlz. injection Hzo' as <-.
        unfold fgt. rewrite SFltb_irrefl. reflexivity.
      * intros o Hne. cbn [z b]. rewrite !list_lookup_insert_ne by congruence. auto.
      * right. cbn [z b]. rewrite !list_lookup_insert_eq by assumption.
        split; [reflexivity|]. split; [reflexivity|]. split; [reflexivity|].
        exists zo. auto.
    + unfold plot in Hp. rewrite Hon, Hload in Hp. cbn [rbind] in Hp. rewrite Hgt in Hp.
      injection Hp as <-. split; [|auto].
      unfold plot. rewrite Hon, Hload. cbn [rbind]. rewrite Hgt. reflexivity.
  - rewrite (plot_off_screen s st Hon) in Hp. injection Hp as <-.
    split; [apply plot_off_screen, Hon|auto].
Qed.

Lemma X9_witness :
  well_sized clear /\
  (exists st', plot (Sample 40 12 (#1)%f32 3) clear = Ok st' /\
               plot (Sample 40 12 (#1)%f32 3) st' = Ok st').
Proof.
  split; [exact clear_well_sized|].
  destruct (plot_defined (Sample 40 12 (#1)%f32 3) clear clear_well_sized
              ltac:(unfold drawable; cbn; lia)) as [st' Hp].
  exists st'. split; [exact Hp|].
  exact (proj1 (X9_depth_test_is_idempotent _ _ _ clear_well_sized Hp)).
Defined.

(** X10: while a frame is drawn the depth of a cell only grows, and its
    character changes only when its depth does: after any run of samples
    a cell is as before, or its depth is greater than before. *)
Theorem X10_depth_only_grows (ss : list sample) (st st' : frame) :
  well_sized st ->
  run ss st = Ok st' ->
  well_sized st' /\
  forall o d g d' g',
    z st !! o = Some d -> b st !! o = Some g ->
    z st' !! o = Some d' -> b st' !! o = Some g' ->
    (d' = d /\ g' = g) \/ fgt d' d = true.
Proof.
  intros Hwf Hr. destruct (run_cells ss st st' Hwf Hr) as [Hwf' Hc].
  split; [exact Hwf'|]. intros o d g d' g' Hd Hg Hd' Hg'.
  destruct (Hc o d g Hd Hg) as [Ez Eb].
  destruct (cell_fold_spec o ss d g) as [[E _]|(s & _ & _ & E & Hgt & _)];
    rewrite E in Ez, Eb; cbn [fst snd] in Ez, Eb.
  - left. split; congruence.
  - right. assert (d' = s_D s) as -> by congruence. exact Hgt.
Qed.

Lemma X10_witness :
  well_sized clear /\
  exists st', run [Sample 40 12 (#1)%f32 3; Sample 40 12 (#2)%f32 5] clear = Ok st' /\
              well_sized st'.
Proof.
  split; [exact clear_well_sized|].
  destruct (run_defined [Sample 40 12 (#1)%f32 3; Sample 40 12 (#2)%f32 5] clear
              clear_well_sized
              ltac:(repeat constructor; unfold drawable; cbn; lia)) as [st' Hr].
  exists st'. split; [exact Hr|].
  exact (proj1 (X10_depth_only_grows _ _ _ clear_well_sized Hr)).
Defined.

(** ** What is drawn is printed *)

Section Printed.

Variables sin cos : spec_float -> spec_float.

Lemma body_run A B l :
  forall st fr,
    foldM (fun ji st => body sin cos A B (fst ji) (snd ji) st) l st = Ok fr ->
    exists ss, collect (fun ji => project sin cos A B (snd ji) (fst ji)) l = Ok ss /\
               run ss st = Ok fr.
Proof.
  induction l as [|ji l IH]; intros st fr; cbn [foldM collect].
  - intros [= <-]. exists []. split; reflexivity.
  - unfold body at 1. destruct (project sin cos A B (snd ji) (fst ji)) as [s|]; [|discriminate].
    cbn [rbind]. destruct (plot s st) as [st1|] eqn:Hp; [|discriminate]. cbn [rbind].
    intros H. destruct (IH _ _ H) as (ss & -> & Hr). cbn [rbind].
    exists (s :: ss). split; [reflexivity|]. unfold run in *. cbn [foldM]. rewrite Hp. exact Hr.
Qed.

Lemma render_as_run A B fr :
  render sin cos A B = Ok fr ->
  exists ss, samples sin cos A B = Ok ss /\ run ss clear = Ok fr.
Proof. unfold render. rewrite nested_loops_grid. apply body_run. Qed.

(** X11: a frame never has a character in its first column or its first
    row: every cell that is not blank lies at an offset from 81 to 1759
    that is no multiple of 80.  These are positions at which the emission
    loop prints the cell, so the line breaks it prints in place of every
    80th cell hide nothing that was drawn. *)
Theorem X11_line_breaks_hide_no_glyph (A B : spec_float) (fr : frame) :
  render sin cos A B = Ok fr ->
  well_sized fr /\
  forall o g, b fr !! o = Some g -> g <> SPACE ->
    (81 <= o < 1760)%nat /\ Z.of_nat o mod 80 <> 0 /\
    (exists d, z fr !! o = Some d /\ fgt d fzero = true) /\
    forall pal, emit_position pal (b fr) (Z.of_nat o) = Ok (colorized pal g).
Proof.
  intros Hr. destruct (render_as_run A B fr Hr) as (ss & _ & Hrun).
  destruct (run_clear_cells ss fr Hrun) as [Hwf Hc]. split; [exact Hwf|].
  intros o g Hg Hne.
  assert (Ho : (o < CELLS)%nat).
  { destruct Hwf as [_ Hb]. rewrite <- Hb. eapply lookup_lt_Some, Hg. }
  destruct (Hc o Ho) as (d & g' & Hd & Hg' & Hspec).
  assert (g' = g) as -> by congruence.
  destruct Hspec as [(_ & -> & _)|(s & (_ & Hl & Hpos & _) & -> & _)]; [contradiction|].
  apply lands_spec in Hl as [Hon <-].
  destruct (offset_on_screen _ _ Hon) as [Eo Hrange].
  apply on_screen_spec in Hon as [Hx Hy].
  assert (Hmod : Z.of_nat (cell_of s) mod 80 = s_x s).
  { unfold cell_of. rewrite Z2Nat.id by lia. rewrite Eo.
    replace (s_x s + 80 * s_y s) with (s_x s + s_y s * 80) by lia.
    rewrite Z.mod_add by lia. apply Z.mod_small. lia. }
  assert (H81 : 81 <= Z.of_nat (cell_of s) < 1760).
  { unfold cell_of. rewrite Z2Nat.id by lia. lia. }
  split; [lia|]. split; [lia|]. split; [eauto|].
  intros pal. unfold emit_position.
  destruct (Z.eqb_spec (Z.of_nat (cell_of s) mod 80) 0); [lia|].
  destruct (Z.ltb_spec (Z.of_nat (cell_of s)) 1760); [|lia].
  unfold load. destruct (Z.ltb_spec (Z.of_nat (cell_of s)) 0); [lia|].
  rewrite Nat2Z.id, Hg. reflexivity.
Qed.

End Printed.

(** ** The sleep between frames *)

Lemma to_useconds_in_range x lo hi :
  finite_in F32.prec F32.emax x -> (IZR lo <= B2R x <= IZR hi)%R ->
  0 <= lo -> hi <= UINT_MAX ->
  exists v, to_useconds x = Ok v /\ lo <= v <= hi.
Proof.
  intros [Hv Hf] Hr Hlo Hhi. unfold to_useconds.
  assert (Hok : forall v, lo <= v <= hi ->
            (if (0 <=? v) && (v <=? UINT_MAX) then Ok v else Fault ConvRange) = Ok v).
  { intros v Hvr. destruct (Z.leb_spec 0 v); [|lia].
    destruct (Z.leb_spec v UINT_MAX); [reflexivity|lia]. }
  destruct x as [s|s| |s m e]; try discriminate Hf; cbn [trunc].
  - cbn [B2R] in Hr. assert (lo <= 0 <= hi) by (split; apply le_IZR; lra).
    exists 0. rewrite Hok by assumption. auto.
  - rewrite B2R_finite, F2R_cond_Zopp in Hr.
    pose proof (shiftl_floor m e) as [Hfl1 Hfl2]. rewrite plus_IZR in Hfl2.
    set (fl := Z.shiftl (Zpos m) e) in *.
    assert (Hrange : lo <= cond_Zopp s fl <= hi).
    { destruct s; cbn [cond_Zopp].
      - split.
        + apply le_IZR. rewrite opp_IZR. lra.
        + assert (- hi < fl + 1); [|lia]. apply lt_IZR. rewrite plus_IZR, opp_IZR. lra.
      - split.
        + assert (lo < fl + 1); [|lia]. apply lt_IZR. rewrite plus_IZR. lra.
        + apply le_IZR. lra. }
    exists (cond_Zopp s fl). rewrite Hok by assumption. auto.
Qed.

(** A finite [float] is below [2^128]. *)
Lemma finite32_below_max x :
  finite_in F32.prec F32.emax x -> (B2R x < powerRZ 2 128)%R.
Proof.
  intros [Hv Hf]. pose proof (powerRZ_2_pos 128) as Hp.
  destruct x as [s|s| |s m e]; try discriminate Hf; cbn [B2R]; [exact Hp|].
  rewrite F2R_cond_Zopp. pose proof (F2R_pos (Zpos m) e ltac:(lia)) as Hm.
  assert (Hlt : (F2R (Zpos m) e < powerRZ 2 128)%R).
  { cbn [valid_binary] in Hv. apply bounded_iff in Hv as [Hc Hmax].
    unfold fexp, emin, F32.prec, F32.emax in Hc, Hmax.
    pose proof (F2R_digits (Zpos m) e ltac:(lia)) as [_ Hd]. cbn [Zdigits2] in Hd.
    pose proof (powerRZ_2_le (Zpos (digits2_pos m) + e) 128 ltac:(lia)). lra. }
  destruct s; lra.
Qed.

Lemma representable_sleep_max : representable F32.prec F32.emax 2184511488.
Proof.
  replace 2184511488%R with (F2R 33333 16).
  - apply representable_small; cbv; congruence.
  - rewrite F2R_int_up by lia. reflexivity.
Qed.

Lemma representable_sleep_min : representable F32.prec F32.emax (powerRZ 2 (-113)).
Proof.
  replace (powerRZ 2 (-113)) with (F2R 1 (-113)) by (unfold F2R; lra).
  apply representable_small; cbv; congruence.
Qed.

Lemma sleep_quotient_range speedFactor lo hi :
  finite_in F32.prec F32.emax speedFactor -> (0 < B2R speedFactor)%R ->
  representable F32.prec F32.emax lo -> representable F32.prec F32.emax hi ->
  (0 < lo)%R -> (lo * B2R speedFactor <= 33333 <= hi * B2R speedFactor)%R ->
  in_range lo hi (sleep_quotient speedFactor).
Proof.
  intros Hs Hpos Hlo Hhi Hlo0 Hr. unfold sleep_quotient, baseSleep.
  destruct (of_int_exact 33333 eq_refl) as [Hb Eb].
  assert (Hq : (lo <= B2R (#33333)%f32 / B2R speedFactor <= hi)%R).
  { rewrite Eb. set (d := B2R speedFactor) in *.
    assert (Hinv : (33333 / d * d = 33333)%R) by (field; lra).
    set (q := (33333 / d)%R) in *. split; nra. }
  apply (SFdiv_range F32.prec F32.emax F32_prec_pos); auto.
  - rewrite Eb. lra.
  - lra.
Qed.

(** X12: for an ordinary speed factor of 1 or more [usleep] is called
    with at most 33333 microseconds; for one between 1/65536 and 1 with
    at least 33333 and at most 33333 * 65536.  In both cases the
    conversion of the quotient to [useconds_t] is defined.  A speed
    factor of 1 gives 33333 and an infinite one 0, a loop without
    pause. *)
Theorem X12_sleep_shrinks_with_speed (speedFactor : spec_float) :
  finite32 speedFactor = true ->
  (fle (#1)%f32 speedFactor = true ->
   exists us, sleep_us speedFactor = Ok us /\ 0 <= us <= baseSleep) /\
  (fle (#1 / #65536)%f32 speedFactor = true -> fle speedFactor (#1)%f32 = true ->
   exists us, sleep_us speedFactor = Ok us /\ baseSleep <= us <= baseSleep * 65536) /\
  sleep_us (#1)%f32 = Ok baseSleep /\
  sleep_us (S754_infinity false) = Ok 0.
Proof.
  intros Hfin%finite32_spec.
  destruct (of_int_exact 1 eq_refl) as [H1 E1].
  assert (H16 : finite_in F32.prec F32.emax (#1 / #65536)%f32) by (split; reflexivity).
  assert (E16 : B2R (#1 / #65536)%f32 = (/ 65536)%R).
  { match goal with
    | |- B2R ?x = _ => let f := eval vm_compute in x in change x with f
    end.
    cbn [B2R cond_Zopp].
    pose proof (F2R_int 1 (-16) ltac:(lia)) as H. change (1 * 2 ^ (- -16)) with 65536 in H.
    rewrite (F2R_shift 8388608 (-39) (-39)) by lia.
    rewrite (F2R_shift 65536 (-16) (-39)) in H by lia.
    change (65536 * 2 ^ (-16 - -39)) with 549755813888 in H.
    change (8388608 * 2 ^ (-39 - -39)) with 8388608.
    unfold F2R in *. lra. }
  split; [|split; [|split; reflexivity]].
  - intros Hle. apply SFleb_iff in Hle; [|assumption..]. rewrite E1 in Hle.
    pose proof (finite32_below_max speedFactor Hfin) as Hmax.
    assert (Hpow : (powerRZ 2 (-113) * powerRZ 2 128 = 32768)%R).
    { rewrite <- powerRZ_add by lra. simpl. lra. }
    pose proof (powerRZ_2_pos (-113)) as Hp.
    destruct (sleep_quotient_range speedFactor (powerRZ 2 (-113)) 33333 Hfin ltac:(lra)
                representable_sleep_min (representable_Z 33333 eq_refl) Hp ltac:(nra))
      as [Hf Hr].
    unfold sleep_us.
    apply (to_useconds_in_range _ 0 33333 Hf); [lra|lia|unfold UINT_MAX; lia].
  - intros Hlo Hhi.
    apply SFleb_iff in Hlo; [|assumption..]. rewrite E16 in Hlo.
    apply SFleb_iff in Hhi; [|assumption..]. rewrite E1 in Hhi.
    destruct (sleep_quotient_range speedFactor 33333 2184511488 Hfin ltac:(lra)
                (representable_Z 33333 eq_refl) representable_sleep_max ltac:(lra)
                ltac:(nra))
      as [Hf Hr].
    unfold sleep_us.
    apply (to_useconds_in_range _ 33333 2184511488 Hf); [lra|lia|unfold UINT_MAX; lia].
Qed.

Lemma X12_witness :
  finite32 (#2)%f32 = true /\ fle (#1)%f32 (#2)%f32 = true /\
  exists us, sleep_us (#2)%f32 = Ok us /\ 0 <= us <= baseSleep.
Proof.
  split; [reflexivity|]. split; [reflexivity|].
  exact (proj1 (X12_sleep_shrinks_with_speed (#2)%f32 eq_refl) eq_refl).
Defined.

(** ** The sampling loops *)

Lemma ascending_lookup l :
  ascending l = true ->
  forall k v w, l !! k = Some v -> l !! S k = Some w -> fgt w v = true.
Proof.
  induction l as [|a [|c r] IH]; intros H k v w Hv Hw; [destruct k; discriminate..|].
  cbn [ascending] in H. apply andb_true_iff in H as [H1 H2].
  destruct k as [|k].
  - cbn in Hv, Hw. congruence.
  - apply (IH H2 k); assumption.
Qed.

(** X13: the two sampling loops end.  The outer one runs 90 times and
    the inner one 315 times for each of them, 28350 samples a frame; the
    loop variable is an ordinary [float] from 0 up to below 6.28 that
    grows with every step, and the step after the last value reaches
    6.28. *)
Theorem X13_sampling_loops_end :
  length j_values = 90%nat /\ length i_values = 315%nat /\ Z.of_nat (length grid) = 28350 /\
  (forall k, loop_values (LOOP_FUEL + k) (F64.literal 628 2) (F64.literal 7 2) fzero = j_values) /\
  (forall k, loop_values (LOOP_FUEL + k) (F64.literal 628 2) (F64.literal 2 2) fzero = i_values) /\
  (forall v, v ∈ j_values \/ v ∈ i_values -> loop_value v = true) /\
  (forall k v w, j_values !! k = Some v -> j_values !! S k = Some w -> fgt w v = true) /\
  (forall k v w, i_values !! k = Some v -> i_values !! S k = Some w -> fgt w v = true) /\
  (forall v, last j_values = Some v ->
     fgt (F64.literal 628 2) (F64.of_float (incr (F64.literal 7 2) v)) = false) /\
  (forall v, last i_values = Some v ->
     fgt (F64.literal 628 2) (F64.of_float (incr (F64.literal 2 2) v)) = false).
Proof.
  assert (Hj : length j_values = 90%nat) by (vm_compute; reflexivity).
  assert (Hi : length i_values = 315%nat) by (vm_compute; reflexivity).
  split; [exact Hj|]. split; [exact Hi|].
  split; [vm_compute; reflexivity|].
  split; [intros k; apply loop_values_fuel; fold j_values; rewrite Hj; unfold LOOP_FUEL; lia|].
  split; [intros k; apply loop_values_fuel; fold i_values; rewrite Hi; unfold LOOP_FUEL; lia|].
  split.
  { assert (H : forallb loop_value (j_values ++ i_values) = true) by (vm_compute; reflexivity).
    rewrite forallb_forall in H. intros v Hv. apply H, list_elem_of_In, elem_of_app, Hv. }
  split; [apply ascending_lookup; vm_compute; reflexivity|].
  split; [apply ascending_lookup; vm_compute; reflexivity|].
  split.
  - intros v Hv.
    assert (H : match last j_values with
                | Some v => fgt (F64.literal 628 2) (F64.of_float (incr (F64.literal 7 2) v))
                | None => false
                end = false) by (vm_compute; reflexivity).
    rewrite Hv in H. exact H.
  - intros v Hv.
    assert (H : match last i_values with
                | Some v => fgt (F64.literal 628 2) (F64.of_float (incr (F64.literal 2 2) v))
                | None => false
                end = false) by (vm_compute; reflexivity).
    rewrite Hv in H. exact H.
Qed.

(** ** No undefined step *)

Section WholeProgram.

Variables sin cos : spec_float -> spec_float.
Variable strtof : string -> spec_float * string.
Variables EAGAIN EWOULDBLOCK : Z.

Hypothesis sin_unit :
  forall v, finite32 v = true -> within (#(-1))%f32 (#1)%f32 (fsin sin v) = true.
Hypothesis cos_unit :
  forall v, finite32 v = true -> within (#(-1))%f32 (#1)%f32 (fcos cos v) = true.
Hypothesis circle :
  forall v, finite32 v = true -> near_unit_circle (fsin sin v) (fcos cos v).

(** X14: in the loop body the three conversions to [int] are defined and
    the offset is computed without overflow, on screen or off: [x] lies
    between -170 and 250, [y] between -93 and 117, the luminance [N]
    between -40 and 11, and [o = x + 80 * y] between -7610 and 9610. *)
Theorem X14_loop_body_arithmetic_is_defined (A B i j : spec_float) :
  finite32 A = true -> finite32 B = true -> finite32 i = true -> finite32 j = true ->
  exists s,
    project sin cos A B i j = Ok s /\
    -170 <= s_x s <= 250 /\ -93 <= s_y s <= 117 /\ -40 <= s_N s <= 11 /\
    in_int (80 * s_y s) /\ in_int (s_x s + 80 * s_y s) /\
    offset (s_x s) (s_y s) = s_x s + 80 * s_y s /\
    -7610 <= offset (s_x s) (s_y s) <= 9610.
Proof.
  intros FA FB Fi Fj.
  destruct (project_defined sin cos sin_unit cos_unit A B i j FA FB Fi Fj)
    as (s & Hs & Hx & Hy & HN).
  pose proof (sample_luminance sin cos sin_unit cos_unit circle A B i j s FA FB Fi Fj Hs) as H11.
  exists s. split; [exact Hs|]. split; [exact Hx|]. split; [exact Hy|]. split; [lia|].
  assert (I1 : in_int (80 * s_y s)) by (unfold in_int, INT_MIN, INT_MAX; lia).
  assert (I2 : in_int (s_x s + 80 * s_y s)) by (unfold in_int, INT_MIN, INT_MAX; lia).
  split; [exact I1|]. split; [exact I2|].
  unfold offset. rewrite (wrap_int_small _ I1), (wrap_int_small _ I2). lia.
Qed.

(** X15: the program as a whole.  The angles stay between 0 and 2^20;
    every frame is drawn and printed without an access outside the
    buffers or the glyph literal and without an undefined conversion in
    the loop body.  The process exits with 0 or 1, and the one step at
    which it can leave defined behaviour is the conversion of
    [baseSleep / speedFactor] to [useconds_t]. *)
Theorem X15_only_the_sleep_can_be_undefined (argv : list string) (t : terminal)
    (reads : list read_result) :
  match main sin cos strtof EAGAIN EWOULDBLOCK argv t reads with
  | Exit status _ => status = 0 \/ status = 1
  | Undefined f _ =>
      f = ConvRange /\
      exists cfg warnings,
        parse_args strtof argv = Configured cfg warnings /\
        sleep_us (speedFactor cfg) = Fault ConvRange
  | Running A B _ =>
      within fzero (#1048576)%f32 A = true /\ within fzero (#1048576)%f32 B = true
  end.
Proof.
  unfold main. destruct (parse_args strtof argv) as [out|cfg warnings]; [auto|].
  destruct (setColorPalette (colorName cfg)) as [pal w].
  destruct (enableRawMode t) as [evs [status|]] eqn:Et.
  - unfold enableRawMode in Et.
    destruct (tcgetattr_ok t), (tcsetattr_ok t); cbn in Et;
      first [discriminate Et|inversion Et; subst; auto].
  - pose proof (main_loop_defined sin cos EAGAIN EWOULDBLOCK sin_unit cos_unit circle
                  cfg pal reads fzero fzero
                  ([Stderr (warnings ++ w)] ++ evs ++ [Stdout [esc "[2J"]])
                  eq_refl eq_refl) as Hd.
    destruct (main_loop _ _ _ _ _ _ _ _ _ _) as [status tr|f tr|A B tr].
    + auto.
    + destruct Hd as [-> Hs]. eauto.
    + exact Hd.
Qed.

Lemma collect_length {T U} (f : T -> result U) l :
  forall us, collect f l = Ok us -> length us = length l.
Proof.
  induction l as [|t l IH]; cbn [collect]; intros us.
  - intros [= <-]. reflexivity.
  - destruct (f t) as [u|]; [|discriminate]. cbn [rbind].
    destruct (collect f l) as [us0|]; [|discriminate]. cbn [rbind]. intros [= <-].
    cbn [length]. rewrite (IH us0) by reflexivity. reflexivity.
Qed.

(** X16: every frame is drawn from all 28350 samples, and each of its
    1760 cells ends as a blank with depth zero or as one of the twelve
    glyphs with a positive depth. *)
Theorem X16_every_cell_is_blank_or_glyph (A B : spec_float) :
  finite32 A = true -> finite32 B = true ->
  exists ss fr,
    samples sin cos A B = Ok ss /\ Z.of_nat (length ss) = 28350 /\
    render sin cos A B = Ok fr /\ well_sized fr /\
    forall o, (o < CELLS)%nat ->
      exists d g, z fr !! o = Some d /\ b fr !! o = Some g /\
        ((d = fzero /\ g = SPACE) \/ (fgt d fzero = true /\ In g ramp_glyphs)).
Proof.
  intros FA FB.
  destruct (render_defined sin cos sin_unit cos_unit circle A B FA FB)
    as (ss & fr & Hss & H11 & Hr & Hrun).
  exists ss, fr. split; [exact Hss|]. split.
  { rewrite (collect_length _ _ _ Hss). vm_compute. reflexivity. }
  split; [exact Hr|].
  destruct (run_clear_cells ss fr Hrun) as [Hwf Hc]. split; [exact Hwf|].
  intros o Ho. destruct (Hc o Ho) as (d & g & Hd & Hg & Hspec).
  exists d, g. split; [exact Hd|]. split; [exact Hg|].
  destruct Hspec as [(-> & -> & _)|(s & (Hin & _ & Hpos & _) & -> & ->)]; [auto|].
  right. split; [exact Hpos|].
  rewrite Forall_forall in H11. specialize (H11 s Hin).
  destruct (glyph_in_ramp (s_N s) H11) as (ch & Hch & _ & Hramp).
  unfold glyph_of. rewrite Hch. exact Hramp.
Qed.

End WholeProgram.

(** ** The further properties at concrete inputs *)

Lemma X6_witness :
  exists A' B' trace',
    main_loop (fun _ => fzero) (fun _ => F64.of_int 1) 11 11
      (Settings "gruen" (#1)%f32) green_palette [ReadNone] fzero fzero []
    = Running A' B' trace' /\
    A' = Nat.iter 1 next_A fzero /\ B' = Nat.iter 1 next_B fzero.
Proof.
  destruct (advance_defined (fun _ => fzero) (fun _ => F64.of_int 1)
              constant_sin_unit constant_cos_unit constant_circle
              (Settings "gruen" (#1)%f32) green_palette fzero fzero eq_refl eq_refl)
    as [(out & us & Ha)|(out & _ & Hs)]; [|discriminate Hs].
  assert (H : main_loop (fun _ => fzero) (fun _ => F64.of_int 1) 11 11
                (Settings "gruen" (#1)%f32) green_palette [ReadNone] fzero fzero []
              = Running (next_A fzero) (next_B fzero) [Stdout out; Usleep us]).
  { cbn [main_loop poll]. rewrite Ha. reflexivity. }
  exists (next_A fzero), (next_B fzero), [Stdout out; Usleep us].
  split; [exact H|].
  destruct (X6_one_frame_per_read _ _ _ _ _ _ _ _ _ _ _ _ _ H) as (_ & HA & HB & _).
  split; [exact HA|exact HB].
Defined.

Lemma X11_witness :
  exists fr,
    render (fun _ => fzero) (fun _ => F64.of_int 1) fzero fzero = Ok fr /\
    well_sized fr.
Proof.
  destruct (render_defined (fun _ => fzero) (fun _ => F64.of_int 1)
              constant_sin_unit constant_cos_unit constant_circle fzero fzero
              eq_refl eq_refl) as (ss & fr & _ & _ & Hr & _).
  exists fr. split; [exact Hr|].
  exact (proj1 (X11_line_breaks_hide_no_glyph _ _ _ _ _ Hr)).
Defined.

Lemma X14_witness :
  (forall v, finite32 v = true ->
     within (#(-1))%f32 (#1)%f32 (fsin (fun _ => fzero) v) = true) /\
  (forall v, finite32 v = true ->
     within (#(-1))%f32 (#1)%f32 (fcos (fun _ => F64.of_int 1) v) = true) /\
  (forall v, finite32 v = true ->
     near_unit_circle (fsin (fun _ => fzero) v) (fcos (fun _ => F64.of_int 1) v)) /\
  finite32 fzero = true /\
  exists s,
    project (fun _ => fzero) (fun _ => F64.of_int 1) fzero fzero fzero fzero = Ok s /\
    -170 <= s_x s <= 250.
Proof.
  split; [exact constant_sin_unit|]. split; [exact constant_cos_unit|].
  split; [exact constant_circle|]. split; [reflexivity|].
  destruct (X14_loop_body_arithmetic_is_defined (fun _ => fzero) (fun _ => F64.of_int 1)
              constant_sin_unit constant_cos_unit constant_circle
              fzero fzero fzero fzero eq_refl eq_refl eq_refl eq_refl)
    as (s & Hs & Hx & _).
  exists s. split; [exact Hs|exact Hx].
Defined.

Lemma X15_witness :
  (forall v, finite32 v = true ->
     within (#(-1))%f32 (#1)%f32 (fsin (fun _ => fzero) v) = true) /\
  (forall v, finite32 v = true ->
     within (#(-1))%f32 (#1)%f32 (fcos (fun _ => F64.of_int 1) v) = true) /\
  (forall v, finite32 v = true ->
     near_unit_circle (fsin (fun _ => fzero) v) (fcos (fun _ => F64.of_int 1) v)) /\
  match main (fun _ => fzero) (fun _ => F64.of_int 1) (fun s => (fzero, s)) 11 11
          ["donut"] (Terminal true true) [ReadNone; ReadByte "q"] with
  | Exit status _ => status = 0 \/ status = 1
  | Undefined f _ =>
      f = ConvRange /\
      exists cfg warnings,
        parse_args (fun s => (fzero, s)) ["donut"] = Configured cfg warnings /\
        sleep_us (speedFactor cfg) = Fault ConvRange
  | Running A B _ =>
      within fzero (#1048576)%f32 A = true /\ within fzero (#1048576)%f32 B = true
  end.
Proof.
  split; [exact constant_sin_unit|]. split; [exact constant_cos_unit|].
  split; [exact constant_circle|].
  exact (X15_only_the_sleep_can_be_undefined (fun _ => fzero) (fun _ => F64.of_int 1)
           (fun s => (fzero, s)) 11 11
           constant_sin_unit constant_cos_unit constant_circle
           ["donut"] (Terminal true true) [ReadNone; ReadByte "q"]).
Defined.

Lemma X16_witness :
  (forall v, finite32 v = true ->
     within (#(-1))%f32 (#1)%f32 (fsin (fun _ => fzero) v) = true) /\
  (forall v, finite32 v = true ->
     within (#(-1))%f32 (#1)%f32 (fcos (fun _ => F64.of_int 1) v) = true) /\
  (forall v, finite32 v = true ->
     near_unit_circle (fsin (fun _ => fzero) v) (fcos (fun _ => F64.of_int 1) v)) /\
  finite32 fzero = true /\
  exists fr,
    render (fun _ => fzero) (fun _ => F64.of_int 1) fzero fzero = Ok fr /\ well_sized fr.
Proof.
  split; [exact constant_sin_unit|]. split; [exact constant_cos_unit|].
  split; [exact constant_circle|]. split; [reflexivity|].
  destruct (X16_every_cell_is_blank_or_glyph (fun _ => fzero) (fun _ => F64.of_int 1)
              constant_sin_unit constant_cos_unit constant_circle fzero fzero
              eq_refl eq_refl) as (ss & fr & _ & _ & Hr & Hwf & _).
  exists fr. split; [exact Hr|exact Hwf].
Defined.
